(** * JSON-RPC endpoint and reconnecting session of lib/jsonrpc.c

    A shallow embedding of [lib/jsonrpc.c]: the message record with its
    validation and its conversion from and to JSON, the non-blocking
    endpoint ([struct jsonrpc]) and the reconnecting session
    ([struct jsonrpc_session]), followed by the properties of the
    specification that were checked against them.

    The collaborators of the file (JSON values and their hash table of
    members, the incremental JSON parser, the byte stream, the byte
    queue, the reconnect controller) are not part of [lib/jsonrpc.c]; each
    is modelled where it is first used, and the comment there says how. *)

From stdpp Require Import gmap strings list fin_maps.

Local Open Scope Z_scope.

(** ** JSON values ([json.h]) *)

(** Modelled from the spec: [json.h] is not part of the sources.  A JSON
    value is a tagged union; the members of an object are a table keyed by
    name ([struct shash]), taken with one value per name.  The variant for
    real numbers (a C [double]) is left out: no function of
    [lib/jsonrpc.c] looks inside a number. *)
#[warnings="-register-all"]
Inductive json : Type :=
  | JNull
  | JFalse
  | JTrue
  | JObject (members : gmap string json)
  | JArray (elems : list json)
  | JInteger (n : Z)
  | JString (s : string).

Inductive json_type : Set :=
  | JSON_NULL | JSON_FALSE | JSON_TRUE | JSON_OBJECT | JSON_ARRAY
  | JSON_INTEGER | JSON_STRING.

Definition json_type_of (j : json) : json_type :=
  match j with
  | JNull => JSON_NULL
  | JFalse => JSON_FALSE
  | JTrue => JSON_TRUE
  | JObject _ => JSON_OBJECT
  | JArray _ => JSON_ARRAY
  | JInteger _ => JSON_INTEGER
  | JString _ => JSON_STRING
  end.

#[global] Instance json_type_eq_dec : EqDecision json_type.
Proof. solve_decision. Defined.

(** Structural equality of JSON values is decidable; the table of members
    is extensional, so this is the deep equality of [json_equal]. *)
Fixpoint json_eq_dec (a b : json) : Decision (a = b).
Proof.
  refine (
    let _ : EqDecision json := json_eq_dec in
    match a, b with
    | JNull, JNull => left _
    | JFalse, JFalse => left _
    | JTrue, JTrue => left _
    | JObject m1, JObject m2 => cast_if (decide (m1 = m2))
    | JArray l1, JArray l2 => cast_if (decide (l1 = l2))
    | JInteger n1, JInteger n2 => cast_if (decide (n1 = n2))
    | JString s1, JString s2 => cast_if (decide (s1 = s2))
    | _, _ => right _
    end); congruence.
Defined.

#[global] Instance json_eq_decision : EqDecision json := json_eq_dec.

(** [json_equal(a, b)]: deep equality. *)
Definition json_equal (a b : json) : bool := bool_decide (a = b).

(** [json_clone(j)]: a deep copy, which a value-level model cannot tell
    from the original. *)
Definition json_clone (j : json) : json := j.

Definition json_null_create : json := JNull.
Definition json_object_create : json := JObject ∅.
Definition json_array_create_empty : json := JArray [].
Definition json_string_create (s : string) : json := JString s.
Definition json_string_create_nocopy (s : string) : json := JString s.

(** [json_integer_create(id)] of an [unsigned int]. *)
Definition json_integer_create (n : Z) : json := JInteger n.

(** [json_object_put(json, name, value)]; on a value that is not an object
    the C code fails an assertion, the model leaves the value alone. *)
Definition json_object_put (j : json) (name : string) (value : json) : json :=
  match j with
  | JObject o => JObject (<[name := value]> o)
  | _ => j
  end.

(** The table of members ([shash.h]). *)
Definition shash_find_and_delete (o : gmap string json) (name : string)
  : option json * gmap string json :=
  (o !! name, delete name o).

Definition shash_is_empty (o : gmap string json) : bool :=
  bool_decide (o = ∅).

(** [shash_first(o)->name]: the name of the first node in the iteration
    order of the table, which the model fixes as the order of
    [map_to_list]. *)
Definition shash_first_name (o : gmap string json) : string :=
  match map_to_list o with
  | (name, _) :: _ => name
  | [] => EmptyString
  end.

(** ** Messages *)

Inductive jsonrpc_msg_type : Set :=
  | JSONRPC_REQUEST
  | JSONRPC_NOTIFY
  | JSONRPC_REPLY
  | JSONRPC_ERROR.

#[global] Instance jsonrpc_msg_type_eq_dec : EqDecision jsonrpc_msg_type.
Proof. solve_decision. Defined.

(** [struct jsonrpc_msg]; a null pointer is [None]. *)
Record jsonrpc_msg : Type := mk_jsonrpc_msg {
  msg_type : jsonrpc_msg_type;
  msg_method : option string;
  msg_params : option json;
  msg_result : option json;
  msg_error : option json;
  msg_id : option json
}.

#[global] Instance jsonrpc_msg_eq_dec : EqDecision jsonrpc_msg.
Proof. solve_decision. Defined.

Definition jsonrpc_create (type : jsonrpc_msg_type) (method : option string)
    (params result error id : option json) : jsonrpc_msg :=
  {| msg_type := type; msg_method := method; msg_params := params;
     msg_result := result; msg_error := error; msg_id := id |}.

(** The [unsigned int] counters of the file wrap around at [2^32]. *)
Definition UINT_MOD : Z := 2 ^ 32.

(** [jsonrpc_create_id]: the [static unsigned int id] is passed in and its
    next value is returned with the JSON integer. *)
Definition jsonrpc_create_id (next_id : Z) : json * Z :=
  (json_integer_create next_id, (next_id + 1) mod UINT_MOD).

(** [jsonrpc_create_request(method, params, &id)]: the message, the copy
    of the id stored through [idp], and the counter. *)
Definition jsonrpc_create_request (method : string) (params : json)
    (next_id : Z) : jsonrpc_msg * json * Z :=
  let '(id, next_id') := jsonrpc_create_id next_id in
  (jsonrpc_create JSONRPC_REQUEST (Some method) (Some params) None None
     (Some id),
   json_clone id, next_id').

Definition jsonrpc_create_notify (method : string) (params : json)
  : jsonrpc_msg :=
  jsonrpc_create JSONRPC_NOTIFY (Some method) (Some params) None None None.

Definition jsonrpc_create_reply (result : json) (id : json) : jsonrpc_msg :=
  jsonrpc_create JSONRPC_REPLY None None (Some result) None
    (Some (json_clone id)).

Definition jsonrpc_create_error (error : json) (id : json) : jsonrpc_msg :=
  jsonrpc_create JSONRPC_REPLY None None None (Some error)
    (Some (json_clone id)).

Definition jsonrpc_msg_type_to_string (type : jsonrpc_msg_type) : string :=
  match type with
  | JSONRPC_REQUEST => "request"
  | JSONRPC_NOTIFY => "notification"
  | JSONRPC_REPLY => "reply"
  | JSONRPC_ERROR => "error"
  end.

(** A name between double quotes, as the format strings print it. *)
Definition dquote : string := String (Ascii.ascii_of_nat 34) EmptyString.
Definition quoted (name : string) : string := dquote +:+ name +:+ dquote.

(** The message that [xasprintf] formats when a field is missing or
    forbidden: the type name, must or must not, have the quoted field. *)
Definition must_have (type_name : string) (required : bool) (field : string)
  : string :=
  type_name +:+ " must" +:+ (if required then EmptyString else " not")
    +:+ " have " +:+ quoted field.

(** [(pattern & bit) != 0]. *)
Definition pattern_bit (pattern bit : Z) : bool :=
  negb (Z.land pattern bit =? 0).

Definition is_present {A : Type} (p : option A) : bool :=
  match p with Some _ => true | None => false end.

(** [jsonrpc_msg_is_valid(m)]: [None] is the null pointer returned for a
    valid message, [Some reason] the error string.  The [default] case of
    the [switch], for a type outside the enumeration, has no counterpart:
    [jsonrpc_msg_type] has the four values only. *)
Definition jsonrpc_msg_is_valid (m : jsonrpc_msg) : option string :=
  if (match msg_params m with
      | Some p => negb (bool_decide (json_type_of p = JSON_ARRAY))
      | None => false
      end)
  then Some (quoted "params" +:+ " must be JSON array")
  else
    let pattern :=
      match msg_type m with
      | JSONRPC_REQUEST => 0x11001
      | JSONRPC_NOTIFY => 0x11000
      | JSONRPC_REPLY => 0x00101
      | JSONRPC_ERROR => 0x00011
      end in
    let type_name := jsonrpc_msg_type_to_string (msg_type m) in
    if negb (eqb (is_present (msg_method m)) (pattern_bit pattern 0x10000))
    then Some (must_have type_name (pattern_bit pattern 0x10000) "method")
    else if negb (eqb (is_present (msg_params m)) (pattern_bit pattern 0x1000))
    then Some (must_have type_name (pattern_bit pattern 0x1000) "params")
    else if negb (eqb (is_present (msg_result m)) (pattern_bit pattern 0x100))
    then Some (must_have type_name (pattern_bit pattern 0x100) "result")
    else if negb (eqb (is_present (msg_error m)) (pattern_bit pattern 0x10))
    then Some (must_have type_name (pattern_bit pattern 0x10) "error")
    else if negb (eqb (is_present (msg_id m)) (pattern_bit pattern 0x1))
    then Some (must_have type_name (pattern_bit pattern 0x1) "id")
    else None.

Definition null_from_json_null (j : option json) : option json :=
  match j with
  | Some JNull => None
  | _ => j
  end.

(** [jsonrpc_msg_from_json(json, &msg)]: [inl error] for a returned error
    string (and a null [*msgp]), [inr msg] otherwise. *)
Definition jsonrpc_msg_from_json (j : json) : string + jsonrpc_msg :=
  match j with
  | JObject object =>
    let '(method, object) := shash_find_and_delete object "method" in
    if (match method with
        | Some m => negb (bool_decide (json_type_of m = JSON_STRING))
        | None => false
        end)
    then inl "method is not a JSON string"
    else
      let m_method :=
        match method with Some (JString s) => Some s | _ => None end in
      let '(params, object) := shash_find_and_delete object "params" in
      let m_params := null_from_json_null params in
      let '(result, object) := shash_find_and_delete object "result" in
      let m_result := null_from_json_null result in
      let '(error, object) := shash_find_and_delete object "error" in
      let m_error := null_from_json_null error in
      let '(id, object) := shash_find_and_delete object "id" in
      let m_id := null_from_json_null id in
      let m_type :=
        if is_present m_result then JSONRPC_REPLY
        else if is_present m_error then JSONRPC_ERROR
        else if is_present m_id then JSONRPC_REQUEST
        else JSONRPC_NOTIFY in
      let msg :=
        {| msg_type := m_type; msg_method := m_method;
           msg_params := m_params; msg_result := m_result;
           msg_error := m_error; msg_id := m_id |} in
      if negb (shash_is_empty object)
      then inl ("message has unexpected member "
                  +:+ quoted (shash_first_name object))
      else
        match jsonrpc_msg_is_valid msg with
        | Some error => inl error
        | None => inr msg
        end
  | _ => inl "message is not a JSON object"
  end.

(** [jsonrpc_msg_to_json(m)]. *)
Definition jsonrpc_msg_to_json (m : jsonrpc_msg) : json :=
  let json := json_object_create in
  let json :=
    match msg_method m with
    | Some method =>
        json_object_put json "method" (json_string_create_nocopy method)
    | None => json
    end in
  let json :=
    match msg_params m with
    | Some params => json_object_put json "params" params
    | None => json
    end in
  let json :=
    match msg_result m with
    | Some result => json_object_put json "result" result
    | None =>
        if bool_decide (msg_type m = JSONRPC_ERROR)
        then json_object_put json "result" json_null_create
        else json
    end in
  let json :=
    match msg_error m with
    | Some error => json_object_put json "error" error
    | None =>
        if bool_decide (msg_type m = JSONRPC_REPLY)
        then json_object_put json "error" json_null_create
        else json
    end in
  let json :=
    match msg_id m with
    | Some id => json_object_put json "id" id
    | None =>
        if bool_decide (msg_type m = JSONRPC_NOTIFY)
        then json_object_put json "id" json_null_create
        else json
    end in
  json.

(** ** Error numbers ([errno.h], [stdio.h]) *)

(** The values of Linux; the code only tells them apart. *)
Definition EAGAIN : Z := 11.
Definition EPROTO : Z := 71.
Definition ENOTCONN : Z := 107.
Definition EOF : Z := -1.

(** [size_t] is taken to have 64 bits. *)
Definition SIZE_MOD : Z := 2 ^ 64.

(** ** The byte stream ([stream.h]) *)

(** Modelled from the spec: the transport is not part of the sources.  A
    stream carries the answers it will give, call after call: to
    [stream_connect] a result ([0], [EAGAIN] or another error number); to
    [stream_send] the room it has for bytes, or a negative error number;
    to [stream_recv] the bytes that have arrived, or an error.  A stream
    whose answers are used up would block: it answers [EAGAIN]. *)
Inductive recv_event : Type :=
  | RecvData (bytes : list Byte.byte)
  | RecvError (errno : positive).

Record stream : Type := mk_stream {
  stream_name : string;
  stream_connects : list Z;
  stream_sends : list Z;
  stream_recvs : list recv_event
}.

Definition stream_get_name (st : stream) : string := stream_name st.

(** [stream_run] lets the transport make progress; the scripted answers
    already say how far it got. *)
Definition stream_run (st : stream) : stream := st.

Definition stream_connect (st : stream) : Z * stream :=
  match stream_connects st with
  | [] => (EAGAIN, st)
  | r :: rest =>
      (r, mk_stream (stream_name st) rest (stream_sends st) (stream_recvs st))
  end.

(** [stream_send(st, data, n)]: the number of bytes accepted, at most [n],
    or a negative error number. *)
Definition stream_send (st : stream) (data : list Byte.byte) : Z * stream :=
  match stream_sends st with
  | [] => (- EAGAIN, st)
  | r :: rest =>
      (if 0 <=? r then Z.min r (Z.of_nat (length data)) else r,
       mk_stream (stream_name st) (stream_connects st) rest (stream_recvs st))
  end.

(** [stream_recv(st, buffer, n)]: the return value and the bytes stored in
    the buffer, at most [n]; [0] is the end of the stream. *)
Definition stream_recv (st : stream) (n : nat)
  : Z * list Byte.byte * stream :=
  match stream_recvs st with
  | [] => (- EAGAIN, [], st)
  | RecvData bytes :: rest =>
      let later :=
        match drop n bytes with
        | [] => rest
        | more => RecvData more :: rest
        end in
      (Z.of_nat (length (take n bytes)), take n bytes,
       mk_stream (stream_name st) (stream_connects st) (stream_sends st) later)
  | RecvError errno :: rest =>
      (Z.neg errno, [],
       mk_stream (stream_name st) (stream_connects st) (stream_sends st) rest)
  end.

(** ** The byte queue ([byteq.h]) *)

(** Modelled from the spec: a ring of [BYTEQ_SIZE] bytes between the
    transport and the parser.  The model keeps the unread bytes, oldest
    first, and the offset of the tail in the ring, from which the two
    contiguous spans follow. *)
Definition BYTEQ_SIZE : nat := 512.

Record byteq : Type := mk_byteq {
  byteq_data : list Byte.byte;
  byteq_tail_offset : nat
}.

Definition byteq_init : byteq := mk_byteq [] 0.

Definition byteq_used (q : byteq) : nat := length (byteq_data q).

Definition byteq_avail (q : byteq) : nat := (BYTEQ_SIZE - byteq_used q)%nat.

Definition byteq_is_empty (q : byteq) : bool := bool_decide (byteq_used q = 0%nat).

(** The free span at the head: up to the end of the ring. *)
Definition byteq_headroom (q : byteq) : nat :=
  let head_offset := ((byteq_tail_offset q + byteq_used q) mod BYTEQ_SIZE)%nat in
  Nat.min (byteq_avail q) (BYTEQ_SIZE - head_offset).

(** The readable span at the tail: up to the end of the ring. *)
Definition byteq_tailroom (q : byteq) : nat :=
  Nat.min (byteq_used q) (BYTEQ_SIZE - byteq_tail_offset q).

(** The [n] bytes at [byteq_tail(q)]. *)
Definition byteq_tail (q : byteq) (n : nat) : list Byte.byte :=
  take n (byteq_data q).

(** [byteq_advance_head(q, n)] after [n] bytes were stored at
    [byteq_head(q)]. *)
Definition byteq_advance_head (q : byteq) (stored : list Byte.byte) : byteq :=
  mk_byteq (byteq_data q ++ stored) (byteq_tail_offset q).

Definition byteq_advance_tail (q : byteq) (n : nat) : byteq :=
  mk_byteq (drop n (byteq_data q)) ((byteq_tail_offset q + n) mod BYTEQ_SIZE)%nat.

(** ** JSON text ([json.h]) *)

(** The incremental parser and the serializer are used through their
    interface: [json_parser_feed] returns how many of the bytes it was
    given it has used, [json_parser_finish] the parsed value, or a JSON
    string that holds an error message. *)
Class JsonText : Type := {
  json_parser : Type;
  json_parser_create : Z → json_parser;
  json_parser_feed : json_parser → list Byte.byte → nat * json_parser;
  json_parser_is_done : json_parser → bool;
  json_parser_finish : json_parser → json;
  json_to_string : json → Z → list Byte.byte
}.

(** ** The endpoint ([struct jsonrpc]) *)

Section Endpoint.
Context `{JsonText}.

(** A buffer of the output queue ([struct ofpbuf]) is the list of its
    bytes not sent yet; the queue is the list of its buffers, head first. *)
Record jsonrpc : Type := mk_jsonrpc {
  rpc_stream : option stream;
  rpc_name : string;
  rpc_status : Z;
  rpc_input : byteq;
  rpc_parser : option json_parser;
  rpc_received : option jsonrpc_msg;
  rpc_output : list (list Byte.byte);
  rpc_backlog : Z
}.

Definition set_rpc_stream (st : option stream) (rpc : jsonrpc) : jsonrpc :=
  mk_jsonrpc st (rpc_name rpc) (rpc_status rpc) (rpc_input rpc)
    (rpc_parser rpc) (rpc_received rpc) (rpc_output rpc) (rpc_backlog rpc).

Definition set_rpc_status (status : Z) (rpc : jsonrpc) : jsonrpc :=
  mk_jsonrpc (rpc_stream rpc) (rpc_name rpc) status (rpc_input rpc)
    (rpc_parser rpc) (rpc_received rpc) (rpc_output rpc) (rpc_backlog rpc).

Definition set_rpc_input (input : byteq) (rpc : jsonrpc) : jsonrpc :=
  mk_jsonrpc (rpc_stream rpc) (rpc_name rpc) (rpc_status rpc) input
    (rpc_parser rpc) (rpc_received rpc) (rpc_output rpc) (rpc_backlog rpc).

Definition set_rpc_parser (parser : option json_parser) (rpc : jsonrpc)
  : jsonrpc :=
  mk_jsonrpc (rpc_stream rpc) (rpc_name rpc) (rpc_status rpc) (rpc_input rpc)
    parser (rpc_received rpc) (rpc_output rpc) (rpc_backlog rpc).

Definition set_rpc_received (received : option jsonrpc_msg) (rpc : jsonrpc)
  : jsonrpc :=
  mk_jsonrpc (rpc_stream rpc) (rpc_name rpc) (rpc_status rpc) (rpc_input rpc)
    (rpc_parser rpc) received (rpc_output rpc) (rpc_backlog rpc).

Definition set_rpc_output (output : list (list Byte.byte)) (rpc : jsonrpc)
  : jsonrpc :=
  mk_jsonrpc (rpc_stream rpc) (rpc_name rpc) (rpc_status rpc) (rpc_input rpc)
    (rpc_parser rpc) (rpc_received rpc) output (rpc_backlog rpc).

Definition set_rpc_backlog (backlog : Z) (rpc : jsonrpc) : jsonrpc :=
  mk_jsonrpc (rpc_stream rpc) (rpc_name rpc) (rpc_status rpc) (rpc_input rpc)
    (rpc_parser rpc) (rpc_received rpc) (rpc_output rpc) backlog.

Definition jsonrpc_open (st : stream) : jsonrpc :=
  {| rpc_stream := Some st; rpc_name := stream_get_name st; rpc_status := 0;
     rpc_input := byteq_init; rpc_parser := None; rpc_received := None;
     rpc_output := []; rpc_backlog := 0 |}.

(** [jsonrpc_cleanup]: the stream is closed, the parser aborted, the
    buffered message destroyed and the queue cleared. *)
Definition jsonrpc_cleanup (rpc : jsonrpc) : jsonrpc :=
  set_rpc_backlog 0
    (set_rpc_output []
       (set_rpc_received None
          (set_rpc_parser None
             (set_rpc_stream None rpc)))).

(** [jsonrpc_error(rpc, error)], whose caller passes a nonzero [error]. *)
Definition jsonrpc_error (rpc : jsonrpc) (error : Z) : jsonrpc :=
  if bool_decide (rpc_status rpc = 0)
  then jsonrpc_cleanup (set_rpc_status error rpc)
  else rpc.

(** The loop of [jsonrpc_run].  Each turn asks the stream one answer, so
    one turn more than the stream has answers left is all the loop can
    take ([jsonrpc_run_loop_turns] below); [jsonrpc_run] gives it that
    many.  While the status is [0] the stream is there ([jsonrpc_open] is
    given one and only [jsonrpc_cleanup] removes it, see
    [jsonrpc_wf_steps]); the loop has nothing to do without. *)
Fixpoint jsonrpc_run_loop (turns : nat) (rpc : jsonrpc) : jsonrpc :=
  match turns, rpc_output rpc, rpc_stream rpc with
  | S turns', buf :: rest, Some st =>
      let '(retval, st') := stream_send st buf in
      let rpc := set_rpc_stream (Some st') rpc in
      if 0 <=? retval then
        let rpc :=
          set_rpc_backlog ((rpc_backlog rpc - retval) mod SIZE_MOD) rpc in
        let buf' := drop (Z.to_nat retval) buf in
        let rpc :=
          match buf' with
          | [] => set_rpc_output rest rpc
          | _ => set_rpc_output (buf' :: rest) rpc
          end in
        jsonrpc_run_loop turns' rpc
      else if bool_decide (retval ≠ - EAGAIN) then jsonrpc_error rpc (- retval)
      else rpc
  | _, _, _ => rpc
  end.

Definition jsonrpc_run (rpc : jsonrpc) : jsonrpc :=
  if bool_decide (rpc_status rpc ≠ 0) then rpc
  else
    match rpc_stream rpc with
    | Some st =>
        let st := stream_run st in
        jsonrpc_run_loop (S (length (stream_sends st)))
          (set_rpc_stream (Some st) rpc)
    | None => rpc
    end.

Definition jsonrpc_get_status (rpc : jsonrpc) : Z := rpc_status rpc.

Definition jsonrpc_get_backlog (rpc : jsonrpc) : Z :=
  if bool_decide (rpc_status rpc ≠ 0) then 0 else rpc_backlog rpc.

Definition jsonrpc_get_name (rpc : jsonrpc) : string := rpc_name rpc.

(** [jsonrpc_send(rpc, msg)]: the return value and the endpoint, and, for
    the properties that speak of it, the list of the messages handed to
    [jsonrpc_msg_destroy]. *)
Definition jsonrpc_send (rpc : jsonrpc) (msg : jsonrpc_msg)
  : Z * jsonrpc * list jsonrpc_msg :=
  if bool_decide (rpc_status rpc ≠ 0) then (rpc_status rpc, rpc, [msg])
  else
    let json := jsonrpc_msg_to_json msg in
    let s := json_to_string json 0 in
    let length := Z.of_nat (length s) in
    let rpc := set_rpc_output (rpc_output rpc ++ [s]) rpc in
    let rpc := set_rpc_backlog ((rpc_backlog rpc + length) mod SIZE_MOD) rpc in
    let rpc :=
      if bool_decide (List.length (rpc_output rpc) = 1%nat)
      then jsonrpc_run rpc
      else rpc in
    (rpc_status rpc, rpc, []).

(** [jsonrpc_received]: called with a parser that is done. *)
Definition jsonrpc_received (rpc : jsonrpc) : jsonrpc :=
  match rpc_parser rpc with
  | Some parser =>
      let json := json_parser_finish parser in
      let rpc := set_rpc_parser None rpc in
      if bool_decide (json_type_of json = JSON_STRING)
      then jsonrpc_error rpc EPROTO
      else
        match jsonrpc_msg_from_json json with
        | inl error => jsonrpc_error rpc EPROTO
        | inr msg => set_rpc_received (Some msg) rpc
        end
  | None => rpc
  end.

(** The loop of [jsonrpc_recv].  The parser is not known to use any of the
    bytes it is fed, so the loop is given a number of turns; [None] is a
    loop that has not returned within them.  It is also the answer for an
    endpoint of status [0] that has no stream to read from, which
    [jsonrpc_wf_steps] below shows not to occur. *)
Fixpoint jsonrpc_recv_loop (turns : nat) (rpc : jsonrpc)
  : option (Z * option jsonrpc_msg * jsonrpc) :=
  match rpc_received rpc with
  | Some msg => Some (0, Some msg, set_rpc_received None rpc)
  | None =>
      match turns, rpc_stream rpc with
      | S turns', Some st =>
          if byteq_is_empty (rpc_input rpc) then
            let chunk := byteq_headroom (rpc_input rpc) in
            let '(retval, stored, st') := stream_recv st chunk in
            let rpc := set_rpc_stream (Some st') rpc in
            if retval <? 0 then
              if bool_decide (retval = - EAGAIN) then Some (EAGAIN, None, rpc)
              else
                let rpc := jsonrpc_error rpc (- retval) in
                Some (rpc_status rpc, None, rpc)
            else if retval =? 0 then Some (EOF, None, jsonrpc_error rpc EOF)
            else
              jsonrpc_recv_loop turns'
                (set_rpc_input (byteq_advance_head (rpc_input rpc) stored) rpc)
          else
            let parser :=
              match rpc_parser rpc with
              | Some parser => parser
              | None => json_parser_create 0
              end in
            let n := byteq_tailroom (rpc_input rpc) in
            let '(used, parser) :=
              json_parser_feed parser (byteq_tail (rpc_input rpc) n) in
            let rpc := set_rpc_parser (Some parser) rpc in
            let rpc :=
              set_rpc_input (byteq_advance_tail (rpc_input rpc) used) rpc in
            if json_parser_is_done parser then
              let rpc := jsonrpc_received rpc in
              if bool_decide (rpc_status rpc ≠ 0)
              then Some (rpc_status rpc, None, rpc)
              else jsonrpc_recv_loop turns' rpc
            else jsonrpc_recv_loop turns' rpc
      | _, _ => None
      end
  end.

(** [jsonrpc_recv(rpc, &msg)]: the return value, the message stored
    through [msgp], and the endpoint. *)
Definition jsonrpc_recv (turns : nat) (rpc : jsonrpc)
  : option (Z * option jsonrpc_msg * jsonrpc) :=
  if bool_decide (rpc_status rpc ≠ 0) then Some (rpc_status rpc, None, rpc)
  else jsonrpc_recv_loop turns rpc.

(** The loop of [jsonrpc_send_block]; [jsonrpc_wait] and [poll_block] wait
    for the stream and change nothing of the endpoint. *)
Fixpoint jsonrpc_send_block_loop (turns : nat) (rpc : jsonrpc)
  : option (Z * jsonrpc) :=
  match turns with
  | O => None
  | S turns' =>
      let rpc := jsonrpc_run rpc in
      if bool_decide (rpc_output rpc = []) || bool_decide (rpc_status rpc ≠ 0)
      then Some (rpc_status rpc, rpc)
      else jsonrpc_send_block_loop turns' rpc
  end.

Definition jsonrpc_send_block (turns : nat) (rpc : jsonrpc) (msg : jsonrpc_msg)
  : option (Z * jsonrpc * list jsonrpc_msg) :=
  let '(error, rpc, destroyed) := jsonrpc_send rpc msg in
  if bool_decide (error ≠ 0) then Some (error, rpc, destroyed)
  else
    match jsonrpc_send_block_loop turns rpc with
    | Some (error, rpc) => Some (error, rpc, destroyed)
    | None => None
    end.

Fixpoint jsonrpc_recv_block (turns : nat) (rpc : jsonrpc)
  : option (Z * option jsonrpc_msg * jsonrpc) :=
  match turns with
  | O => None
  | S turns' =>
      match jsonrpc_recv turns rpc with
      | Some (error, msg, rpc) =>
          if bool_decide (error ≠ EAGAIN) then Some (error, msg, rpc)
          else jsonrpc_recv_block turns' (jsonrpc_run rpc)
      | None => None
      end
  end.

(** [json_equal(id, reply->id)]; both are there when the request has an id
    and the reply is a valid one. *)
Definition id_equal (id reply_id : option json) : bool :=
  match id, reply_id with
  | Some a, Some b => json_equal a b
  | _, _ => false
  end.

(** The receiving loop of [jsonrpc_transact_block]; [destroyed] collects
    the messages handed to [jsonrpc_msg_destroy], oldest first. *)
Fixpoint jsonrpc_transact_loop (turns : nat) (rpc : jsonrpc) (id : option json)
    (destroyed : list jsonrpc_msg)
  : option (Z * option jsonrpc_msg * jsonrpc * list jsonrpc_msg) :=
  match turns with
  | O => None
  | S turns' =>
      match jsonrpc_recv_block turns rpc with
      | Some (error, reply, rpc) =>
          if bool_decide (error ≠ 0) then Some (error, None, rpc, destroyed)
          else
            match reply with
            | Some r =>
                if bool_decide (msg_type r = JSONRPC_REPLY)
                   && id_equal id (msg_id r)
                then Some (error, Some r, rpc, destroyed)
                else jsonrpc_transact_loop turns' rpc id (destroyed ++ [r])
            | None => None
            end
      | None => None
      end
  end.

(** [jsonrpc_transact_block(rpc, request, &reply)]. *)
Definition jsonrpc_transact_block (turns : nat) (rpc : jsonrpc)
    (request : jsonrpc_msg)
  : option (Z * option jsonrpc_msg * jsonrpc * list jsonrpc_msg) :=
  let id := json_clone <$> msg_id request in
  match jsonrpc_send_block turns rpc request with
  | Some (error, rpc, destroyed) =>
      if bool_decide (error = 0)
      then jsonrpc_transact_loop turns rpc id destroyed
      else Some (error, None, rpc, destroyed)
  | None => None
  end.

End Endpoint.

(** ** The reconnect controller ([reconnect.h]) *)

Inductive reconnect_action : Set :=
  | RECONNECT_CONNECT
  | RECONNECT_DISCONNECT
  | RECONNECT_PROBE.

(** The controller is used through its interface.  Every function that
    takes the controller may change it, so each returns the new one;
    [reconnect_run] answers [None] when it asks for no action. *)
Class Reconnect : Type := {
  reconnect : Type;
  reconnect_create : Z → reconnect;
  reconnect_set_name : reconnect → string → reconnect;
  reconnect_get_name : reconnect → string;
  reconnect_set_max_tries : reconnect → Z → reconnect;
  reconnect_get_max_tries : reconnect → Z;
  reconnect_enable : reconnect → Z → reconnect;
  reconnect_force_reconnect : reconnect → Z → reconnect;
  reconnect_connecting : reconnect → Z → reconnect;
  reconnect_connected : reconnect → Z → reconnect;
  reconnect_connect_failed : reconnect → Z → Z → reconnect;
  reconnect_disconnected : reconnect → Z → Z → reconnect;
  reconnect_received : reconnect → Z → reconnect;
  reconnect_run : reconnect → Z → option reconnect_action * reconnect
}.

(** ** The session ([struct jsonrpc_session]) *)

Section Session.
Context `{JsonText} `{Reconnect}.

Record jsonrpc_session : Type := mk_jsonrpc_session {
  s_reconnect : reconnect;
  s_rpc : option jsonrpc;
  s_stream : option stream;
  s_seqno : Z
}.

Definition set_s_reconnect (r : reconnect) (s : jsonrpc_session)
  : jsonrpc_session :=
  mk_jsonrpc_session r (s_rpc s) (s_stream s) (s_seqno s).

Definition set_s_rpc (rpc : option jsonrpc) (s : jsonrpc_session)
  : jsonrpc_session :=
  mk_jsonrpc_session (s_reconnect s) rpc (s_stream s) (s_seqno s).

Definition set_s_stream (st : option stream) (s : jsonrpc_session)
  : jsonrpc_session :=
  mk_jsonrpc_session (s_reconnect s) (s_rpc s) st (s_seqno s).

(** [s->seqno++] on an [unsigned int]. *)
Definition incr_s_seqno (s : jsonrpc_session) : jsonrpc_session :=
  mk_jsonrpc_session (s_reconnect s) (s_rpc s) (s_stream s)
    ((s_seqno s + 1) mod UINT_MOD).

(** In the functions of the session, [now] is what [time_msec()] returns
    during the call. *)
Definition jsonrpc_session_open (name : string) (now : Z) : jsonrpc_session :=
  let r := reconnect_create now in
  let r := reconnect_set_name r name in
  let r := reconnect_enable r now in
  {| s_reconnect := r; s_rpc := None; s_stream := None; s_seqno := 0 |}.

Definition jsonrpc_session_open_unreliably (rpc : jsonrpc) (now : Z)
  : jsonrpc_session :=
  let r := reconnect_create now in
  let r := reconnect_set_name r (jsonrpc_get_name rpc) in
  let r := reconnect_set_max_tries r 0 in
  let r := reconnect_connected r now in
  {| s_reconnect := r; s_rpc := Some rpc; s_stream := None; s_seqno := 0 |}.

(** [jsonrpc_session_disconnect]: the endpoint, after [jsonrpc_error] and
    [jsonrpc_close], or else the stream, after [stream_close], is gone. *)
Definition jsonrpc_session_disconnect (s : jsonrpc_session) : jsonrpc_session :=
  match s_rpc s with
  | Some rpc => incr_s_seqno (set_s_rpc None s)
  | None =>
      match s_stream s with
      | Some st => incr_s_seqno (set_s_stream None s)
      | None => s
      end
  end.

(** [jsonrpc_session_connect]; [stream_open] is the answer of the
    transport to an attempt to open a stream of a given name: an error
    number and the stream stored through its second argument. *)
Definition jsonrpc_session_connect (stream_open : string → Z * option stream)
    (now : Z) (s : jsonrpc_session) : jsonrpc_session :=
  let s := jsonrpc_session_disconnect s in
  let '(error, st) := stream_open (reconnect_get_name (s_reconnect s)) in
  let s := set_s_stream st s in
  let s :=
    if bool_decide (error ≠ 0)
    then set_s_reconnect (reconnect_connect_failed (s_reconnect s) now error) s
    else set_s_reconnect (reconnect_connecting (s_reconnect s) now) s in
  incr_s_seqno s.

(** [jsonrpc_session_send(s, msg)]. *)
Definition jsonrpc_session_send (s : jsonrpc_session) (msg : jsonrpc_msg)
  : Z * jsonrpc_session * list jsonrpc_msg :=
  match s_rpc s with
  | Some rpc =>
      let '(error, rpc, destroyed) := jsonrpc_send rpc msg in
      (error, set_s_rpc (Some rpc) s, destroyed)
  | None => (ENOTCONN, s, [])
  end.

(** The first half of [jsonrpc_session_run]: the endpoint or the stream
    is driven. *)
Definition jsonrpc_session_run_io (now : Z) (s : jsonrpc_session)
  : jsonrpc_session :=
  match s_rpc s with
  | Some rpc =>
      let rpc := jsonrpc_run rpc in
      let s := set_s_rpc (Some rpc) s in
      let error := jsonrpc_get_status rpc in
      if bool_decide (error ≠ 0) then
        let s :=
          set_s_reconnect (reconnect_disconnected (s_reconnect s) now 0) s in
        jsonrpc_session_disconnect s
      else s
  | None =>
      match s_stream s with
      | Some st =>
          let st := stream_run st in
          let '(error, st) := stream_connect st in
          let s := set_s_stream (Some st) s in
          if bool_decide (error = 0) then
            let s :=
              set_s_reconnect (reconnect_connected (s_reconnect s) now) s in
            let s := set_s_rpc (Some (jsonrpc_open st)) s in
            set_s_stream None s
          else if bool_decide (error ≠ EAGAIN) then
            let s :=
              set_s_reconnect
                (reconnect_connect_failed (s_reconnect s) now error) s in
            set_s_stream None s
          else s
      | None => s
      end
  end.

(** The second half: the action the controller asks for.  [next_id] is
    the counter of [jsonrpc_create_id], which a probe advances. *)
Definition jsonrpc_session_run_action
    (stream_open : string → Z * option stream) (now : Z) (next_id : Z)
    (s : jsonrpc_session) : jsonrpc_session * Z :=
  let '(action, r) := reconnect_run (s_reconnect s) now in
  let s := set_s_reconnect r s in
  match action with
  | Some RECONNECT_CONNECT =>
      (jsonrpc_session_connect stream_open now s, next_id)
  | Some RECONNECT_DISCONNECT =>
      let s :=
        set_s_reconnect (reconnect_disconnected (s_reconnect s) now 0) s in
      (jsonrpc_session_disconnect s, next_id)
  | Some RECONNECT_PROBE =>
      match s_rpc s with
      | Some rpc =>
          let params := json_array_create_empty in
          let '(request, _, next_id) :=
            jsonrpc_create_request "echo" params next_id in
          let request :=
            jsonrpc_create (msg_type request) (msg_method request)
              (msg_params request) (msg_result request) (msg_error request)
              (Some (json_string_create "echo")) in
          let '(_, rpc, _) := jsonrpc_send rpc request in
          (set_s_rpc (Some rpc) s, next_id)
      | None => (s, next_id)
      end
  | None => (s, next_id)
  end.

Definition jsonrpc_session_run (stream_open : string → Z * option stream)
    (now : Z) (next_id : Z) (s : jsonrpc_session) : jsonrpc_session * Z :=
  jsonrpc_session_run_action stream_open now next_id
    (jsonrpc_session_run_io now s).

Definition jsonrpc_session_get_backlog (s : jsonrpc_session) : Z :=
  match s_rpc s with
  | Some rpc => jsonrpc_get_backlog rpc
  | None => 0
  end.

Definition jsonrpc_session_get_name (s : jsonrpc_session) : string :=
  reconnect_get_name (s_reconnect s).

(** [!strcmp(msg->method, "echo")]; a request that comes out of
    [jsonrpc_recv] has a method. *)
Definition method_is (msg : jsonrpc_msg) (name : string) : bool :=
  match msg_method msg with
  | Some method => bool_decide (method = name)
  | None => false
  end.

(** [msg->id && msg->id->type == JSON_STRING
     && !strcmp(msg->id->u.string, name)]. *)
Definition id_is_string (msg : jsonrpc_msg) (name : string) : bool :=
  match msg_id msg with
  | Some (JString s) => bool_decide (s = name)
  | _ => false
  end.

(** [jsonrpc_session_recv(s)]: the message returned, the session, and the
    messages handed to [jsonrpc_msg_destroy].  The number of turns is that
    of [jsonrpc_recv]. *)
Definition jsonrpc_session_recv (turns : nat) (now : Z) (s : jsonrpc_session)
  : option (option jsonrpc_msg * jsonrpc_session * list jsonrpc_msg) :=
  match s_rpc s with
  | Some rpc =>
      match jsonrpc_recv turns rpc with
      | Some (_, msg, rpc) =>
          let s := set_s_rpc (Some rpc) s in
          match msg with
          | Some msg =>
              let s :=
                set_s_reconnect (reconnect_received (s_reconnect s) now) s in
              if bool_decide (msg_type msg = JSONRPC_REQUEST)
                 && method_is msg "echo"
              then
                match msg_params msg, msg_id msg with
                | Some params, Some id =>
                    let reply :=
                      jsonrpc_create_reply (json_clone params) id in
                    let '(_, s, destroyed) := jsonrpc_session_send s reply in
                    Some (None, s, destroyed ++ [msg])
                | _, _ => None
                end
              else if bool_decide (msg_type msg = JSONRPC_REPLY)
                      && id_is_string msg "echo"
              then Some (None, s, [msg])
              else Some (Some msg, s, [])
          | None => Some (None, s, [])
          end
      | None => None
      end
  | None => Some (None, s, [])
  end.

Definition jsonrpc_session_is_alive (s : jsonrpc_session) : bool :=
  is_present (s_rpc s) || is_present (s_stream s)
  || bool_decide (reconnect_get_max_tries (s_reconnect s) ≠ 0).

Definition jsonrpc_session_is_connected (s : jsonrpc_session) : bool :=
  is_present (s_rpc s).

Definition jsonrpc_session_get_seqno (s : jsonrpc_session) : Z := s_seqno s.

Definition jsonrpc_session_force_reconnect (now : Z) (s : jsonrpc_session)
  : jsonrpc_session :=
  set_s_reconnect (reconnect_force_reconnect (s_reconnect s) now) s.

End Session.

(** ** Instances of the interfaces, for the examples *)

(** A JSON text in which every value of a code book is written on a line
    of its own, as the byte that is its position in the book; a line that
    is empty or whose last byte is outside the book is a syntax error,
    which the parser reports as a JSON string. *)
Definition newline : Byte.byte := Byte.x0a.

Fixpoint codebook_feed (code : option Byte.byte) (bytes : list Byte.byte)
  : nat * (option Byte.byte * bool) :=
  match bytes with
  | [] => (0%nat, (code, false))
  | b :: rest =>
      if Byte.eqb b newline then (1%nat, (code, true))
      else
        let '(used, parser) := codebook_feed (Some b) rest in
        (S used, parser)
  end.

Definition codebook_text (book : list json) : JsonText := {|
  json_parser := option Byte.byte * bool;
  json_parser_create _ := (None, false);
  json_parser_feed parser bytes :=
    if parser.2 then (0%nat, parser) else codebook_feed parser.1 bytes;
  json_parser_is_done parser := parser.2;
  json_parser_finish parser :=
    match parser.1 with
    | Some b => default (JString "syntax error") (book !! Byte.to_nat b)
    | None => JString "syntax error"
    end;
  json_to_string j _ :=
    match list_find (λ j', j' = j) book with
    | Some (i, _) => option_list (Byte.of_nat i) ++ [newline]
    | None => [Byte.xff; newline]
    end
|}.

(** A controller that asks for the actions of a script, one at each call
    of [reconnect_run], and takes note of nothing. *)
Record scripted_reconnect : Type := mk_scripted_reconnect {
  sr_name : string;
  sr_max_tries : Z;
  sr_actions : list (option reconnect_action)
}.

Definition scripted (actions : list (option reconnect_action)) : Reconnect := {|
  reconnect := scripted_reconnect;
  reconnect_create _ := mk_scripted_reconnect EmptyString 1 actions;
  reconnect_set_name r name :=
    mk_scripted_reconnect name (sr_max_tries r) (sr_actions r);
  reconnect_get_name := sr_name;
  reconnect_set_max_tries r n :=
    mk_scripted_reconnect (sr_name r) n (sr_actions r);
  reconnect_get_max_tries := sr_max_tries;
  reconnect_enable r _ := r;
  reconnect_force_reconnect r _ := r;
  reconnect_connecting r _ := r;
  reconnect_connected r _ := r;
  reconnect_connect_failed r _ _ := r;
  reconnect_disconnected r _ _ := r;
  reconnect_received r _ := r;
  reconnect_run r _ :=
    match sr_actions r with
    | [] => (None, r)
    | action :: rest =>
        (action, mk_scripted_reconnect (sr_name r) (sr_max_tries r) rest)
    end
|}.

(** ** Notions used in the statements *)

(** The five names a message object may have. *)
Definition known_members : gset string :=
  {[ "method"; "params"; "result"; "error"; "id" ]}.

(** What is left of a table once the five known members are taken out. *)
Definition unexpected_members (o : gmap string json) : gmap string json :=
  delete "id" (delete "error" (delete "result" (delete "params"
    (delete "method" o)))).

Definition null_or_absent (v : option json) : Prop :=
  v = None ∨ v = Some JNull.

(** The names of the members of a table that hold something else than
    JSON null. *)
Definition non_null_members (o : gmap string json) : gset string :=
  dom (filter (λ kv, kv.2 ≠ JNull) o).

(** The bytes of a queue of buffers that are still to be sent. *)
Definition queue_bytes (q : list (list Byte.byte)) : Z :=
  foldr (λ buf n, Z.of_nat (length buf) + n) 0 q.

(** The request that a probe sends. *)
Definition probe_request : jsonrpc_msg :=
  jsonrpc_create JSONRPC_REQUEST (Some "echo") (Some (JArray [])) None None
    (Some (JString "echo")).

Section EndpointNotions.
Context `{JsonText}.

(** One call on an endpoint by its owner: a send, a receive that returns,
    a run, or a failure reported from outside. *)
Inductive endpoint_step : jsonrpc → jsonrpc → Prop :=
  | step_send rpc msg retval rpc' destroyed :
      jsonrpc_send rpc msg = (retval, rpc', destroyed) →
      endpoint_step rpc rpc'
  | step_recv rpc turns retval msg rpc' :
      jsonrpc_recv turns rpc = Some (retval, msg, rpc') →
      endpoint_step rpc rpc'
  | step_run rpc :
      endpoint_step rpc (jsonrpc_run rpc)
  | step_error rpc error :
      error ≠ 0 →
      endpoint_step rpc (jsonrpc_error rpc error).

(** The two states of an endpoint: healthy, with its stream; or dead, with
    a nonzero status and everything it held released. *)
Definition healthy (rpc : jsonrpc) : Prop :=
  rpc_status rpc = 0 ∧ is_Some (rpc_stream rpc).

Definition dead (rpc : jsonrpc) : Prop :=
  rpc_status rpc ≠ 0 ∧ rpc_stream rpc = None ∧ rpc_parser rpc = None
  ∧ rpc_received rpc = None ∧ rpc_output rpc = [] ∧ rpc_backlog rpc = 0.

Definition jsonrpc_wf (rpc : jsonrpc) : Prop := healthy rpc ∨ dead rpc.

(** The backlog counts the bytes of the queue, as a [size_t] does. *)
Definition backlog_inv (rpc : jsonrpc) : Prop :=
  rpc_backlog rpc = queue_bytes (rpc_output rpc) mod SIZE_MOD.

(** What [jsonrpc_send] does to a healthy endpoint before it may run it:
    the text of the message joins the queue and its length the backlog. *)
Definition enqueue (rpc : jsonrpc) (msg : jsonrpc_msg) : jsonrpc :=
  let text := json_to_string (jsonrpc_msg_to_json msg) 0 in
  set_rpc_backlog ((rpc_backlog rpc + Z.of_nat (length text)) mod SIZE_MOD)
    (set_rpc_output (rpc_output rpc ++ [text]) rpc).

(** The test of [jsonrpc_transact_block] on a received message. *)
Definition is_matching_reply (id : option json) (m : jsonrpc_msg) : bool :=
  bool_decide (msg_type m = JSONRPC_REPLY) && id_equal id (msg_id m).

(** The messages that successive calls of [jsonrpc_recv_block] return,
    each call starting from the endpoint the one before has left. *)
Inductive recv_trace (turns : nat)
  : jsonrpc → list jsonrpc_msg → jsonrpc → Prop :=
  | recv_trace_nil rpc :
      recv_trace turns rpc [] rpc
  | recv_trace_cons rpc m rpc' ms rpc'' :
      jsonrpc_recv_block turns rpc = Some (0, Some m, rpc') →
      recv_trace turns rpc' ms rpc'' →
      recv_trace turns rpc (m :: ms) rpc''.

End EndpointNotions.

(** ** Data of the examples *)

Definition request_7 : jsonrpc_msg :=
  jsonrpc_create JSONRPC_REQUEST (Some "sum")
    (Some (JArray [JInteger 1; JInteger 2])) None None (Some (JInteger 7)).
Definition notify_x : jsonrpc_msg := jsonrpc_create_notify "x" (JArray []).
Definition reply_6 : jsonrpc_msg := jsonrpc_create_reply (JInteger 3) (JInteger 6).
Definition reply_7 : jsonrpc_msg := jsonrpc_create_reply (JString "ok") (JInteger 7).
Definition echo_42 : jsonrpc_msg :=
  jsonrpc_create JSONRPC_REQUEST (Some "echo") (Some (JArray [])) None None
    (Some (JInteger 42)).
Definition echo_reply_42 : jsonrpc_msg :=
  jsonrpc_create_reply (JArray []) (JInteger 42).

Definition example_book : list json :=
  jsonrpc_msg_to_json <$>
    [request_7; notify_x; reply_6; reply_7; echo_42; echo_reply_42].

Definition example_text : JsonText := codebook_text example_book.

(** Scenario S5 of the specification: a request with id 7 is answered by
    a notification, a reply with id 6 and then the reply with id 7. *)
Definition s5_stream : stream :=
  mk_stream "peer" [] [100]
    [RecvData [Byte.x01; newline; Byte.x02];
     RecvData [newline; Byte.x03; newline]].

(** The endpoint that a call leaves, and a test of what the call
    returns, for the examples. *)
Definition after_send_block `{JsonText} (turns : nat) (rpc : jsonrpc)
    (msg : jsonrpc_msg) : jsonrpc :=
  match jsonrpc_send_block turns rpc msg with
  | Some (_, rpc', _) => rpc'
  | None => rpc
  end.

Definition after_recv_block `{JsonText} (turns : nat) (rpc : jsonrpc)
  : jsonrpc :=
  match jsonrpc_recv_block turns rpc with
  | Some (_, _, rpc') => rpc'
  | None => rpc
  end.

Definition send_block_returns `{JsonText} (turns : nat) (rpc : jsonrpc)
    (msg : jsonrpc_msg) (error : Z) (destroyed : list jsonrpc_msg) : bool :=
  match jsonrpc_send_block turns rpc msg with
  | Some (e, _, d) => bool_decide (e = error) && bool_decide (d = destroyed)
  | None => false
  end.

Definition recv_block_returns `{JsonText} (turns : nat) (rpc : jsonrpc)
    (error : Z) (msg : option jsonrpc_msg) : bool :=
  match jsonrpc_recv_block turns rpc with
  | Some (e, m, _) => bool_decide (e = error) && bool_decide (m = msg)
  | None => false
  end.

Definition after_recv `{JsonText} (turns : nat) (rpc : jsonrpc) : jsonrpc :=
  match jsonrpc_recv turns rpc with
  | Some (_, _, rpc') => rpc'
  | None => rpc
  end.

Definition recv_returns `{JsonText} (turns : nat) (rpc : jsonrpc)
    (retval : Z) (msg : option jsonrpc_msg) : bool :=
  match jsonrpc_recv turns rpc with
  | Some (r, m, _) => bool_decide (r = retval) && bool_decide (m = msg)
  | None => false
  end.

(** The transport refuses every attempt to open a stream. *)
Definition refusing : string → Z * option stream := λ _, (111, None).

(** The transport opens a stream that is yet to connect. *)
Definition opening : string → Z * option stream :=
  λ name, (0, Some (mk_stream name [] [] [])).

(** Scenario S3 of the specification: a text that is cut short, and whose
    rest, once it arrives, does not make a JSON value. *)
Definition s3_stream : stream :=
  mk_stream "peer" [] []
    [RecvData [Byte.x63]; RecvError 11; RecvData [newline]].

(** Scenario S6 of the specification: a connected session whose endpoint
    has seen the end of its stream, and a controller that asks for nothing
    at first and then to connect. *)
Definition s6_session
  : @jsonrpc_session example_text
      (scripted [None; Some RECONNECT_CONNECT]) :=
  mk_jsonrpc_session
    (reconnect_set_name (reconnect_create 0) "peer")
    (Some (jsonrpc_error (jsonrpc_open (mk_stream "peer" [] [] [])) EOF))
    None 0.

(** ** Further notions: the fields of a message *)

(** The table of [jsonrpc_msg_is_valid], field by field: which fields a
    message of each type has. *)
Definition message_fields : list string :=
  ["method"; "params"; "result"; "error"; "id"].

Definition field_required (type : jsonrpc_msg_type) (field : string) : bool :=
  match type with
  | JSONRPC_REQUEST => bool_decide (field ∈ ["method"; "params"; "id"])
  | JSONRPC_NOTIFY => bool_decide (field ∈ ["method"; "params"])
  | JSONRPC_REPLY => bool_decide (field ∈ ["result"; "id"])
  | JSONRPC_ERROR => bool_decide (field ∈ ["error"; "id"])
  end.

Definition field_present (m : jsonrpc_msg) (field : string) : bool :=
  if bool_decide (field = "method") then is_present (msg_method m)
  else if bool_decide (field = "params") then is_present (msg_params m)
  else if bool_decide (field = "result") then is_present (msg_result m)
  else if bool_decide (field = "error") then is_present (msg_error m)
  else if bool_decide (field = "id") then is_present (msg_id m)
  else false.

Definition params_is_array (m : jsonrpc_msg) : bool :=
  match msg_params m with
  | Some params => bool_decide (json_type_of params = JSON_ARRAY)
  | None => true
  end.

(** The first field, in the order of the table, that a message has and
    should not have, or lacks and should have. *)
Definition first_mismatch (m : jsonrpc_msg) : option string :=
  List.find
    (λ field,
       negb (eqb (field_present m field) (field_required (msg_type m) field)))
    message_fields.

(** A message as [jsonrpc_msg_from_json] reads it back: a field that holds
    JSON null is absent, and the type is the one the fields tell. *)
Definition normalize_msg (m : jsonrpc_msg) : jsonrpc_msg :=
  let result := null_from_json_null (msg_result m) in
  let error := null_from_json_null (msg_error m) in
  let id := null_from_json_null (msg_id m) in
  {| msg_type :=
       if is_present result then JSONRPC_REPLY
       else if is_present error then JSONRPC_ERROR
       else if is_present id then JSONRPC_REQUEST
       else JSONRPC_NOTIFY;
     msg_method := msg_method m;
     msg_params := null_from_json_null (msg_params m);
     msg_result := result; msg_error := error; msg_id := id |}.

(** The member that [jsonrpc_msg_to_json] writes for a field that may be
    padded with JSON null. *)
Definition padded (field : option json) (pad : bool) : option json :=
  match field with
  | Some value => Some value
  | None => if pad then Some JNull else None
  end.

(** ** Waiting ([poll-loop.h]) *)

(** The functions that wait register what they wait for with the poll
    loop and change nothing else; the model returns what they register, in
    the order of the calls. *)
Inductive poll_request : Set :=
  | STREAM_RUN_WAIT
  | STREAM_SEND_WAIT
  | STREAM_RECV_WAIT
  | STREAM_CONNECT_WAIT
  | POLL_IMMEDIATE_WAKE
  | RECONNECT_WAIT (now : Z).

Section Waiting.
Context `{JsonText} `{Reconnect}.

Definition jsonrpc_wait (rpc : jsonrpc) : list poll_request :=
  if bool_decide (rpc_status rpc = 0) then
    STREAM_RUN_WAIT
      :: (if bool_decide (rpc_output rpc ≠ []) then [STREAM_SEND_WAIT] else [])
  else [].

Definition jsonrpc_recv_wait (rpc : jsonrpc) : list poll_request :=
  if bool_decide (rpc_status rpc ≠ 0) || is_present (rpc_received rpc)
     || negb (byteq_is_empty (rpc_input rpc))
  then [POLL_IMMEDIATE_WAKE]
  else [STREAM_RECV_WAIT].

Definition jsonrpc_session_wait (now : Z) (s : jsonrpc_session)
  : list poll_request :=
  match s_rpc s with
  | Some rpc => jsonrpc_wait rpc
  | None =>
      match s_stream s with
      | Some st => [STREAM_RUN_WAIT; STREAM_CONNECT_WAIT]
      | None => []
      end
  end ++ [RECONNECT_WAIT now].

Definition jsonrpc_session_recv_wait (s : jsonrpc_session)
  : list poll_request :=
  match s_rpc s with
  | Some rpc => jsonrpc_recv_wait rpc
  | None => []
  end.

End Waiting.

(** ** Further notions: calls on an endpoint and on a session *)

Section MoreNotions.
Context `{JsonText} `{Reconnect}.





(** The ring of the endpoint holds its bytes in one piece. *)
Definition byteq_in_one_piece (q : byteq) : Prop :=
  (byteq_tail_offset q < BYTEQ_SIZE)%nat
  ∧ (byteq_tail_offset q + byteq_used q ≤ BYTEQ_SIZE)%nat.

(** What the endpoint keeps of itself through a call that does not make
    it fail. *)
Definition same_endpoint (rpc rpc' : jsonrpc) : Prop :=
  rpc_status rpc' = rpc_status rpc ∧ rpc_name rpc' = rpc_name rpc
  ∧ rpc_output rpc' = rpc_output rpc ∧ rpc_backlog rpc' = rpc_backlog rpc.

(** A buffered message, if there is one, is valid. *)
Definition received_valid (rpc : jsonrpc) : Prop :=
  ∀ msg, rpc_received rpc = Some msg → jsonrpc_msg_is_valid msg = None.

(** The three ways in which a receive on a healthy endpoint returns: with
    a message, with [EAGAIN], or with the error that it has latched. *)
Definition recv_outcome (rpc : jsonrpc) (retval : Z)
    (msg : option jsonrpc_msg) (rpc' : jsonrpc) : Prop :=
  rpc_name rpc' = rpc_name rpc
  ∧ rpc_received rpc' = None
  ∧ (byteq_in_one_piece (rpc_input rpc) → byteq_in_one_piece (rpc_input rpc'))
  ∧ ((retval = 0
      ∧ (∃ m, msg = Some m ∧ jsonrpc_msg_is_valid m = None)
      ∧ same_endpoint rpc rpc')
     ∨ (retval = EAGAIN ∧ msg = None ∧ same_endpoint rpc rpc'
        ∧ byteq_is_empty (rpc_input rpc') = true)
     ∨ (retval ≠ 0 ∧ retval ≠ EAGAIN ∧ msg = None
        ∧ rpc_status rpc' = retval ∧ dead rpc')).

(** One call on a session by its owner. *)
Inductive session_step : jsonrpc_session → jsonrpc_session → Prop :=
  | session_step_run stream_open now next_id s :
      session_step s (jsonrpc_session_run stream_open now next_id s).1
  | session_step_recv turns now s msg s' destroyed :
      jsonrpc_session_recv turns now s = Some (msg, s', destroyed) →
      session_step s s'
  | session_step_send s msg :
      session_step s (jsonrpc_session_send s msg).1.2
  | session_step_force_reconnect now s :
      session_step s (jsonrpc_session_force_reconnect now s).

(** A session holds an endpoint, or a stream, or neither, and its
    sequence number is that of an [unsigned int]. *)
Definition session_inv (s : jsonrpc_session) : Prop :=
  (s_rpc s = None ∨ s_stream s = None) ∧ 0 ≤ s_seqno s < UINT_MOD.

(** What only [jsonrpc_session_run] may change: the sequence number, the
    stream of a connection in progress, and whether there is an endpoint. *)
Definition same_connection (s s' : jsonrpc_session) : Prop :=
  s_seqno s' = s_seqno s ∧ s_stream s' = s_stream s
  ∧ jsonrpc_session_is_connected s' = jsonrpc_session_is_connected s.

End MoreNotions.

(** ** Further notions: ids, and a test of a transaction *)

(** The ids of [count] successive calls of [jsonrpc_create_id], the
    counter being at [next_id] before the first. *)
Fixpoint issued_ids (count : nat) (next_id : Z) : list json :=
  match count with
  | O => []
  | S count' =>
      let '(id, next_id') := jsonrpc_create_id next_id in
      id :: issued_ids count' next_id'
  end.

Definition after_transact_block `{JsonText} (turns : nat) (rpc : jsonrpc)
    (request : jsonrpc_msg) : jsonrpc :=
  match jsonrpc_transact_block turns rpc request with
  | Some (_, _, rpc', _) => rpc'
  | None => rpc
  end.

Definition transact_block_returns `{JsonText} (turns : nat) (rpc : jsonrpc)
    (request : jsonrpc_msg) (error : Z) (reply : option jsonrpc_msg)
    (destroyed : list jsonrpc_msg) : bool :=
  match jsonrpc_transact_block turns rpc request with
  | Some (e, r, _, d) =>
      bool_decide (e = error) && bool_decide (r = reply)
      && bool_decide (d = destroyed)
  | None => false
  end.

(** * Properties *)

(** ** Scenarios of the specification *)

Example s1_send_request :
  jsonrpc_msg_to_json
    (jsonrpc_create_request "sum" (JArray [JInteger 1; JInteger 2]) 0).1.1
  = JObject (<["method" := JString "sum"]>
               (<["params" := JArray [JInteger 1; JInteger 2]]>
                  (<["id" := JInteger 0]> ∅))).
Proof. vm_compute. reflexivity. Qed.

Example s2_parse_reply :
  jsonrpc_msg_from_json
    (JObject (<["result" := JInteger 5]> (<["error" := JNull]>
                (<["id" := JInteger 0]> ∅))))
  = inr (jsonrpc_create JSONRPC_REPLY None None (Some (JInteger 5)) None
           (Some (JInteger 0))).
Proof. vm_compute. reflexivity. Qed.

Example s3_malformed :
  let rpc0 := jsonrpc_open (H := example_text) s3_stream in
  let rpc1 := after_recv 3 rpc0 in
  let rpc2 := after_recv 3 rpc1 in
  recv_returns 3 rpc0 EAGAIN None = true
  ∧ rpc_status rpc1 = 0
  ∧ recv_returns 3 rpc1 EPROTO None = true
  ∧ rpc_status rpc2 = EPROTO
  ∧ recv_returns 3 rpc2 EPROTO None = true.
Proof. vm_compute. repeat split. Qed.

Example s6_reconnect :
  let s1 := (jsonrpc_session_run opening 0 0 s6_session).1 in
  let s2 := (jsonrpc_session_run opening 0 0 s1).1 in
  (s_seqno s6_session, jsonrpc_session_is_connected s6_session) = (0, true)
  ∧ (s_seqno s1, is_present (s_rpc s1), is_present (s_stream s1))
    = (1, false, false)
  ∧ (s_seqno s2, is_present (s_rpc s2), is_present (s_stream s2))
    = (2, false, true).
Proof. vm_compute. repeat split. Qed.

(** ** Messages: construction, validation, conversion *)

Lemma null_from_json_null_absent v :
  null_or_absent v → null_from_json_null v = None.
Proof. by intros [-> | ->]. Qed.

Lemma null_from_json_null_present v j :
  v = Some j → j ≠ JNull → null_from_json_null v = Some j.
Proof. intros -> ?. by destruct j. Qed.

(** The conversion reads each known member of the table it is given: the
    successive removals do not disturb the later lookups. *)
Lemma jsonrpc_msg_from_json_object (o : gmap string json) :
  jsonrpc_msg_from_json (JObject o) =
    if (match o !! "method" with
        | Some m => negb (bool_decide (json_type_of m = JSON_STRING))
        | None => false
        end)
    then inl "method is not a JSON string"
    else
      let m_result := null_from_json_null (o !! "result") in
      let m_error := null_from_json_null (o !! "error") in
      let m_id := null_from_json_null (o !! "id") in
      let msg :=
        {| msg_type :=
             if is_present m_result then JSONRPC_REPLY
             else if is_present m_error then JSONRPC_ERROR
             else if is_present m_id then JSONRPC_REQUEST
             else JSONRPC_NOTIFY;
           msg_method :=
             match o !! "method" with Some (JString s) => Some s | _ => None end;
           msg_params := null_from_json_null (o !! "params");
           msg_result := m_result; msg_error := m_error; msg_id := m_id |} in
      if negb (shash_is_empty (unexpected_members o))
      then inl ("message has unexpected member "
                  +:+ quoted (shash_first_name (unexpected_members o)))
      else
        match jsonrpc_msg_is_valid msg with
        | Some error => inl error
        | None => inr msg
        end.
Proof.
  unfold jsonrpc_msg_from_json, shash_find_and_delete, unexpected_members.
  cbn zeta.
  rewrite !lookup_delete_ne by done.
  reflexivity.
Qed.

Lemma unexpected_members_lookup (o : gmap string json) (k : string) :
  unexpected_members o !! k = if decide (k ∈ known_members) then None else o !! k.
Proof.
  unfold unexpected_members, known_members.
  case_decide as Hk.
  - rewrite !lookup_delete. repeat case_decide; try done.
    set_unfold. intuition congruence.
  - rewrite !lookup_delete_ne; [done | intros <-; apply Hk; set_solver ..].
Qed.

Lemma unexpected_members_empty (o : gmap string json) :
  dom o ⊆ known_members → unexpected_members o = ∅.
Proof.
  intros Hdom. apply map_eq; intros k.
  rewrite unexpected_members_lookup, lookup_empty.
  case_decide as Hk; [done |].
  apply not_elem_of_dom. set_solver.
Qed.

Lemma unexpected_members_insert_known (o : gmap string json) k v :
  k ∈ known_members →
  unexpected_members (<[k := v]> o) = unexpected_members (delete k o).
Proof.
  intros Hk. apply map_eq; intros k'.
  rewrite !unexpected_members_lookup.
  case_decide; [done |].
  rewrite lookup_insert_ne, lookup_delete_ne; [done | congruence ..].
Qed.

(** The first name of a table that is not empty is one of its names. *)
Lemma shash_first_name_lookup (o : gmap string json) :
  o ≠ ∅ → is_Some (o !! shash_first_name o).
Proof.
  intros Hne. unfold shash_first_name.
  destruct (map_to_list o) as [| [name v] l] eqn:E.
  - by apply map_to_list_empty_iff in E.
  - exists v. apply elem_of_map_to_list. rewrite E. left.
Qed.

Lemma shash_is_empty_true (o : gmap string json) :
  shash_is_empty o = true ↔ o = ∅.
Proof. unfold shash_is_empty. by rewrite bool_decide_eq_true. Qed.

Lemma shash_is_empty_false (o : gmap string json) :
  shash_is_empty o = false ↔ o ≠ ∅.
Proof. unfold shash_is_empty. by rewrite bool_decide_eq_false. Qed.

(** C1 (the code departs from the specification): [jsonrpc_create_error]
    builds its message with the type of a reply, not of an error.  The
    error and the id are stored as specified and the other fields are absent,
    but the message is typed [JSONRPC_REPLY] and so fails
    [jsonrpc_msg_is_valid], which wants a result in a reply. *)
Theorem jsonrpc_create_error_is_typed_reply (err id : json) :
  let m := jsonrpc_create_error err id in
  msg_type m = JSONRPC_REPLY
  ∧ msg_error m = Some err ∧ msg_id m = Some id
  ∧ msg_method m = None ∧ msg_params m = None ∧ msg_result m = None
  ∧ jsonrpc_msg_is_valid m = Some ("reply must have " +:+ quoted "result").
Proof. repeat split. Qed.

(** C3, counterexample: a reply whose result is the JSON null value is a
    valid message, yet its JSON form does not convert back: the null
    result is read as an absent one and the object is taken for a request
    without a method. *)
Lemma roundtrip_fails_on_null_result :
  let m := jsonrpc_create_reply JNull (JInteger 0) in
  jsonrpc_msg_is_valid m = None
  ∧ jsonrpc_msg_from_json (jsonrpc_msg_to_json m)
    = inl ("request must have " +:+ quoted "method")
  ∧ jsonrpc_msg_from_json (jsonrpc_msg_to_json m) ≠ inr m.
Proof. vm_compute. repeat split. discriminate. Qed.

(** C3, amended: a valid message none of whose result, error and id is
    the JSON null value converts to JSON and back to itself, field for
    field. *)
Theorem from_json_to_json_roundtrip (m : jsonrpc_msg) :
  jsonrpc_msg_is_valid m = None →
  msg_result m ≠ Some JNull →
  msg_error m ≠ Some JNull →
  msg_id m ≠ Some JNull →
  jsonrpc_msg_from_json (jsonrpc_msg_to_json m) = inr m.
Proof.
  destruct m as [type method params result error id].
  intros Hvalid Hresult Herror Hid. simpl in Hresult, Herror, Hid.
  destruct type, method as [method |], params as [[] |],
    result as [result |], error as [error |], id as [id |];
    try discriminate Hvalid; clear Hvalid.
  - destruct id; try congruence; vm_compute; reflexivity.
  - vm_compute; reflexivity.
  - destruct result, id; try congruence; vm_compute; reflexivity.
  - destruct error, id; try congruence; vm_compute; reflexivity.
Qed.

Lemma from_json_to_json_roundtrip_witness :
  jsonrpc_msg_from_json
    (jsonrpc_msg_to_json (jsonrpc_create_reply (JInteger 5) (JInteger 0)))
  = inr (jsonrpc_create_reply (JInteger 5) (JInteger 0)).
Proof.
  apply (from_json_to_json_roundtrip
           (jsonrpc_create_reply (JInteger 5) (JInteger 0)));
    [reflexivity | discriminate ..].
Defined.

(** C4, counterexample: a method member holding JSON null is not read as
    an absent method.  The object is rejected, while the same object
    without the member is a reply. *)
Lemma null_method_is_not_absent :
  let o : gmap string json :=
    <["result" := JInteger 1]> (<["id" := JInteger 0]> ∅) in
  jsonrpc_msg_from_json (JObject (<["method" := JNull]> o))
    = inl "method is not a JSON string"
  ∧ jsonrpc_msg_from_json (JObject (delete "method" o))
    = inr (jsonrpc_create_reply (JInteger 1) (JInteger 0))
  ∧ jsonrpc_msg_from_json (JObject (<["method" := JNull]> o))
    ≠ jsonrpc_msg_from_json (JObject (delete "method" o)).
Proof. vm_compute. repeat split. discriminate. Qed.

Lemma from_json_null_member (o : gmap string json) (k : string) :
  k ∈ known_members → k ≠ "method" →
  jsonrpc_msg_from_json (JObject (<[k := JNull]> o))
  = jsonrpc_msg_from_json (JObject (delete k o)).
Proof.
  intros Hk Hmethod.
  rewrite !jsonrpc_msg_from_json_object.
  rewrite (unexpected_members_insert_known _ _ _ Hk).
  assert (∀ k', null_from_json_null (<[k := JNull]> o !! k')
                = null_from_json_null (delete k o !! k')) as Hnull.
  { intros k'. destruct (decide (k = k')) as [<- | Hne].
    - by rewrite lookup_insert_eq, lookup_delete_eq.
    - by rewrite lookup_insert_ne, lookup_delete_ne. }
  rewrite !Hnull.
  assert (<[k := JNull]> o !! "method" = delete k o !! "method") as ->
    by (by rewrite lookup_insert_ne, lookup_delete_ne).
  reflexivity.
Qed.

(** C4, amended: in the object given to [jsonrpc_msg_from_json], a member
    params, result, error or id that holds JSON null is read as if it were
    absent: the outcome, message or error, is that of the object without
    the member.  A method member holding JSON null is rejected as a method
    that is not a string. *)
Theorem from_json_null_is_absent (o : gmap string json) :
  jsonrpc_msg_from_json (JObject (<["params" := JNull]> o))
    = jsonrpc_msg_from_json (JObject (delete "params" o))
  ∧ jsonrpc_msg_from_json (JObject (<["result" := JNull]> o))
    = jsonrpc_msg_from_json (JObject (delete "result" o))
  ∧ jsonrpc_msg_from_json (JObject (<["error" := JNull]> o))
    = jsonrpc_msg_from_json (JObject (delete "error" o))
  ∧ jsonrpc_msg_from_json (JObject (<["id" := JNull]> o))
    = jsonrpc_msg_from_json (JObject (delete "id" o))
  ∧ jsonrpc_msg_from_json (JObject (<["method" := JNull]> o))
    = inl "method is not a JSON string".
Proof.
  repeat split;
    try (apply from_json_null_member; [set_unfold; intuition congruence | done]).
  rewrite jsonrpc_msg_from_json_object. by rewrite lookup_insert_eq.
Qed.

Lemma elem_of_non_null_members (o : gmap string json) (k : string) :
  k ∈ non_null_members o ↔ ∃ v, o !! k = Some v ∧ v ≠ JNull.
Proof.
  unfold non_null_members. rewrite elem_of_dom. unfold is_Some.
  setoid_rewrite map_lookup_filter_Some. simpl. reflexivity.
Qed.

Lemma non_null_member_present (o : gmap string json) (s : gset string) k :
  non_null_members o = s → k ∈ s →
  ∃ v, o !! k = Some v ∧ v ≠ JNull ∧ null_from_json_null (o !! k) = Some v.
Proof.
  intros <- (v & Hv & Hne)%elem_of_non_null_members.
  exists v. split_and!; [done .. |]. by apply null_from_json_null_present.
Qed.

Lemma non_null_member_absent (o : gmap string json) (s : gset string) k :
  non_null_members o = s → k ∉ s → null_from_json_null (o !! k) = None.
Proof.
  intros <- Hk. rewrite elem_of_non_null_members in Hk.
  destruct (o !! k) as [v |] eqn:E; [| done].
  destruct (decide (v = JNull)) as [-> | Hne]; [done |].
  destruct Hk. by exists v.
Qed.

(** C5, counterexample.  The first object has result and id as its only
    members that are not null, and is rejected rather than read as a
    reply.  The second has a member foo outside the five names and is
    rejected with an error that is about its method, not about foo. *)
Lemma variant_inference_fails :
  let o1 : gmap string json :=
    <["method" := JNull]> (<["result" := JInteger 1]>
      (<["id" := JInteger 0]> ∅)) in
  let o2 : gmap string json :=
    <["method" := JInteger 5]> (<["foo" := JInteger 1]> ∅) in
  (non_null_members o1 = {[ "result"; "id" ]}
   ∧ jsonrpc_msg_from_json (JObject o1) = inl "method is not a JSON string")
  ∧ (o2 !! "foo" = Some (JInteger 1)
     ∧ ("foo" ∉ known_members)
     ∧ jsonrpc_msg_from_json (JObject o2) = inl "method is not a JSON string"
     ∧ jsonrpc_msg_from_json (JObject o2)
       ≠ inl ("message has unexpected member " +:+ quoted "foo")).
Proof.
  cbv zeta. split_and!.
  - apply (bool_decide_unpack _). vm_compute. exact I.
  - vm_compute. reflexivity.
  - vm_compute. reflexivity.
  - apply (bool_decide_unpack _). vm_compute. exact I.
  - vm_compute. reflexivity.
  - vm_compute. discriminate.
Qed.

(** Membership in a set of names written out. *)
Ltac solve_names := set_unfold; intuition congruence.

Ltac from_json_fields o Hnn :=
  rewrite (jsonrpc_msg_from_json_object o);
  repeat match goal with
  | |- context [null_from_json_null (o !! ?k)] =>
      first
        [ rewrite (non_null_member_absent o _ k Hnn) by solve_names
        | let v := fresh "v" in
          let Hv := fresh "Hv" in
          let Hnull := fresh "Hnull" in
          destruct (non_null_member_present o _ k Hnn) as (v & Hv & _ & Hnull);
          [solve_names |]; rewrite Hnull ]
  end.

(** C5, amended.  For an object all of whose members are among method,
    params, result, error and id: when its members that are not null are
    exactly method, params and id, with a string method and an array
    params, the message is a request; exactly method and params, with the
    same types, a notification; exactly result and id, with no method
    member at all, a reply; exactly error and id, with no method member, an
    error.  An object with a member outside the five names is always
    rejected: for a method that is not a string, with the error about the
    method; otherwise with the error of an unexpected member, which names
    a member of the object outside the five names. *)
Theorem from_json_variant_inference (o : gmap string json) :
  (∀ m ps i,
      dom o ⊆ known_members →
      non_null_members o = {[ "method"; "params"; "id" ]} →
      o !! "method" = Some (JString m) → o !! "params" = Some (JArray ps) →
      o !! "id" = Some i →
      jsonrpc_msg_from_json (JObject o)
      = inr (mk_jsonrpc_msg JSONRPC_REQUEST (Some m) (Some (JArray ps))
               None None (Some i)))
  ∧ (∀ m ps,
      dom o ⊆ known_members →
      non_null_members o = {[ "method"; "params" ]} →
      o !! "method" = Some (JString m) → o !! "params" = Some (JArray ps) →
      jsonrpc_msg_from_json (JObject o)
      = inr (mk_jsonrpc_msg JSONRPC_NOTIFY (Some m) (Some (JArray ps))
               None None None))
  ∧ (∀ r i,
      dom o ⊆ known_members →
      non_null_members o = {[ "result"; "id" ]} →
      o !! "method" = None →
      o !! "result" = Some r → o !! "id" = Some i →
      jsonrpc_msg_from_json (JObject o)
      = inr (mk_jsonrpc_msg JSONRPC_REPLY None None (Some r) None (Some i)))
  ∧ (∀ e i,
      dom o ⊆ known_members →
      non_null_members o = {[ "error"; "id" ]} →
      o !! "method" = None →
      o !! "error" = Some e → o !! "id" = Some i →
      jsonrpc_msg_from_json (JObject o)
      = inr (mk_jsonrpc_msg JSONRPC_ERROR None None None (Some e) (Some i)))
  ∧ (∀ k,
      k ∈ dom o → (k ∉ known_members) →
      match o !! "method" with
      | Some (JString _) | None =>
          ∃ k', k' ∈ dom o ∧ (k' ∉ known_members)
                ∧ jsonrpc_msg_from_json (JObject o)
                  = inl ("message has unexpected member " +:+ quoted k')
      | Some _ =>
          jsonrpc_msg_from_json (JObject o) = inl "method is not a JSON string"
      end).
Proof.
  split_and!.
  - intros m ps i Hdom Hnn Hmethod Hparams Hid.
    from_json_fields o Hnn.
    rewrite (unexpected_members_empty o Hdom), Hmethod.
    rewrite Hparams in *. rewrite Hid in *. simplify_eq. reflexivity.
  - intros m ps Hdom Hnn Hmethod Hparams.
    from_json_fields o Hnn.
    rewrite (unexpected_members_empty o Hdom), Hmethod.
    rewrite Hparams in *. simplify_eq. reflexivity.
  - intros r i Hdom Hnn Hmethod Hresult Hid.
    from_json_fields o Hnn.
    rewrite (unexpected_members_empty o Hdom), Hmethod.
    rewrite Hresult in *. rewrite Hid in *. simplify_eq. reflexivity.
  - intros e i Hdom Hnn Hmethod Herror Hid.
    from_json_fields o Hnn.
    rewrite (unexpected_members_empty o Hdom), Hmethod.
    rewrite Herror in *. rewrite Hid in *. simplify_eq. reflexivity.
  - intros k Hk Hunknown.
    assert (unexpected_members o ≠ ∅) as Hne.
    { intros Hempty. apply elem_of_dom in Hk as [v Hv].
      assert (unexpected_members o !! k = Some v) as Hl
        by (by rewrite unexpected_members_lookup, decide_False).
      by rewrite Hempty, lookup_empty in Hl. }
    assert (∃ k', k' ∈ dom o ∧ (k' ∉ known_members)
                  ∧ shash_first_name (unexpected_members o) = k')
      as (k' & Hk' & Hunknown' & Hfirst).
    { exists (shash_first_name (unexpected_members o)).
      destruct (shash_first_name_lookup _ Hne) as [v Hv].
      rewrite unexpected_members_lookup in Hv.
      case_decide; [done |]. split_and!; [by apply elem_of_dom | done ..]. }
    rewrite jsonrpc_msg_from_json_object.
    apply shash_is_empty_false in Hne. rewrite Hne, Hfirst. simpl.
    destruct (o !! "method") as [[] |]; simpl; eauto.
Qed.

Lemma from_json_variant_inference_witness :
  let o_request : gmap string json :=
    <["method" := JString "sum"]>
      (<["params" := JArray [JInteger 1; JInteger 2]]>
         (<["id" := JInteger 0]> (<["result" := JNull]> ∅))) in
  let o_notify : gmap string json :=
    <["method" := JString "x"]> (<["params" := JArray []]> ∅) in
  let o_reply : gmap string json :=
    <["result" := JInteger 5]> (<["error" := JNull]>
      (<["id" := JInteger 0]> ∅)) in
  let o_error : gmap string json :=
    <["error" := JString "e"]> (<["id" := JInteger 0]> ∅) in
  let o_other : gmap string json :=
    <["jsonrpc" := JString "2.0"]> o_notify in
  jsonrpc_msg_from_json (JObject o_request)
  = inr (mk_jsonrpc_msg JSONRPC_REQUEST (Some "sum")
           (Some (JArray [JInteger 1; JInteger 2])) None None
           (Some (JInteger 0)))
  ∧ jsonrpc_msg_from_json (JObject o_notify)
    = inr (mk_jsonrpc_msg JSONRPC_NOTIFY (Some "x") (Some (JArray []))
             None None None)
  ∧ jsonrpc_msg_from_json (JObject o_reply)
    = inr (mk_jsonrpc_msg JSONRPC_REPLY None None (Some (JInteger 5)) None
             (Some (JInteger 0)))
  ∧ jsonrpc_msg_from_json (JObject o_error)
    = inr (mk_jsonrpc_msg JSONRPC_ERROR None None None (Some (JString "e"))
             (Some (JInteger 0)))
  ∧ ∃ k', k' ∈ dom o_other ∧ (k' ∉ known_members)
          ∧ jsonrpc_msg_from_json (JObject o_other)
            = inl ("message has unexpected member " +:+ quoted k').
Proof.
  intros o_request o_notify o_reply o_error o_other.
  split_and!.
  - apply (proj1 (from_json_variant_inference o_request));
      try reflexivity; apply (bool_decide_unpack _); vm_compute; exact I.
  - apply (proj1 (proj2 (from_json_variant_inference o_notify)));
      try reflexivity; apply (bool_decide_unpack _); vm_compute; exact I.
  - apply (proj1 (proj2 (proj2 (from_json_variant_inference o_reply))));
      try reflexivity; apply (bool_decide_unpack _); vm_compute; exact I.
  - apply (proj1 (proj2 (proj2 (proj2
             (from_json_variant_inference o_error)))));
      try reflexivity; apply (bool_decide_unpack _); vm_compute; exact I.
  - apply (proj2 (proj2 (proj2 (proj2
             (from_json_variant_inference o_other)))) "jsonrpc");
      apply (bool_decide_unpack _); vm_compute; exact I.
Defined.

(** ** The endpoint: status latch and backlog *)

Section EndpointProperties.
Context `{JsonText}.

Lemma queue_bytes_app q1 q2 :
  queue_bytes (q1 ++ q2) = queue_bytes q1 + queue_bytes q2.
Proof. induction q1 as [| buf q1 IH]; simpl; lia. Qed.

Lemma jsonrpc_error_dead (rpc : jsonrpc) error :
  rpc_status rpc ≠ 0 → jsonrpc_error rpc error = rpc.
Proof. intros Hdead. unfold jsonrpc_error. by rewrite bool_decide_eq_false_2. Qed.

Lemma jsonrpc_error_healthy (rpc : jsonrpc) error :
  rpc_status rpc = 0 →
  jsonrpc_error rpc error
  = mk_jsonrpc None (rpc_name rpc) error (rpc_input rpc) None None [] 0.
Proof. intros Hok. unfold jsonrpc_error. by rewrite bool_decide_eq_true_2. Qed.

Lemma jsonrpc_error_status (rpc : jsonrpc) error :
  error ≠ 0 → rpc_status (jsonrpc_error rpc error) ≠ 0.
Proof.
  intros Herror. destruct (decide (rpc_status rpc = 0)) as [Hok | Hdead].
  - by rewrite jsonrpc_error_healthy.
  - by rewrite jsonrpc_error_dead.
Qed.

Lemma jsonrpc_run_dead (rpc : jsonrpc) :
  rpc_status rpc ≠ 0 → jsonrpc_run rpc = rpc.
Proof. intros Hdead. unfold jsonrpc_run. by rewrite bool_decide_eq_true_2. Qed.

Lemma jsonrpc_send_dead (rpc : jsonrpc) msg :
  rpc_status rpc ≠ 0 → jsonrpc_send rpc msg = (rpc_status rpc, rpc, [msg]).
Proof. intros Hdead. unfold jsonrpc_send. by rewrite bool_decide_eq_true_2. Qed.

Lemma jsonrpc_recv_dead (rpc : jsonrpc) turns :
  rpc_status rpc ≠ 0 → jsonrpc_recv turns rpc = Some (rpc_status rpc, None, rpc).
Proof. intros Hdead. unfold jsonrpc_recv. by rewrite bool_decide_eq_true_2. Qed.

Lemma jsonrpc_get_backlog_dead (rpc : jsonrpc) :
  rpc_status rpc ≠ 0 → jsonrpc_get_backlog rpc = 0.
Proof.
  intros Hdead. unfold jsonrpc_get_backlog. by rewrite bool_decide_eq_true_2.
Qed.

Lemma endpoint_step_dead (rpc rpc' : jsonrpc) :
  rpc_status rpc ≠ 0 → endpoint_step rpc rpc' → rpc' = rpc.
Proof.
  intros Hdead Hstep.
  destruct Hstep as [rpc msg retval rpc' destroyed Hsend
                    | rpc turns retval msg rpc' Hrecv | rpc | rpc error _].
  - rewrite jsonrpc_send_dead in Hsend by done. congruence.
  - rewrite jsonrpc_recv_dead in Hrecv by done. congruence.
  - by apply jsonrpc_run_dead.
  - by apply jsonrpc_error_dead.
Qed.

Lemma endpoint_steps_dead (rpc rpc' : jsonrpc) :
  rpc_status rpc ≠ 0 → rtc endpoint_step rpc rpc' → rpc' = rpc.
Proof.
  intros Hdead Hsteps. induction Hsteps as [rpc | rpc rpc1 rpc2 Hstep _ IH].
  - reflexivity.
  - apply (endpoint_step_dead _ _ Hdead) in Hstep. subst rpc1. by apply IH.
Qed.

(** C6: a status that is latched stays.  Reporting an error with a
    nonzero code, as [jsonrpc_run] and [jsonrpc_recv] do for the errors of
    the transport and of the protocol, leaves the endpoint with a nonzero
    status: the code itself when the endpoint was healthy, and the status
    it had, with the rest of the endpoint, when it was not.  Once the
    status is nonzero, the endpoint stays as it is through any further
    calls: each later error leaves it alone, a send returns the status,
    destroys its message and queues nothing, a receive returns the status
    without a message, and the backlog reads [0]. *)
Theorem terminal_death :
  (∀ (rpc0 : jsonrpc) (code : Z),
     code ≠ 0 →
     rpc_status (jsonrpc_error rpc0 code) ≠ 0
     ∧ (rpc_status rpc0 = 0 → rpc_status (jsonrpc_error rpc0 code) = code)
     ∧ (rpc_status rpc0 ≠ 0 → jsonrpc_error rpc0 code = rpc0))
  ∧ (∀ rpc rpc' : jsonrpc,
       rpc_status rpc ≠ 0 →
       rtc endpoint_step rpc rpc' →
       rpc' = rpc
       ∧ (∀ error, jsonrpc_error rpc' error = rpc)
       ∧ (∀ msg, jsonrpc_send rpc' msg = (rpc_status rpc, rpc, [msg]))
       ∧ (∀ turns, jsonrpc_recv turns rpc' = Some (rpc_status rpc, None, rpc))
       ∧ jsonrpc_run rpc' = rpc
       ∧ jsonrpc_get_backlog rpc' = 0).
Proof.
  split.
  - intros rpc0 code Hcode. split_and!.
    + by apply jsonrpc_error_status.
    + intros Hok. by rewrite jsonrpc_error_healthy.
    + intros Hdead. by apply jsonrpc_error_dead.
  - intros rpc rpc' Hdead ->%(endpoint_steps_dead _ _ Hdead). split_and!.
    + done.
    + intros error. by apply jsonrpc_error_dead.
    + intros msg. by apply jsonrpc_send_dead.
    + intros turns. by apply jsonrpc_recv_dead.
    + by apply jsonrpc_run_dead.
    + by apply jsonrpc_get_backlog_dead.
Qed.

Lemma stream_send_bounds (st st' : stream) (buf : list Byte.byte) retval :
  stream_send st buf = (retval, st') → retval ≤ Z.of_nat (length buf).
Proof.
  unfold stream_send. destruct (stream_sends st) as [| r rest]; intros [= <- <-].
  - unfold EAGAIN. lia.
  - destruct (Z.leb_spec 0 r); lia.
Qed.

Lemma stream_send_answers (st st' : stream) (buf : list Byte.byte) retval :
  stream_send st buf = (retval, st') → 0 ≤ retval →
  S (length (stream_sends st')) = length (stream_sends st).
Proof.
  unfold stream_send. destruct (stream_sends st) as [| r rest]; intros [= <- <-].
  - unfold EAGAIN. lia.
  - reflexivity.
Qed.

Lemma backlog_inv_error (rpc : jsonrpc) error :
  backlog_inv rpc → backlog_inv (jsonrpc_error rpc error).
Proof.
  intros Hinv. destruct (decide (rpc_status rpc = 0)) as [Hok | Hdead].
  - by rewrite jsonrpc_error_healthy.
  - by rewrite jsonrpc_error_dead.
Qed.

(** One turn of the loop of [jsonrpc_run] in which the stream accepts
    [retval] bytes: the backlog and the head of the queue both lose
    them. *)
Lemma jsonrpc_run_loop_accept (turns : nat) (rpc : jsonrpc) buf rest st
    retval st' :
  rpc_output rpc = buf :: rest → rpc_stream rpc = Some st →
  stream_send st buf = (retval, st') → 0 ≤ retval →
  ∃ rpc1,
    jsonrpc_run_loop (S turns) rpc = jsonrpc_run_loop turns rpc1
    ∧ rpc_stream rpc1 = Some st'
    ∧ rpc_status rpc1 = rpc_status rpc
    ∧ rpc_backlog rpc1 = (rpc_backlog rpc - retval) mod SIZE_MOD
    ∧ queue_bytes (rpc_output rpc1) = queue_bytes (rpc_output rpc) - retval.
Proof.
  intros Hout Hst Hsend Hretval.
  pose proof (stream_send_bounds _ _ _ _ Hsend) as Hle.
  simpl. rewrite Hout, Hst, Hsend.
  destruct (Z.leb_spec 0 retval) as [_ | ?]; [| lia].
  assert (Z.of_nat (length (drop (Z.to_nat retval) buf))
          = Z.of_nat (length buf) - retval) as Hdrop
    by (rewrite length_drop; lia).
  destruct (drop (Z.to_nat retval) buf) as [| b buf'] eqn:E.
  - eexists. split; [reflexivity |]. simpl in *. split_and!; try done. lia.
  - eexists. split; [reflexivity |]. simpl in *. split_and!; try done. lia.
Qed.

Lemma backlog_inv_run_loop (turns : nat) (rpc : jsonrpc) :
  backlog_inv rpc → backlog_inv (jsonrpc_run_loop turns rpc).
Proof.
  revert rpc. induction turns as [| turns IH]; intros rpc Hinv; [done |].
  destruct (rpc_output rpc) as [| buf rest] eqn:Hout;
    [by simpl; rewrite Hout |].
  destruct (rpc_stream rpc) as [st |] eqn:Hst;
    [| by simpl; rewrite Hout, Hst].
  destruct (stream_send st buf) as [retval st'] eqn:Hsend.
  destruct (Z.leb_spec 0 retval) as [Hretval | Hneg].
  - destruct (jsonrpc_run_loop_accept turns rpc _ _ _ _ _ Hout Hst Hsend Hretval)
      as (rpc1 & -> & _ & _ & Hbacklog & Hbytes).
    apply IH. unfold backlog_inv in *.
    rewrite Hbacklog, Hbytes, Hinv. apply Zminus_mod_idemp_l.
  - simpl. rewrite Hout, Hst, Hsend.
    destruct (Z.leb_spec 0 retval) as [? | _]; [lia |].
    case_bool_decide; [| done]. by apply backlog_inv_error.
Qed.

Lemma backlog_inv_run (rpc : jsonrpc) :
  backlog_inv rpc → backlog_inv (jsonrpc_run rpc).
Proof.
  intros Hinv. unfold jsonrpc_run. case_bool_decide; [done |].
  destruct (rpc_stream rpc); [| done]. by apply backlog_inv_run_loop.
Qed.

Lemma jsonrpc_send_healthy (rpc : jsonrpc) msg :
  rpc_status rpc = 0 →
  jsonrpc_send rpc msg =
    let rpc' :=
      if bool_decide (rpc_output rpc = [])
      then jsonrpc_run (enqueue rpc msg)
      else enqueue rpc msg in
    (rpc_status rpc', rpc', []).
Proof.
  intros Hok. unfold jsonrpc_send. rewrite bool_decide_eq_false_2 by lia.
  cbn zeta. fold (enqueue rpc msg).
  assert (bool_decide (length (rpc_output (enqueue rpc msg)) = 1%nat)
          = bool_decide (rpc_output rpc = [])) as Hone.
  { apply bool_decide_ext. simpl. rewrite length_app. simpl.
    destruct (rpc_output rpc); simpl; split; (done || lia). }
  unfold enqueue in *. cbn zeta in *. simpl in Hone |- *.
  rewrite Hone. reflexivity.
Qed.

Lemma backlog_inv_enqueue (rpc : jsonrpc) msg :
  backlog_inv rpc → backlog_inv (enqueue rpc msg).
Proof.
  unfold backlog_inv, enqueue. simpl. intros ->.
  rewrite queue_bytes_app. simpl.
  rewrite Zplus_mod_idemp_l. f_equal. lia.
Qed.

Lemma backlog_inv_send (rpc : jsonrpc) msg :
  backlog_inv rpc → backlog_inv (jsonrpc_send rpc msg).1.2.
Proof.
  intros Hinv. destruct (decide (rpc_status rpc = 0)) as [Hok | Hdead].
  - rewrite jsonrpc_send_healthy by done. cbn zeta. simpl.
    case_bool_decide.
    + by apply backlog_inv_run, backlog_inv_enqueue.
    + by apply backlog_inv_enqueue.
  - by rewrite jsonrpc_send_dead.
Qed.

Lemma backlog_inv_same (rpc rpc' : jsonrpc) :
  rpc_output rpc' = rpc_output rpc → rpc_backlog rpc' = rpc_backlog rpc →
  backlog_inv rpc → backlog_inv rpc'.
Proof. unfold backlog_inv. by intros -> ->. Qed.

Lemma backlog_inv_received (rpc : jsonrpc) :
  backlog_inv rpc → backlog_inv (jsonrpc_received rpc).
Proof.
  intros Hinv. unfold jsonrpc_received.
  destruct (rpc_parser rpc) as [parser |]; [| done].
  case_bool_decide.
  - by apply backlog_inv_error.
  - destruct (jsonrpc_msg_from_json _); [by apply backlog_inv_error | done].
Qed.

Lemma backlog_inv_recv_loop (turns : nat) (rpc rpc' : jsonrpc) retval msg :
  jsonrpc_recv_loop turns rpc = Some (retval, msg, rpc') →
  backlog_inv rpc → backlog_inv rpc'.
Proof.
  revert rpc. induction turns as [| turns IH]; intros rpc Hrecv Hinv.
  - simpl in Hrecv. destruct (rpc_received rpc); by simplify_eq.
  - simpl in Hrecv.
    destruct (rpc_received rpc); [by simplify_eq |].
    destruct (rpc_stream rpc) as [st |]; [| done].
    destruct (byteq_is_empty (rpc_input rpc)).
    + destruct (stream_recv st _) as [[r stored] st'].
      destruct (r <? 0).
      * case_bool_decide; simplify_eq; [done |]. by apply backlog_inv_error.
      * destruct (r =? 0); [simplify_eq; by apply backlog_inv_error |].
        by apply IH in Hrecv.
    + destruct (json_parser_feed _ _) as [used parser].
      destruct (json_parser_is_done parser).
      * match type of Hrecv with
        | context [jsonrpc_received ?r] =>
            assert (backlog_inv (jsonrpc_received r)) as Hinv'
              by (by apply backlog_inv_received)
        end.
        case_bool_decide; [by simplify_eq |]. by apply IH in Hrecv.
      * by apply IH in Hrecv.
Qed.

Lemma backlog_inv_recv (turns : nat) (rpc rpc' : jsonrpc) retval msg :
  jsonrpc_recv turns rpc = Some (retval, msg, rpc') →
  backlog_inv rpc → backlog_inv rpc'.
Proof.
  unfold jsonrpc_recv. case_bool_decide; [by intros [= _ _ <-] |].
  apply backlog_inv_recv_loop.
Qed.

Lemma backlog_inv_step (rpc rpc' : jsonrpc) :
  endpoint_step rpc rpc' → backlog_inv rpc → backlog_inv rpc'.
Proof.
  intros [rpc0 msg retval rpc0' destroyed Hsend
         | rpc0 turns retval msg rpc0' Hrecv | rpc0 | rpc0 error _] Hinv.
  - pose proof (backlog_inv_send rpc0 msg Hinv) as Hinv'.
    by rewrite Hsend in Hinv'.
  - by eapply backlog_inv_recv.
  - by apply backlog_inv_run.
  - by apply backlog_inv_error.
Qed.

Lemma backlog_inv_steps (rpc rpc' : jsonrpc) :
  rtc endpoint_step rpc rpc' → backlog_inv rpc → backlog_inv rpc'.
Proof.
  induction 1 as [| rpc rpc1 rpc2 Hstep _ IH]; [done |].
  intros Hinv. by eapply IH, backlog_inv_step.
Qed.

Lemma queue_bytes_nonneg q : 0 ≤ queue_bytes q.
Proof. induction q; simpl; lia. Qed.

(** C7: the backlog of an endpoint is the number of bytes of its send
    queue that are not sent yet.  This holds, in the arithmetic of
    [size_t], of a new endpoint and after every sequence of calls on it,
    whatever the transport accepts; it is an equality of integers as long
    as the queue holds fewer than [2^64] bytes.  A send adds to both the
    length of the text it queues, before it runs the endpoint if the queue
    was empty; each turn of a run takes from both what the stream
    accepted. *)
Theorem backlog_accounting (st : stream) (rpc : jsonrpc) :
  rtc endpoint_step (jsonrpc_open st) rpc →
  rpc_backlog rpc = queue_bytes (rpc_output rpc) mod SIZE_MOD
  ∧ (queue_bytes (rpc_output rpc) < SIZE_MOD →
     rpc_backlog rpc = queue_bytes (rpc_output rpc))
  ∧ (∀ msg, rpc_status rpc = 0 →
       let text := json_to_string (jsonrpc_msg_to_json msg) 0 in
       rpc_output (enqueue rpc msg) = rpc_output rpc ++ [text]
       ∧ rpc_backlog (enqueue rpc msg)
         = (rpc_backlog rpc + Z.of_nat (length text)) mod SIZE_MOD
       ∧ (jsonrpc_send rpc msg).1.2
         = if bool_decide (rpc_output rpc = [])
           then jsonrpc_run (enqueue rpc msg)
           else enqueue rpc msg)
  ∧ (∀ turns buf rest st0 retval st',
       rpc_output rpc = buf :: rest → rpc_stream rpc = Some st0 →
       stream_send st0 buf = (retval, st') → 0 ≤ retval →
       ∃ rpc1,
         jsonrpc_run_loop (S turns) rpc = jsonrpc_run_loop turns rpc1
         ∧ rpc_backlog rpc1 = (rpc_backlog rpc - retval) mod SIZE_MOD
         ∧ queue_bytes (rpc_output rpc1)
           = queue_bytes (rpc_output rpc) - retval).
Proof.
  intros Hsteps.
  assert (backlog_inv rpc) as Hinv by (by eapply backlog_inv_steps).
  split_and!.
  - done.
  - intros Hlt. rewrite Hinv. apply Z.mod_small.
    split; [apply queue_bytes_nonneg | done].
  - intros msg Hok. split_and!; [done .. |].
    rewrite jsonrpc_send_healthy by done. cbn zeta. simpl.
    by case_bool_decide.
  - intros turns buf rest st0 retval st' Hout Hst Hsend Hretval.
    destruct (jsonrpc_run_loop_accept turns rpc _ _ _ _ _ Hout Hst Hsend Hretval)
      as (rpc1 & Heq & _ & _ & Hbacklog & Hbytes).
    by exists rpc1.
Qed.

Lemma jsonrpc_run_loop_unfold (turns : nat) (rpc : jsonrpc) :
  jsonrpc_run_loop (S turns) rpc =
    match rpc_output rpc, rpc_stream rpc with
    | buf :: rest, Some st =>
        let '(retval, st') := stream_send st buf in
        let rpc := set_rpc_stream (Some st') rpc in
        if 0 <=? retval then
          let rpc :=
            set_rpc_backlog ((rpc_backlog rpc - retval) mod SIZE_MOD) rpc in
          let buf' := drop (Z.to_nat retval) buf in
          let rpc :=
            match buf' with
            | [] => set_rpc_output rest rpc
            | _ => set_rpc_output (buf' :: rest) rpc
            end in
          jsonrpc_run_loop turns rpc
        else if bool_decide (retval ≠ - EAGAIN) then jsonrpc_error rpc (- retval)
        else rpc
    | _, _ => rpc
    end.
Proof. reflexivity. Qed.

(** The loop of [jsonrpc_run] does not need more turns than
    [jsonrpc_run] gives it. *)
Lemma jsonrpc_run_loop_turns (turns : nat) (rpc : jsonrpc) (st : stream) :
  rpc_stream rpc = Some st →
  (length (stream_sends st) < turns)%nat →
  jsonrpc_run_loop turns rpc
  = jsonrpc_run_loop (S (length (stream_sends st))) rpc.
Proof.
  revert rpc st. induction turns as [| turns IH]; intros rpc st Hst Hlt; [lia |].
  destruct (rpc_output rpc) as [| buf rest] eqn:Hout;
    [by simpl; rewrite Hout |].
  destruct (stream_send st buf) as [retval st'] eqn:Hsend.
  destruct (Z.leb_spec 0 retval) as [Hretval | Hneg].
  - pose proof (stream_send_answers _ _ _ _ Hsend Hretval) as Hanswers.
    rewrite <- Hanswers in *.
    rewrite (jsonrpc_run_loop_unfold turns rpc).
    rewrite (jsonrpc_run_loop_unfold (S (length (stream_sends st'))) rpc).
    rewrite Hout, Hst, Hsend. cbn zeta.
    destruct (Z.leb_spec 0 retval) as [_ | ?]; [| lia].
    destruct (drop (Z.to_nat retval) buf); apply IH; simpl; (done || lia).
  - simpl. rewrite Hout, Hst, Hsend.
    by destruct (Z.leb_spec 0 retval) as [? | _]; [lia |].
Qed.

(** *** The two states of an endpoint *)

Lemma jsonrpc_wf_error (rpc : jsonrpc) error :
  error ≠ 0 → jsonrpc_wf rpc → jsonrpc_wf (jsonrpc_error rpc error).
Proof.
  intros Herror [[Hok _] | Hdead].
  - right. rewrite jsonrpc_error_healthy by done. by repeat split.
  - right. rewrite jsonrpc_error_dead; [done | apply Hdead].
Qed.

Lemma jsonrpc_wf_run_loop (turns : nat) (rpc : jsonrpc) :
  healthy rpc → jsonrpc_wf (jsonrpc_run_loop turns rpc).
Proof.
  revert rpc. induction turns as [| turns IH]; intros rpc Hrpc; [by left |].
  destruct (rpc_output rpc) as [| buf rest] eqn:Hout;
    [by left; simpl; rewrite Hout |].
  destruct Hrpc as [Hok [st Hst]].
  destruct (stream_send st buf) as [retval st'] eqn:Hsend.
  destruct (Z.leb_spec 0 retval) as [Hretval | Hneg].
  - destruct (jsonrpc_run_loop_accept turns rpc _ _ _ _ _ Hout Hst Hsend Hretval)
      as (rpc1 & -> & Hst1 & Hok1 & _).
    apply IH. split; [congruence | by rewrite Hst1].
  - simpl. rewrite Hout, Hst, Hsend.
    destruct (Z.leb_spec 0 retval) as [? | _]; [lia |].
    case_bool_decide.
    + apply jsonrpc_wf_error; [lia |]. by left.
    + by left.
Qed.

Lemma jsonrpc_wf_run (rpc : jsonrpc) :
  jsonrpc_wf rpc → jsonrpc_wf (jsonrpc_run rpc).
Proof.
  intros Hwf. unfold jsonrpc_run. case_bool_decide; [done |].
  destruct Hwf as [[Hok [st Hst]] | [Hdead _]]; [| done].
  rewrite Hst. by apply jsonrpc_wf_run_loop.
Qed.

Lemma jsonrpc_wf_send (rpc : jsonrpc) msg :
  jsonrpc_wf rpc → jsonrpc_wf (jsonrpc_send rpc msg).1.2.
Proof.
  intros Hwf. destruct Hwf as [[Hok Hst] | Hdead].
  - rewrite jsonrpc_send_healthy by done. cbn zeta. simpl.
    assert (healthy (enqueue rpc msg)) as Henqueue by done.
    case_bool_decide; [| by left]. apply jsonrpc_wf_run. by left.
  - rewrite jsonrpc_send_dead by apply Hdead. by right.
Qed.

Lemma jsonrpc_wf_received (rpc : jsonrpc) :
  healthy rpc → jsonrpc_wf (jsonrpc_received rpc).
Proof.
  intros Hrpc. unfold jsonrpc_received, EPROTO.
  destruct (rpc_parser rpc) as [parser |]; [| by left].
  case_bool_decide.
  - apply jsonrpc_wf_error; [done | by left].
  - destruct (jsonrpc_msg_from_json _);
      [apply jsonrpc_wf_error; [done | by left] | by left].
Qed.

Lemma jsonrpc_wf_recv_loop (turns : nat) (rpc rpc' : jsonrpc) retval msg :
  healthy rpc →
  jsonrpc_recv_loop turns rpc = Some (retval, msg, rpc') → jsonrpc_wf rpc'.
Proof.
  revert rpc. induction turns as [| turns IH]; intros rpc Hrpc Hrecv.
  - simpl in Hrecv. destruct (rpc_received rpc); simplify_eq. by left.
  - simpl in Hrecv.
    destruct (rpc_received rpc); [simplify_eq; by left |].
    destruct (rpc_stream rpc) as [st |] eqn:Hst; [| done].
    destruct Hrpc as [Hok _].
    destruct (byteq_is_empty (rpc_input rpc)).
    + destruct (stream_recv st _) as [[r stored] st'].
      destruct (Z.ltb_spec r 0).
      * case_bool_decide; simplify_eq; [by left |].
        apply jsonrpc_wf_error; [lia | by left].
      * destruct (r =? 0);
          [simplify_eq; apply jsonrpc_wf_error; [done | by left] |].
        by apply IH in Hrecv.
    + destruct (json_parser_feed _ _) as [used parser].
      destruct (json_parser_is_done parser); [| by apply IH in Hrecv].
      match type of Hrecv with
      | context [jsonrpc_received ?r] =>
          assert (jsonrpc_wf (jsonrpc_received r)) as Hwf
            by (by apply jsonrpc_wf_received)
      end.
      case_bool_decide as Hstatus; [by simplify_eq |].
      apply IH in Hrecv; [done |].
      destruct Hwf as [? | [? _]]; [done | by destruct Hstatus].
Qed.

Lemma jsonrpc_wf_step (rpc rpc' : jsonrpc) :
  endpoint_step rpc rpc' → jsonrpc_wf rpc → jsonrpc_wf rpc'.
Proof.
  intros [rpc0 msg retval rpc0' destroyed Hsend
         | rpc0 turns retval msg rpc0' Hrecv | rpc0 | rpc0 error Herror] Hwf.
  - pose proof (jsonrpc_wf_send rpc0 msg Hwf) as Hwf'.
    by rewrite Hsend in Hwf'.
  - unfold jsonrpc_recv in Hrecv. case_bool_decide as Hstatus.
    + by simplify_eq.
    + destruct Hwf as [Hrpc | [? _]]; [| done].
      by eapply jsonrpc_wf_recv_loop.
  - by apply jsonrpc_wf_run.
  - by apply jsonrpc_wf_error.
Qed.

(** An endpoint made by [jsonrpc_open] is, after any calls, either healthy
    and with its stream, or dead and empty: no stream, no parser, no
    buffered message, an empty queue and no backlog. *)
Lemma jsonrpc_wf_steps (st : stream) (rpc : jsonrpc) :
  rtc endpoint_step (jsonrpc_open st) rpc → jsonrpc_wf rpc.
Proof.
  assert (∀ rpc0 rpc1 : jsonrpc,
            rtc endpoint_step rpc0 rpc1 → jsonrpc_wf rpc0 → jsonrpc_wf rpc1)
    as Hsteps.
  { induction 1 as [| rpc0 rpc1 rpc2 Hstep _ IH]; [done |].
    intros Hwf. by eapply IH, jsonrpc_wf_step. }
  intros Hreach. apply (Hsteps _ _ Hreach). left. by split.
Qed.

End EndpointProperties.

(** *** Examples *)

Lemma terminal_death_witness :
  let rpc :=
    jsonrpc_error (H := example_text)
      (jsonrpc_open (mk_stream "peer" [] [] [])) EPROTO in
  rpc_status rpc = EPROTO
  ∧ jsonrpc_error rpc EOF = rpc
  ∧ jsonrpc_send rpc notify_x = (EPROTO, rpc, [notify_x])
  ∧ jsonrpc_recv 1 rpc = Some (EPROTO, None, rpc)
  ∧ jsonrpc_get_backlog rpc = 0.
Proof.
  intros rpc.
  destruct (terminal_death (H := example_text)) as [Hlatch Hlater].
  destruct (Hlatch (jsonrpc_open (mk_stream "peer" [] [] [])) EPROTO)
    as (Hdead & Hcode & _); [unfold EPROTO; lia |].
  destruct (Hlater rpc rpc Hdead) as (_ & Herror & Hsend & Hrecv & _ & Hbacklog);
    [apply rtc_refl |].
  assert (rpc_status rpc = EPROTO) as Hstatus by (by apply Hcode).
  split_and!.
  - exact Hstatus.
  - apply Herror.
  - rewrite Hsend. by rewrite Hstatus.
  - rewrite Hrecv. by rewrite Hstatus.
  - apply Hbacklog.
Defined.

Lemma backlog_accounting_witness :
  let st := mk_stream "peer" [] [1] [] in
  let rpc0 := jsonrpc_open (H := example_text) st in
  let rpc1 := (jsonrpc_send rpc0 request_7).1.2 in
  let rpc2 := (jsonrpc_send rpc1 notify_x).1.2 in
  rpc_output rpc2 = [[newline]; [Byte.x01; newline]]
  ∧ rpc_backlog rpc2 = 3
  ∧ rpc_backlog rpc2 = queue_bytes (rpc_output rpc2).
Proof.
  intros st rpc0 rpc1 rpc2.
  split_and!; [reflexivity .. |].
  assert (rtc endpoint_step rpc0 rpc2) as Hsteps.
  { eapply rtc_l; [by eapply (step_send rpc0 request_7) |].
    eapply rtc_l; [by eapply (step_send rpc1 notify_x) |].
    apply rtc_refl. }
  destruct (backlog_accounting (H := example_text) st rpc2 Hsteps)
    as (_ & Hexact & _).
  apply Hexact. vm_compute. reflexivity.
Defined.

(** ** Blocking helpers and transactions *)

Section TransactionProperties.
Context `{JsonText}.

(** A loop that has returned within some number of turns returns the same
    within any larger number. *)
Lemma jsonrpc_recv_loop_mono (n m : nat) (rpc : jsonrpc) r :
  (n ≤ m)%nat →
  jsonrpc_recv_loop n rpc = Some r → jsonrpc_recv_loop m rpc = Some r.
Proof.
  revert m rpc. induction n as [| n IH]; intros m rpc Hle Hrecv.
  - simpl in Hrecv. destruct m; simpl; by destruct (rpc_received rpc).
  - destruct m as [| m]; [lia |]. simpl in Hrecv |- *.
    repeat case_match; simplify_eq; try done; apply IH; (done || lia).
Qed.

Lemma jsonrpc_recv_mono (n m : nat) (rpc : jsonrpc) r :
  (n ≤ m)%nat → jsonrpc_recv n rpc = Some r → jsonrpc_recv m rpc = Some r.
Proof.
  unfold jsonrpc_recv. case_bool_decide; [done |]. apply jsonrpc_recv_loop_mono.
Qed.

Lemma jsonrpc_recv_block_mono (n m : nat) (rpc : jsonrpc) r :
  (n ≤ m)%nat →
  jsonrpc_recv_block n rpc = Some r → jsonrpc_recv_block m rpc = Some r.
Proof.
  revert m rpc. induction n as [| n IH]; intros m rpc Hle Hrecv; [done |].
  destruct m as [| m]; [lia |].
  cbn [jsonrpc_recv_block] in Hrecv |- *.
  destruct (jsonrpc_recv (S n) rpc) as [[[error msg] rpc'] |] eqn:E; [| done].
  rewrite (jsonrpc_recv_mono (S n) (S m) rpc _ ltac:(lia) E).
  case_bool_decide; [done |]. apply IH; [lia | done].
Qed.

Lemma jsonrpc_send_block_loop_mono (n m : nat) (rpc : jsonrpc) r :
  (n ≤ m)%nat →
  jsonrpc_send_block_loop n rpc = Some r →
  jsonrpc_send_block_loop m rpc = Some r.
Proof.
  revert m rpc. induction n as [| n IH]; intros m rpc Hle Hsend; [done |].
  destruct m as [| m]; [lia |]. simpl in Hsend |- *.
  case_match; [done |]. apply IH; [lia | done].
Qed.

Lemma jsonrpc_send_block_mono (n m : nat) (rpc : jsonrpc) msg r :
  (n ≤ m)%nat →
  jsonrpc_send_block n rpc msg = Some r → jsonrpc_send_block m rpc msg = Some r.
Proof.
  intros Hle. unfold jsonrpc_send_block.
  destruct (jsonrpc_send rpc msg) as [[error rpc'] destroyed].
  case_bool_decide; [done |].
  destruct (jsonrpc_send_block_loop n rpc') as [[error' rpc''] |] eqn:E; [| done].
  by rewrite (jsonrpc_send_block_loop_mono n m rpc' _ Hle E).
Qed.

Lemma is_matching_reply_spec (i : json) (m : jsonrpc_msg) :
  is_matching_reply (Some i) m = true
  ↔ msg_type m = JSONRPC_REPLY ∧ msg_id m = Some i.
Proof.
  unfold is_matching_reply, id_equal, json_equal.
  rewrite andb_true_iff, bool_decide_eq_true.
  destruct (msg_id m) as [j |].
  - rewrite bool_decide_eq_true. intuition congruence.
  - intuition congruence.
Qed.

(** The loop destroys the messages that do not match, in the order in
    which they are received, and goes on from the endpoint they leave. *)
Lemma jsonrpc_transact_loop_skip (turns : nat) (rpc rpc' : jsonrpc)
    (others : list jsonrpc_msg) (id : option json) :
  recv_trace turns rpc others rpc' →
  Forall (λ m, is_matching_reply id m = false) others →
  ∀ n destroyed, (turns ≤ n)%nat →
    jsonrpc_transact_loop (length others + n) rpc id destroyed
    = jsonrpc_transact_loop n rpc' id (destroyed ++ others).
Proof.
  induction 1 as [rpc | rpc m rpc' ms rpc'' Hrecv _ IH];
    intros Hothers n destroyed Hle.
  - by rewrite app_nil_r.
  - apply Forall_cons in Hothers as [Hm Hms].
    cbn [length Nat.add jsonrpc_transact_loop].
    rewrite (jsonrpc_recv_block_mono turns (S (length ms + n)) rpc _
               ltac:(lia) Hrecv).
    rewrite bool_decide_eq_false_2 by lia.
    unfold is_matching_reply in Hm. rewrite Hm.
    rewrite IH by done. by rewrite <- app_assoc.
Qed.

Lemma jsonrpc_transact_loop_match (turns n : nat) (rpc rpc' : jsonrpc)
    (id : option json) (r : jsonrpc_msg) destroyed :
  jsonrpc_recv_block turns rpc = Some (0, Some r, rpc') →
  is_matching_reply id r = true → (turns ≤ n)%nat →
  jsonrpc_transact_loop n rpc id destroyed = Some (0, Some r, rpc', destroyed).
Proof.
  intros Hrecv Hr Hle. destruct n as [| n]; [by assert (turns = 0%nat) as -> by lia |].
  cbn [jsonrpc_transact_loop].
  rewrite (jsonrpc_recv_block_mono turns _ rpc _ Hle Hrecv).
  rewrite bool_decide_eq_false_2 by lia.
  unfold is_matching_reply in Hr. by rewrite Hr.
Qed.

Lemma jsonrpc_transact_loop_error (turns n : nat) (rpc rpc' : jsonrpc)
    (id : option json) error msg destroyed :
  jsonrpc_recv_block turns rpc = Some (error, msg, rpc') →
  error ≠ 0 → (turns ≤ n)%nat →
  jsonrpc_transact_loop n rpc id destroyed = Some (error, None, rpc', destroyed).
Proof.
  intros Hrecv Herror Hle.
  destruct n as [| n]; [by assert (turns = 0%nat) as -> by lia |].
  cbn [jsonrpc_transact_loop].
  rewrite (jsonrpc_recv_block_mono turns _ rpc _ Hle Hrecv).
  by rewrite bool_decide_eq_true_2.
Qed.

(** C8: [jsonrpc_transact_block] sends the request and then receives
    until a reply whose id equals that of the request.  When the sending
    fails, it returns the error and no reply.  Otherwise, when the messages
    received first are not replies with the id of the request and the next
    receive returns such a reply, it returns that reply and has destroyed
    the others, all of them and in their order; when instead the next
    receive returns an error, it returns the error and no reply.  A reply
    matches when its type is that of a reply and its id is equal, as a JSON
    value, to the id the request had.  Each statement holds for any number
    of turns that is large enough for the calls it is made of. *)
Theorem transact_block_first_matching_reply (turns : nat) (rpc : jsonrpc)
    (request : jsonrpc_msg) :
  let id := msg_id request in
  (∀ i m, is_matching_reply (Some i) m = true
          ↔ msg_type m = JSONRPC_REPLY ∧ msg_id m = Some i)
  ∧ (∀ error rpc1 destroyed n,
       jsonrpc_send_block turns rpc request = Some (error, rpc1, destroyed) →
       error ≠ 0 → (turns ≤ n)%nat →
       jsonrpc_transact_block n rpc request
       = Some (error, None, rpc1, destroyed))
  ∧ (∀ rpc1 destroyed others rpc2,
       jsonrpc_send_block turns rpc request = Some (0, rpc1, destroyed) →
       recv_trace turns rpc1 others rpc2 →
       Forall (λ m, is_matching_reply id m = false) others →
       (∀ reply rpc3 n,
          jsonrpc_recv_block turns rpc2 = Some (0, Some reply, rpc3) →
          is_matching_reply id reply = true →
          (length others + turns ≤ n)%nat →
          jsonrpc_transact_block n rpc request
          = Some (0, Some reply, rpc3, destroyed ++ others))
       ∧ (∀ error msg rpc3 n,
            jsonrpc_recv_block turns rpc2 = Some (error, msg, rpc3) →
            error ≠ 0 →
            (length others + turns ≤ n)%nat →
            jsonrpc_transact_block n rpc request
            = Some (error, None, rpc3, destroyed ++ others))).
Proof.
  intros id. split_and!.
  - apply is_matching_reply_spec.
  - intros error rpc1 destroyed n Hsend Herror Hle.
    unfold jsonrpc_transact_block.
    rewrite (jsonrpc_send_block_mono turns n rpc request _ Hle Hsend).
    by rewrite bool_decide_eq_false_2.
  - intros rpc1 destroyed others rpc2 Hsend Htrace Hothers.
    assert (∀ n, (length others + turns ≤ n)%nat →
              jsonrpc_transact_block n rpc request
              = jsonrpc_transact_loop (n - length others) rpc2 id
                  (destroyed ++ others)) as Hskip.
    { intros n Hle. unfold jsonrpc_transact_block.
      rewrite (jsonrpc_send_block_mono turns n rpc request _ ltac:(lia) Hsend).
      rewrite bool_decide_eq_true_2 by done.
      replace n with (length others + (n - length others))%nat at 1 by lia.
      unfold json_clone. rewrite option_fmap_id.
      apply (jsonrpc_transact_loop_skip turns); [done .. | lia]. }
    split.
    + intros reply rpc3 n Hrecv Hreply Hle. rewrite Hskip by done.
      apply (jsonrpc_transact_loop_match turns); [done .. | lia].
    + intros error msg rpc3 n Hrecv Herror Hle. rewrite Hskip by done.
      apply (jsonrpc_transact_loop_error turns _ _ _ _ _ msg); [done .. | lia].
Qed.

End TransactionProperties.

Lemma send_block_returns_true `{JsonText} turns rpc msg error destroyed :
  send_block_returns turns rpc msg error destroyed = true →
  jsonrpc_send_block turns rpc msg
  = Some (error, after_send_block turns rpc msg, destroyed).
Proof.
  unfold send_block_returns, after_send_block.
  destruct (jsonrpc_send_block turns rpc msg) as [[[e rpc'] d] |]; [| done].
  rewrite andb_true_iff, !bool_decide_eq_true. by intros [-> ->].
Qed.

Lemma recv_block_returns_true `{JsonText} turns rpc error msg :
  recv_block_returns turns rpc error msg = true →
  jsonrpc_recv_block turns rpc = Some (error, msg, after_recv_block turns rpc).
Proof.
  unfold recv_block_returns, after_recv_block.
  destruct (jsonrpc_recv_block turns rpc) as [[[e m] rpc'] |]; [| done].
  rewrite andb_true_iff, !bool_decide_eq_true. by intros [-> ->].
Qed.

Lemma transact_block_first_matching_reply_witness :
  let rpc0 := jsonrpc_open (H := example_text) s5_stream in
  let rpc1 := after_send_block 4 rpc0 request_7 in
  let rpc2 := after_recv_block 4 (after_recv_block 4 rpc1) in
  let rpc3 := after_recv_block 4 rpc2 in
  jsonrpc_transact_block 6 rpc0 request_7
  = Some (0, Some reply_7, rpc3, [notify_x; reply_6])
  ∧ rpc_input rpc3 = mk_byteq [] 6 ∧ rpc_backlog rpc3 = 0.
Proof.
  intros rpc0 rpc1 rpc2 rpc3.
  split; [| by vm_compute].
  pose proof (transact_block_first_matching_reply (H := example_text) 4
                rpc0 request_7) as (_ & _ & Hmain).
  apply (Hmain rpc1 [] [notify_x; reply_6] rpc2).
  - apply send_block_returns_true. vm_compute. reflexivity.
  - apply (recv_trace_cons _ _ _ (after_recv_block 4 rpc1));
      [apply recv_block_returns_true; vm_compute; reflexivity |].
    apply (recv_trace_cons _ _ _ rpc2);
      [apply recv_block_returns_true; vm_compute; reflexivity |].
    apply recv_trace_nil.
  - repeat constructor.
  - apply recv_block_returns_true. vm_compute. reflexivity.
  - vm_compute. reflexivity.
  - simpl. lia.
Defined.

(** ** The session *)

Section SessionProperties.
Context `{JsonText} `{Reconnect}.

Lemma UINT_MOD_value : UINT_MOD = 4294967296.
Proof. reflexivity. Qed.

Lemma incr_seqno_changes (seqno : Z) : (seqno + 1) mod UINT_MOD ≠ seqno.
Proof.
  rewrite UINT_MOD_value. intros Heq.
  pose proof (Z.div_mod (seqno + 1) 4294967296 ltac:(lia)) as Hdm.
  rewrite Heq in Hdm. lia.
Qed.

Lemma jsonrpc_session_disconnect_idle (s : jsonrpc_session) :
  s_rpc s = None → s_stream s = None → jsonrpc_session_disconnect s = s.
Proof. intros Hrpc Hstream. unfold jsonrpc_session_disconnect. by rewrite Hrpc, Hstream. Qed.

Lemma jsonrpc_session_disconnect_reconnect (s : jsonrpc_session) :
  s_reconnect (jsonrpc_session_disconnect s) = s_reconnect s.
Proof.
  unfold jsonrpc_session_disconnect.
  destruct (s_rpc s); [done |]. by destruct (s_stream s).
Qed.

(** Where the sequence number does move: when [jsonrpc_session_disconnect]
    drops the endpoint or the stream, and at the end of
    [jsonrpc_session_connect]. *)
Lemma jsonrpc_session_disconnect_seqno (s : jsonrpc_session) :
  is_present (s_rpc s) || is_present (s_stream s) = true →
  let s' := jsonrpc_session_disconnect s in
  s_seqno s' = (s_seqno s + 1) mod UINT_MOD
  ∧ s_rpc s' = None ∧ (s_rpc s = None → s_stream s' = None).
Proof.
  unfold jsonrpc_session_disconnect.
  destruct (s_rpc s) eqn:Hrpc; [done |].
  destruct (s_stream s) eqn:Hstream; [| done].
  intros _. simpl. by rewrite Hrpc.
Qed.

(** C2 (the code departs from the specification): a run that finds the stream
    connected makes an endpoint of it, and a run that finds the connection
    failed closes the stream; when the controller then asks for nothing,
    either run leaves the sequence number as it was. *)
Theorem session_run_connect_progress_keeps_seqno
    (stream_open : string → Z * option stream) (now next_id : Z)
    (s : jsonrpc_session) (st st' : stream) (error : Z) (r : reconnect) :
  s_rpc s = None → s_stream s = Some st →
  stream_connect st = (error, st') →
  (error = 0 →
   reconnect_run (reconnect_connected (s_reconnect s) now) now = (None, r) →
   jsonrpc_session_run stream_open now next_id s
   = (mk_jsonrpc_session r (Some (jsonrpc_open st')) None (s_seqno s),
      next_id))
  ∧ (error ≠ 0 → error ≠ EAGAIN →
     reconnect_run (reconnect_connect_failed (s_reconnect s) now error) now
     = (None, r) →
     jsonrpc_session_run stream_open now next_id s
     = (mk_jsonrpc_session r None None (s_seqno s), next_id)).
Proof.
  intros Hrpc Hstream Hconnect.
  unfold jsonrpc_session_run, jsonrpc_session_run_io, jsonrpc_session_run_action.
  rewrite Hrpc, Hstream. unfold stream_run. rewrite Hconnect.
  split.
  - intros -> Hrun. rewrite bool_decide_eq_true_2 by done. simpl.
    rewrite Hrun. reflexivity.
  - intros Herror Hagain Hrun.
    rewrite bool_decide_eq_false_2, bool_decide_eq_true_2 by done. simpl.
    rewrite Hrun. unfold set_s_reconnect, set_s_stream. simpl.
    by rewrite Hrpc.
Qed.

(** C10: [jsonrpc_session_connect] adds one to the sequence number that
    its own disconnecting has left, whether the stream opens or not, and it
    is what a run does when the controller asks to connect.  On a session
    that has neither endpoint nor stream this is one more than before; when
    the opening fails the session still has neither, so the sequence number
    has changed and what the session holds has not. *)
Theorem session_connect_bumps_seqno
    (stream_open : string → Z * option stream) (now next_id : Z)
    (s : jsonrpc_session) :
  let s' := jsonrpc_session_connect stream_open now s in
  s_seqno s' = (s_seqno (jsonrpc_session_disconnect s) + 1) mod UINT_MOD
  ∧ (∀ r, reconnect_run (s_reconnect s) now = (Some RECONNECT_CONNECT, r) →
       jsonrpc_session_run_action stream_open now next_id s
       = (jsonrpc_session_connect stream_open now (set_s_reconnect r s),
          next_id))
  ∧ (∀ error,
       stream_open (reconnect_get_name (s_reconnect s)) = (error, None) →
       s_rpc s' = None ∧ s_stream s' = None)
  ∧ (s_rpc s = None → s_stream s = None →
     s_seqno s' = (s_seqno s + 1) mod UINT_MOD
     ∧ s_seqno s' ≠ s_seqno s
     ∧ ∀ error,
         stream_open (reconnect_get_name (s_reconnect s)) = (error, None) →
         error ≠ 0 →
         s_rpc s' = s_rpc s ∧ s_stream s' = s_stream s
         ∧ s_reconnect s'
           = reconnect_connect_failed (s_reconnect s) now error).
Proof.
  intros s'. subst s'.
  assert (∀ s0, s_seqno (jsonrpc_session_connect stream_open now s0)
                = (s_seqno (jsonrpc_session_disconnect s0) + 1) mod UINT_MOD)
    as Hseqno.
  { intros s0. unfold jsonrpc_session_connect.
    destruct (stream_open _) as [error st]. by case_bool_decide. }
  assert (∀ error,
            stream_open (reconnect_get_name (s_reconnect s)) = (error, None) →
            s_rpc (jsonrpc_session_connect stream_open now s) = None
            ∧ s_stream (jsonrpc_session_connect stream_open now s) = None)
    as Hfail.
  { intros error Hopen. unfold jsonrpc_session_connect.
    rewrite jsonrpc_session_disconnect_reconnect, Hopen.
    unfold jsonrpc_session_disconnect.
    destruct (s_rpc s) eqn:Hrpc; [by case_bool_decide |].
    destruct (s_stream s) eqn:Hstream; case_bool_decide; simpl;
      by rewrite ?Hrpc. }
  split_and!.
  - apply Hseqno.
  - intros r Hrun. unfold jsonrpc_session_run_action. by rewrite Hrun.
  - apply Hfail.
  - intros Hrpc Hstream. rewrite Hseqno.
    rewrite jsonrpc_session_disconnect_idle by done.
    split_and!; [done | apply incr_seqno_changes |].
    intros error Hopen Herror.
    destruct (Hfail error Hopen) as [-> ->]. split_and!; [done .. |].
    unfold jsonrpc_session_connect.
    rewrite jsonrpc_session_disconnect_idle by done.
    rewrite Hopen. by rewrite bool_decide_eq_true_2.
Qed.

(** A receive that returns a message returns [0] and leaves the endpoint
    healthy. *)
Lemma jsonrpc_recv_loop_message (turns : nat) (rpc rpc' : jsonrpc) retval msg :
  rpc_status rpc = 0 →
  jsonrpc_recv_loop turns rpc = Some (retval, Some msg, rpc') →
  retval = 0 ∧ rpc_status rpc' = 0.
Proof.
  revert rpc. induction turns as [| turns IH]; intros rpc Hok Hrecv.
  - simpl in Hrecv. destruct (rpc_received rpc); by simplify_eq.
  - simpl in Hrecv.
    destruct (rpc_received rpc); [by simplify_eq |].
    destruct (rpc_stream rpc) as [st |]; [| done].
    destruct (byteq_is_empty (rpc_input rpc)).
    + destruct (stream_recv st _) as [[r stored] st'].
      destruct (r <? 0); [by case_bool_decide |].
      destruct (r =? 0); [done |]. by apply IH in Hrecv.
    + destruct (json_parser_feed _ _) as [used parser].
      destruct (json_parser_is_done parser); [| by apply IH in Hrecv].
      case_bool_decide as Hstatus; [done |].
      apply IH in Hrecv; [done |].
      destruct (decide (rpc_status (jsonrpc_received
        (set_rpc_input (byteq_advance_tail (rpc_input rpc) used)
           (set_rpc_parser (Some parser) rpc))) = 0)); [done |].
      by destruct Hstatus.
Qed.

Lemma jsonrpc_recv_message (turns : nat) (rpc rpc' : jsonrpc) retval msg :
  jsonrpc_recv turns rpc = Some (retval, Some msg, rpc') →
  retval = 0 ∧ rpc_status rpc' = 0.
Proof.
  unfold jsonrpc_recv. case_bool_decide as Hstatus; [done |].
  apply jsonrpc_recv_loop_message.
  destruct (decide (rpc_status rpc = 0)); [done | by destruct Hstatus].
Qed.

(** C9: what the session does with a message its endpoint has received.
    For a request of method echo it sends a reply whose result is the
    params of the request and whose id is its id, destroys the request and
    returns nothing.  A reply whose id is the JSON string echo is destroyed
    and nothing is returned.  Any other message is returned.  When the
    controller asks for a probe and the session has an endpoint, a request
    of method echo, with an empty array of params and the JSON string echo
    for id, is sent on it. *)
Theorem session_echo (now : Z) (s : jsonrpc_session) (rpc : jsonrpc) :
  s_rpc s = Some rpc →
  (∀ turns retval msg rpc',
     jsonrpc_recv turns rpc = Some (retval, Some msg, rpc') →
     let s1 :=
       set_s_reconnect (reconnect_received (s_reconnect s) now)
         (set_s_rpc (Some rpc') s) in
     rpc_status rpc' = 0
     ∧ (∀ params id,
          msg_type msg = JSONRPC_REQUEST → msg_method msg = Some "echo" →
          msg_params msg = Some params → msg_id msg = Some id →
          let reply :=
            mk_jsonrpc_msg JSONRPC_REPLY None None (Some params) None
              (Some id) in
          jsonrpc_session_recv turns now s
          = Some (None,
                  set_s_rpc (Some (jsonrpc_send rpc' reply).1.2) s1, [msg])
          ∧ (jsonrpc_send rpc' reply).1.2
            = if bool_decide (rpc_output rpc' = [])
              then jsonrpc_run (enqueue rpc' reply)
              else enqueue rpc' reply)
     ∧ (msg_type msg = JSONRPC_REPLY → msg_id msg = Some (JString "echo") →
        jsonrpc_session_recv turns now s = Some (None, s1, [msg]))
     ∧ (¬ (msg_type msg = JSONRPC_REQUEST ∧ msg_method msg = Some "echo") →
        ¬ (msg_type msg = JSONRPC_REPLY ∧ msg_id msg = Some (JString "echo")) →
        jsonrpc_session_recv turns now s = Some (Some msg, s1, [])))
  ∧ (∀ stream_open next_id r,
       reconnect_run (s_reconnect s) now = (Some RECONNECT_PROBE, r) →
       jsonrpc_session_run_action stream_open now next_id s
       = (set_s_rpc (Some (jsonrpc_send rpc probe_request).1.2)
            (set_s_reconnect r s),
          (next_id + 1) mod UINT_MOD)).
Proof.
  intros Hrpc. split.
  - intros turns retval msg rpc' Hrecv s1.
    destruct (jsonrpc_recv_message _ _ _ _ _ Hrecv) as [-> Hok].
    unfold jsonrpc_session_recv. rewrite Hrpc, Hrecv. fold s1.
    split_and!.
    + done.
    + intros params id Htype Hmethod Hparams Hid.
      unfold method_is. rewrite Htype, Hmethod, Hparams, Hid.
      rewrite !bool_decide_eq_true_2 by done. simpl.
      unfold jsonrpc_create_reply, jsonrpc_create, json_clone.
      set (reply := mk_jsonrpc_msg _ _ _ _ _ _).
      unfold jsonrpc_session_send. simpl.
      rewrite (jsonrpc_send_healthy rpc' reply Hok). cbn zeta. simpl.
      split; reflexivity.
    + intros Htype Hid.
      unfold method_is, id_is_string. rewrite Htype, Hid.
      rewrite bool_decide_eq_false_2 by done.
      by rewrite !bool_decide_eq_true_2 by done.
    + intros Hrequest Hreply.
      assert (bool_decide (msg_type msg = JSONRPC_REQUEST)
              && method_is msg "echo" = false) as ->.
      { apply andb_false_iff. unfold method_is.
        destruct (decide (msg_type msg = JSONRPC_REQUEST)) as [Htype | Htype];
          [right | left; by apply bool_decide_eq_false_2].
        destruct (msg_method msg) as [method |]; [| done].
        apply bool_decide_eq_false_2. intros ->. by apply Hrequest. }
      assert (bool_decide (msg_type msg = JSONRPC_REPLY)
              && id_is_string msg "echo" = false) as ->; [| done].
      apply andb_false_iff. unfold id_is_string.
      destruct (decide (msg_type msg = JSONRPC_REPLY)) as [Htype | Htype];
        [right | left; by apply bool_decide_eq_false_2].
      destruct (msg_id msg) as [[] |]; try done.
      apply bool_decide_eq_false_2. intros ->. by apply Hreply.
  - intros stream_open next_id r Hrun.
    unfold jsonrpc_session_run_action. rewrite Hrun. simpl. rewrite Hrpc.
    change (jsonrpc_create JSONRPC_REQUEST _ _ _ _ _) with probe_request.
    by destruct (jsonrpc_send rpc probe_request) as [[e rpc'] d].
Qed.

End SessionProperties.

(** *** Examples *)

Lemma recv_returns_true `{JsonText} turns rpc retval msg :
  recv_returns turns rpc retval msg = true →
  jsonrpc_recv turns rpc = Some (retval, msg, after_recv turns rpc).
Proof.
  unfold recv_returns, after_recv.
  destruct (jsonrpc_recv turns rpc) as [[[r m] rpc'] |]; [| done].
  rewrite andb_true_iff, !bool_decide_eq_true. by intros [-> ->].
Qed.

Lemma session_run_connect_progress_keeps_seqno_witness :
  let connected := mk_stream "peer" [0] [] [] in
  let failed := mk_stream "peer" [111] [] [] in
  let r : @reconnect (scripted []) := mk_scripted_reconnect "peer" 1 [] in
  let session st :=
    mk_jsonrpc_session (H := example_text) (H0 := scripted []) r None
      (Some st) 3 in
  jsonrpc_session_run refusing 0 0 (session connected)
  = (mk_jsonrpc_session r
       (Some (jsonrpc_open (mk_stream "peer" [] [] []))) None 3, 0)
  ∧ jsonrpc_session_run refusing 0 0 (session failed)
    = (mk_jsonrpc_session r None None 3, 0).
Proof.
  intros connected failed r session. split.
  - apply (session_run_connect_progress_keeps_seqno
             (H := example_text) (H0 := scripted [])
             refusing 0 0 (session connected) connected
             (mk_stream "peer" [] [] []) 0 r); reflexivity.
  - apply (session_run_connect_progress_keeps_seqno
             (H := example_text) (H0 := scripted [])
             refusing 0 0 (session failed) failed
             (mk_stream "peer" [] [] []) 111 r);
      try reflexivity; unfold EAGAIN; lia.
Defined.

Lemma session_connect_bumps_seqno_witness :
  let r : @reconnect (scripted []) :=
    mk_scripted_reconnect "peer" 1 [Some RECONNECT_CONNECT] in
  let r' : @reconnect (scripted []) := mk_scripted_reconnect "peer" 1 [] in
  let s :=
    mk_jsonrpc_session (H := example_text) (H0 := scripted []) r None None 0 in
  let idle := set_s_reconnect r' s in
  jsonrpc_session_run_action refusing 0 0 s
  = (jsonrpc_session_connect refusing 0 idle, 0)
  ∧ s_seqno (jsonrpc_session_connect refusing 0 idle) = 1
  ∧ s_seqno (jsonrpc_session_connect refusing 0 idle) ≠ s_seqno idle
  ∧ s_rpc (jsonrpc_session_connect refusing 0 idle) = s_rpc idle
  ∧ s_stream (jsonrpc_session_connect refusing 0 idle) = s_stream idle.
Proof.
  intros r r' s idle.
  destruct (session_connect_bumps_seqno (H := example_text) (H0 := scripted [])
              refusing 0 0 s) as (_ & Hrun & _).
  destruct (session_connect_bumps_seqno (H := example_text) (H0 := scripted [])
              refusing 0 0 idle) as (_ & _ & _ & Hidle).
  destruct Hidle as (Hseqno & Hchanged & Hfail); [reflexivity .. |].
  destruct (Hfail 111) as (Hrpc & Hstream & _); [reflexivity | lia |].
  split_and!.
  - by apply Hrun.
  - rewrite Hseqno. reflexivity.
  - apply Hchanged.
  - apply Hrpc.
  - apply Hstream.
Defined.

(** Scenario S4 of the specification: the peer sends an echo request with
    id 42; the caller receives nothing and the reply is in the queue.  And
    a probe that the controller asks for puts the echo request there. *)
Lemma session_echo_witness :
  let st := mk_stream "peer" [] [] [RecvData [Byte.x04; newline]] in
  let r : @reconnect (scripted []) :=
    mk_scripted_reconnect "peer" 1 [Some RECONNECT_PROBE] in
  let r' : @reconnect (scripted []) := mk_scripted_reconnect "peer" 1 [] in
  let rpc := jsonrpc_open (H := example_text) st in
  let rpc' := after_recv 3 rpc in
  let s := mk_jsonrpc_session (H0 := scripted []) r (Some rpc) None 0 in
  (jsonrpc_session_recv 3 0 s
   = Some (None,
           set_s_rpc (Some (jsonrpc_send rpc' echo_reply_42).1.2)
             (set_s_reconnect (reconnect_received r 0)
                (set_s_rpc (Some rpc') s)),
           [echo_42])
   ∧ rpc_output (jsonrpc_send rpc' echo_reply_42).1.2
     = [[Byte.x05; newline]])
  ∧ jsonrpc_session_run_action refusing 0 7 s
    = (set_s_rpc (Some (jsonrpc_send rpc probe_request).1.2)
         (set_s_reconnect r' s), 8).
Proof.
  intros st r r' rpc rpc' s.
  destruct (session_echo (H := example_text) (H0 := scripted []) 0 s rpc)
    as [Hrecv Hprobe]; [reflexivity |].
  split; [split |].
  - destruct (Hrecv 3%nat 0 echo_42 rpc') as (_ & Hecho & _).
    { apply recv_returns_true. vm_compute. reflexivity. }
    destruct (Hecho (JArray []) (JInteger 42)) as [Hsession _];
      [reflexivity .. |].
    exact Hsession.
  - vm_compute. reflexivity.
  - apply (Hprobe refusing 7 r'). reflexivity.
Defined.

(** * Further properties *)

(** ** Messages *)

(** The validation, read as a table: the reason returned is that of
    params that are not an array, or else that of the first field of the
    table that is present or absent against it. *)
Lemma jsonrpc_msg_is_valid_table (m : jsonrpc_msg) :
  jsonrpc_msg_is_valid m =
    if params_is_array m then
      (λ field,
         must_have (jsonrpc_msg_type_to_string (msg_type m))
           (field_required (msg_type m) field) field) <$> first_mismatch m
    else Some (quoted "params" +:+ " must be JSON array").
Proof.
  destruct m as [type method params result error id].
  destruct type, method, params as [[] |], result, error, id;
    vm_compute; reflexivity.
Qed.

Lemma first_mismatch_None (m : jsonrpc_msg) :
  first_mismatch m = None
  ↔ ∀ field, field ∈ message_fields →
      field_present m field = field_required (msg_type m) field.
Proof.
  unfold first_mismatch. split.
  - intros Hfind field Hfield%list_elem_of_In.
    pose proof (find_none _ _ Hfind field Hfield) as Hsame. simpl in Hsame.
    apply negb_false_iff, eqb_prop in Hsame. exact Hsame.
  - intros Hall.
    destruct (List.find _ message_fields) as [field |] eqn:Hfind; [| done].
    apply find_some in Hfind as [Hfield%list_elem_of_In Hdiff].
    rewrite (Hall field Hfield), eqb_reflx in Hdiff. discriminate.
Qed.

Lemma first_mismatch_Some (m : jsonrpc_msg) (field : string) :
  first_mismatch m = Some field →
  field ∈ message_fields
  ∧ field_present m field ≠ field_required (msg_type m) field.
Proof.
  unfold first_mismatch.
  intros [Hfield%list_elem_of_In Hdiff]%find_some. split; [done |].
  intros Hsame. rewrite Hsame, eqb_reflx in Hdiff. discriminate.
Qed.

(** X1: a message passes [jsonrpc_msg_is_valid] exactly when its params,
    if any, are a JSON array and each of method, params, result, error and
    id is present or absent as the table of its type says: a request has
    method, params and id; a notification method and params; a reply
    result and id; an error error and id. *)
Theorem jsonrpc_msg_is_valid_iff (m : jsonrpc_msg) :
  jsonrpc_msg_is_valid m = None
  ↔ params_is_array m = true
    ∧ ∀ field, field ∈ message_fields →
        field_present m field = field_required (msg_type m) field.
Proof.
  rewrite jsonrpc_msg_is_valid_table, <- first_mismatch_None.
  destruct (params_is_array m); [| by split; [| intros []]].
  destruct (first_mismatch m); by split; [| intros []].
Qed.

(** X2: when [jsonrpc_msg_is_valid] rejects a message whose params are
    absent or an array, the reason it returns is about a field of the
    table that the message has against the table or lacks against it,
    the first such field in the order method, params, result, error, id;
    the reason gives the name of the type, must or must not, and the
    field between quotes.  Params that are not an array are reported
    first, whatever the type. *)
Theorem jsonrpc_msg_is_valid_reason (m : jsonrpc_msg) (reason : string) :
  jsonrpc_msg_is_valid m = Some reason →
  (params_is_array m = false
   ∧ reason = quoted "params" +:+ " must be JSON array")
  ∨ (params_is_array m = true
     ∧ ∃ field,
         first_mismatch m = Some field
         ∧ field ∈ message_fields
         ∧ field_present m field ≠ field_required (msg_type m) field
         ∧ reason
           = jsonrpc_msg_type_to_string (msg_type m) +:+ " must"
             +:+ (if field_present m field then " not" else EmptyString)
             +:+ " have " +:+ quoted field).
Proof.
  rewrite jsonrpc_msg_is_valid_table.
  destruct (params_is_array m); [| intros [= <-]; by left].
  destruct (first_mismatch m) as [field |] eqn:Hfirst; [| done].
  intros [= <-]. right. split; [done |]. exists field.
  destruct (first_mismatch_Some m field Hfirst) as [Hfield Hdiff].
  split_and!; [done .. |]. unfold must_have.
  destruct (field_present m field), (field_required (msg_type m) field);
    done.
Qed.

Lemma jsonrpc_msg_is_valid_reason_witness :
  let m := jsonrpc_create_error (JString "oops") (JInteger 0) in
  ∃ field,
    first_mismatch m = Some field
    ∧ field_present m field ≠ field_required (msg_type m) field.
Proof.
  intros m.
  destruct (jsonrpc_msg_is_valid_reason m
              ("reply must have " +:+ quoted "result"))
    as [[Hparams _] | (_ & field & Hfirst & _ & Hdiff & _)];
    [reflexivity | discriminate Hparams |].
  by exists field.
Defined.

Lemma jsonrpc_msg_is_valid_iff_witness :
  jsonrpc_msg_is_valid request_7 = None.
Proof.
  apply (jsonrpc_msg_is_valid_iff request_7). split; [reflexivity |].
  intros field Hfield. unfold message_fields in Hfield.
  repeat (apply elem_of_cons in Hfield as [-> | Hfield]); try reflexivity.
  by apply elem_of_nil in Hfield.
Defined.

Lemma next_id_changes (n : Z) : (n + 1) mod UINT_MOD ≠ n.
Proof.
  assert (UINT_MOD = 4294967296) as -> by reflexivity. intros Heq.
  pose proof (Z.div_mod (n + 1) 4294967296 ltac:(lia)) as Hdm.
  rewrite Heq in Hdm. lia.
Qed.

(** X3: the messages of the factories.  A request made by
    [jsonrpc_create_request] is valid exactly when its params are a JSON
    array; its id is the JSON integer of the counter, the copy stored for
    the caller is that same id, and the request made next has another id.
    A notification is valid exactly when its params are an array, and a
    reply made by [jsonrpc_create_reply] is always valid. *)
Theorem factory_messages (method : string) (params result id : json)
    (next_id : Z) :
  let '(request, idp, next_id') :=
    jsonrpc_create_request method params next_id in
  let '(request', _, _) := jsonrpc_create_request method params next_id' in
  (jsonrpc_msg_is_valid request = None ↔ json_type_of params = JSON_ARRAY)
  ∧ msg_id request = Some (JInteger next_id)
  ∧ msg_id request = Some idp
  ∧ msg_id request' ≠ msg_id request
  ∧ (jsonrpc_msg_is_valid (jsonrpc_create_notify method params) = None
     ↔ json_type_of params = JSON_ARRAY)
  ∧ jsonrpc_msg_is_valid (jsonrpc_create_reply result id) = None.
Proof.
  simpl. split_and!.
  - destruct params; vm_compute; by split.
  - reflexivity.
  - reflexivity.
  - unfold json_integer_create. intros [= Heq]. by apply next_id_changes in Heq.
  - destruct params; vm_compute; by split.
  - reflexivity.
Qed.

(** What [jsonrpc_msg_to_json] writes, member by member. *)
Lemma jsonrpc_msg_to_json_members (m : jsonrpc_msg) :
  ∃ o : gmap string json,
    jsonrpc_msg_to_json m = JObject o
    ∧ dom o ⊆ known_members
    ∧ o !! "method" = JString <$> msg_method m
    ∧ o !! "params" = msg_params m
    ∧ o !! "result"
      = padded (msg_result m) (bool_decide (msg_type m = JSONRPC_ERROR))
    ∧ o !! "error"
      = padded (msg_error m) (bool_decide (msg_type m = JSONRPC_REPLY))
    ∧ o !! "id"
      = padded (msg_id m) (bool_decide (msg_type m = JSONRPC_NOTIFY)).
Proof.
  destruct m as [type method params result error id].
  destruct type, method, params, result, error, id;
    (eexists; split; [reflexivity |]);
    (split; [apply (bool_decide_unpack _); vm_compute; exact I |]);
    vm_compute; done.
Qed.

(** X4: [jsonrpc_msg_to_json] makes an object that has no other members
    than method, params, result, error and id.  The fields that the
    message has are written as they are, the method as a JSON string; of
    the fields it lacks, the result of an error, the error of a reply and
    the id of a notification are written as JSON null, and nothing is
    written for the others. *)
Theorem jsonrpc_msg_to_json_shape (m : jsonrpc_msg) :
  ∃ o : gmap string json,
    jsonrpc_msg_to_json m = JObject o
    ∧ (∀ name, is_Some (o !! name) → name ∈ message_fields)
    ∧ o !! "method" = JString <$> msg_method m
    ∧ o !! "params" = msg_params m
    ∧ o !! "result"
      = match msg_result m with
        | Some result => Some result
        | None => if msg_type m is JSONRPC_ERROR then Some JNull else None
        end
    ∧ o !! "error"
      = match msg_error m with
        | Some error => Some error
        | None => if msg_type m is JSONRPC_REPLY then Some JNull else None
        end
    ∧ o !! "id"
      = match msg_id m with
        | Some id => Some id
        | None => if msg_type m is JSONRPC_NOTIFY then Some JNull else None
        end.
Proof.
  destruct (jsonrpc_msg_to_json_members m)
    as (o & Hjson & Hdom & Hmethod & Hparams & Hresult & Herror & Hid).
  exists o. split_and!; try done.
  - intros name Hname%elem_of_dom. apply Hdom in Hname.
    unfold known_members, message_fields in *. set_unfold. intuition.
  - rewrite Hresult. unfold padded. by destruct (msg_result m), (msg_type m).
  - rewrite Herror. unfold padded. by destruct (msg_error m), (msg_type m).
  - rewrite Hid. unfold padded. by destruct (msg_id m), (msg_type m).
Qed.

Lemma null_from_json_null_not_null (v : option json) :
  null_from_json_null v ≠ Some JNull.
Proof. by destruct v as [[] |]. Qed.

Lemma null_from_json_null_idemp (v : option json) :
  null_from_json_null (null_from_json_null v) = null_from_json_null v.
Proof. by destruct v as [[] |]. Qed.

Lemma null_from_json_null_padded (v : option json) (pad : bool) :
  null_from_json_null (padded v pad) = null_from_json_null v.
Proof. by destruct v as [[] |], pad. Qed.

Lemma unexpected_members_empty_inv (o : gmap string json) (name : string) :
  unexpected_members o = ∅ → is_Some (o !! name) → name ∈ message_fields.
Proof.
  intros Hempty Hname.
  pose proof (unexpected_members_lookup o name) as Hlookup.
  rewrite Hempty, lookup_empty in Hlookup.
  case_decide as Hknown.
  - unfold known_members, message_fields in *. set_unfold. intuition.
  - rewrite <- Hlookup in Hname. by destruct Hname.
Qed.

(** What [jsonrpc_msg_from_json] returns when it returns a message. *)
Lemma jsonrpc_msg_from_json_inr (j : json) (m : jsonrpc_msg) :
  jsonrpc_msg_from_json j = inr m →
  ∃ o : gmap string json,
    j = JObject o
    ∧ unexpected_members o = ∅
    ∧ jsonrpc_msg_is_valid m = None
    ∧ normalize_msg m = m
    ∧ msg_method m
      = match o !! "method" with Some (JString s) => Some s | _ => None end
    ∧ msg_params m = null_from_json_null (o !! "params")
    ∧ msg_result m = null_from_json_null (o !! "result")
    ∧ msg_error m = null_from_json_null (o !! "error")
    ∧ msg_id m = null_from_json_null (o !! "id").
Proof.
  destruct j as [| | | o | | |]; try done.
  rewrite jsonrpc_msg_from_json_object. cbn zeta.
  case_match; [done |].
  destruct (shash_is_empty (unexpected_members o)) eqn:Hempty; [| done].
  apply shash_is_empty_true in Hempty. simpl.
  destruct (jsonrpc_msg_is_valid _) eqn:Hvalid; [done |].
  intros [= <-]. exists o. split_and!; try done.
  unfold normalize_msg. simpl. by rewrite !null_from_json_null_idemp.
Qed.

(** X5: a message that [jsonrpc_msg_from_json] returns comes from a JSON
    object that has no other members than method, params, result, error
    and id; it passes [jsonrpc_msg_is_valid]; none of its params, result,
    error and id is JSON null; and each of these fields is the member of
    that name, when the member is there and is not null. *)
Theorem jsonrpc_msg_from_json_sound (j : json) (m : jsonrpc_msg) :
  jsonrpc_msg_from_json j = inr m →
  ∃ o : gmap string json,
    j = JObject o
    ∧ (∀ name, is_Some (o !! name) → name ∈ message_fields)
    ∧ jsonrpc_msg_is_valid m = None
    ∧ msg_params m ≠ Some JNull ∧ msg_result m ≠ Some JNull
    ∧ msg_error m ≠ Some JNull ∧ msg_id m ≠ Some JNull
    ∧ (∀ method, msg_method m = Some method
                 ↔ o !! "method" = Some (JString method))
    ∧ (∀ v, msg_params m = Some v ↔ o !! "params" = Some v ∧ v ≠ JNull)
    ∧ (∀ v, msg_result m = Some v ↔ o !! "result" = Some v ∧ v ≠ JNull)
    ∧ (∀ v, msg_error m = Some v ↔ o !! "error" = Some v ∧ v ≠ JNull)
    ∧ (∀ v, msg_id m = Some v ↔ o !! "id" = Some v ∧ v ≠ JNull).
Proof.
  intros (o & -> & Hempty & Hvalid & _ & Hmethod & Hparams & Hresult
          & Herror & Hid)%jsonrpc_msg_from_json_inr.
  assert (∀ (field : option json) (member : option json),
            field = null_from_json_null member →
            ∀ v, field = Some v ↔ member = Some v ∧ v ≠ JNull) as Hfield.
  { intros field member -> v. destruct member as [[] |]; simpl;
      split; (intros [? ?] || intros ?); by simplify_eq. }
  exists o. split_and!; try done.
  - intros name. by apply unexpected_members_empty_inv.
  - rewrite Hparams. apply null_from_json_null_not_null.
  - rewrite Hresult. apply null_from_json_null_not_null.
  - rewrite Herror. apply null_from_json_null_not_null.
  - rewrite Hid. apply null_from_json_null_not_null.
  - intros method. rewrite Hmethod.
    destruct (o !! "method") as [[] |]; split; intros ?; by simplify_eq.
  - by apply Hfield.
  - by apply Hfield.
  - by apply Hfield.
  - by apply Hfield.
Qed.

Lemma jsonrpc_msg_from_json_sound_witness :
  let o : gmap string json :=
    <["result" := JInteger 5]> (<["error" := JNull]>
      (<["id" := JInteger 0]> ∅)) in
  let m := jsonrpc_create_reply (JInteger 5) (JInteger 0) in
  jsonrpc_msg_is_valid m = None ∧ msg_error m ≠ Some JNull.
Proof.
  intros o m.
  destruct (jsonrpc_msg_from_json_sound (JObject o) m)
    as (_ & _ & _ & Hvalid & _ & _ & Herror & _);
    [vm_compute; reflexivity |].
  by split.
Defined.

Lemma jsonrpc_msg_from_json_to_json (m : jsonrpc_msg) :
  jsonrpc_msg_from_json (jsonrpc_msg_to_json m) =
    match jsonrpc_msg_is_valid (normalize_msg m) with
    | Some error => inl error
    | None => inr (normalize_msg m)
    end.
Proof.
  destruct (jsonrpc_msg_to_json_members m)
    as (o & -> & Hdom & Hmethod & Hparams & Hresult & Herror & Hid).
  rewrite jsonrpc_msg_from_json_object.
  rewrite (unexpected_members_empty o Hdom).
  rewrite Hmethod, Hparams, Hresult, Herror, Hid.
  rewrite !null_from_json_null_padded.
  unfold normalize_msg. by destruct (msg_method m).
Qed.

(** X6: converting a message to JSON and back reads it as
    [jsonrpc_msg_from_json] reads any object: the fields that hold JSON
    null are dropped, the type is told from the fields that are left
    (result, else error, else id, else a notification), and the outcome is
    that message if it is valid, and the reason of [jsonrpc_msg_is_valid]
    if it is not.  No message, valid or not, is rejected for its method or
    for an unexpected member. *)
Theorem from_json_to_json_normalizes (m : jsonrpc_msg) :
  jsonrpc_msg_from_json (jsonrpc_msg_to_json m) =
    match jsonrpc_msg_is_valid (normalize_msg m) with
    | Some error => inl error
    | None => inr (normalize_msg m)
    end.
Proof. apply jsonrpc_msg_from_json_to_json. Qed.

(** X7: a message that [jsonrpc_msg_from_json] has returned converts to
    JSON and back to itself, whatever object it was read from. *)
Theorem to_json_from_json_roundtrip (j : json) (m : jsonrpc_msg) :
  jsonrpc_msg_from_json j = inr m →
  jsonrpc_msg_from_json (jsonrpc_msg_to_json m) = inr m.
Proof.
  intros (o & _ & _ & Hvalid & Hnormal & _)%jsonrpc_msg_from_json_inr.
  by rewrite jsonrpc_msg_from_json_to_json, Hnormal, Hvalid.
Qed.

Lemma to_json_from_json_roundtrip_witness :
  let o : gmap string json :=
    <["method" := JString "x"]> (<["params" := JArray []]>
      (<["result" := JNull]> ∅)) in
  jsonrpc_msg_from_json (jsonrpc_msg_to_json notify_x) = inr notify_x.
Proof.
  intros o.
  apply (to_json_from_json_roundtrip (JObject o) notify_x).
  vm_compute. reflexivity.
Defined.

(** ** The endpoint: sending *)

Section SendingProperties.
Context `{JsonText}.

Lemma stream_send_script (st st' : stream) (buf : list Byte.byte) retval :
  stream_send st buf = (retval, st') →
  (stream_sends st = [] ∧ retval = - EAGAIN ∧ st' = st)
  ∨ (∃ r rest,
       stream_sends st = r :: rest ∧ stream_sends st' = rest
       ∧ retval = (if 0 <=? r then Z.min r (Z.of_nat (length buf)) else r)
       ∧ st' = mk_stream (stream_name st) (stream_connects st) rest
                 (stream_recvs st)).
Proof.
  unfold stream_send. destruct (stream_sends st) as [| r rest];
    intros [= <- <-]; [by left |].
  right. by exists r, rest.
Qed.

(** One turn of the loop of [jsonrpc_run] in which the stream accepts
    [retval] bytes, in terms of the text of the queue. *)
Lemma jsonrpc_run_loop_accept_text (turns : nat) (rpc : jsonrpc) buf rest st
    retval st' :
  rpc_output rpc = buf :: rest → rpc_stream rpc = Some st →
  stream_send st buf = (retval, st') → 0 ≤ retval →
  ∃ rpc1,
    jsonrpc_run_loop (S turns) rpc = jsonrpc_run_loop turns rpc1
    ∧ rpc_stream rpc1 = Some st'
    ∧ rpc_status rpc1 = rpc_status rpc
    ∧ rpc_name rpc1 = rpc_name rpc
    ∧ rpc_input rpc1 = rpc_input rpc
    ∧ rpc_received rpc1 = rpc_received rpc
    ∧ rpc_backlog rpc1 = (rpc_backlog rpc - retval) mod SIZE_MOD
    ∧ concat (rpc_output rpc1)
      = drop (Z.to_nat retval) buf ++ concat rest
    ∧ (Z.of_nat (length buf) ≤ retval → rpc_output rpc1 = rest).
Proof.
  intros Hout Hst Hsend Hretval.
  rewrite jsonrpc_run_loop_unfold, Hout, Hst, Hsend. cbn zeta.
  destruct (Z.leb_spec 0 retval) as [_ | ?]; [| lia].
  destruct (drop (Z.to_nat retval) buf) as [| b buf'] eqn:Hdrop.
  - eexists. split; [reflexivity |]. by split_and!.
  - eexists. split; [reflexivity |]. split_and!; try done.
    intros Hall. rewrite drop_ge in Hdrop by lia. done.
Qed.






End SendingProperties.


Section RunProperties.
Context `{JsonText}.

Lemma jsonrpc_run_loop_status (turns : nat) (rpc : jsonrpc) (st : stream) :
  rpc_status rpc = 0 → rpc_stream rpc = Some st →
  rpc_status (jsonrpc_run_loop turns rpc) ≠ 0 →
  ∃ r, r ∈ stream_sends st ∧ r < 0 ∧ r ≠ - EAGAIN
       ∧ rpc_status (jsonrpc_run_loop turns rpc) = - r.
Proof.
  revert rpc st.
  induction turns as [| turns IH]; intros rpc st Hok Hst Hdead; [done |].
  destruct (rpc_output rpc) as [| buf rest] eqn:Hout;
    [by rewrite jsonrpc_run_loop_unfold, Hout in Hdead |].
  destruct (stream_send st buf) as [retval st'] eqn:Hsend.
  destruct (stream_send_script _ _ _ _ Hsend)
    as [(Hnone & -> & ->) | (r & answers & Hsends & Hsends' & Hretval & _)].
  - rewrite jsonrpc_run_loop_unfold, Hout, Hst, Hsend in Hdead.
    cbn zeta in Hdead. unfold EAGAIN in Hdead. simpl in Hdead. done.
  - destruct (Z.leb_spec 0 retval) as [Hnonneg | Hneg].
    + destruct (jsonrpc_run_loop_accept_text turns rpc _ _ _ _ _
                  Hout Hst Hsend Hnonneg)
        as (rpc1 & Heq & Hst1 & Hok1 & _).
      rewrite Heq in Hdead |- *.
      destruct (IH rpc1 st') as (r' & Hr' & Hfacts);
        [congruence | done | done |].
      exists r'. split; [| done]. rewrite Hsends, <- Hsends'. by right.
    + assert (retval = r) as -> by (destruct (Z.leb_spec 0 r); lia).
      rewrite jsonrpc_run_loop_unfold, Hout, Hst, Hsend in Hdead |- *.
      cbn zeta in Hdead |- *.
      destruct (Z.leb_spec 0 r) as [? | _]; [lia |].
      case_bool_decide as Hagain; [| by simpl in Hdead].
      exists r. split_and!; [rewrite Hsends; by left | done .. |].
      by rewrite jsonrpc_error_healthy.
Qed.

(** X9: a run makes a healthy endpoint fail only on an error of the
    transport.  If the status is nonzero after [jsonrpc_run], the stream
    has answered a send with a negative value other than [-EAGAIN], and the
    status is that error number, which is positive and is not [EAGAIN].  So
    a stream that only accepts bytes or answers [-EAGAIN] leaves the
    endpoint healthy, and so does a run on an empty queue, which does not
    call the stream at all. *)
Theorem jsonrpc_run_failure (rpc : jsonrpc) (st : stream) :
  rpc_status rpc = 0 → rpc_stream rpc = Some st →
  (rpc_status (jsonrpc_run rpc) ≠ 0 →
   ∃ r, r ∈ stream_sends st ∧ r < 0 ∧ r ≠ - EAGAIN
        ∧ rpc_status (jsonrpc_run rpc) = - r
        ∧ rpc_status (jsonrpc_run rpc) ≠ EAGAIN)
  ∧ (Forall (λ r, 0 ≤ r ∨ r = - EAGAIN) (stream_sends st) →
     rpc_status (jsonrpc_run rpc) = 0)
  ∧ (rpc_output rpc = [] → jsonrpc_run rpc = rpc).
Proof.
  intros Hok Hst.
  assert (rpc_status (jsonrpc_run rpc) ≠ 0 →
          ∃ r, r ∈ stream_sends st ∧ r < 0 ∧ r ≠ - EAGAIN
               ∧ rpc_status (jsonrpc_run rpc) = - r) as Hfail.
  { unfold jsonrpc_run. rewrite bool_decide_eq_false_2 by lia.
    rewrite Hst. unfold stream_run.
    by apply jsonrpc_run_loop_status. }
  split_and!.
  - intros (r & Hr & Hneg & Hagain & Hstatus)%Hfail.
    exists r. split_and!; try done. rewrite Hstatus. lia.
  - intros Hall.
    destruct (decide (rpc_status (jsonrpc_run rpc) = 0)) as [| Hdead]; [done |].
    destruct (Hfail Hdead) as (r & Hr & Hneg & Hagain & _).
    rewrite Forall_forall in Hall. destruct (Hall r Hr); lia.
  - intros Hempty. unfold jsonrpc_run. rewrite bool_decide_eq_false_2 by lia.
    rewrite Hst. unfold stream_run.
    rewrite jsonrpc_run_loop_unfold. simpl. rewrite Hempty.
    destruct rpc. simpl in *. by subst.
Qed.

Lemma jsonrpc_run_loop_drain (turns : nat) (rpc : jsonrpc) (st : stream)
    (rooms rest : list Z) :
  rpc_stream rpc = Some st →
  stream_sends st = rooms ++ rest →
  Forall2 (λ room buf, Z.of_nat (length buf) ≤ room) rooms (rpc_output rpc) →
  (length rooms < turns)%nat →
  let rpc' := jsonrpc_run_loop turns rpc in
  rpc_output rpc' = []
  ∧ rpc_status rpc' = rpc_status rpc
  ∧ rpc_stream rpc'
    = Some (mk_stream (stream_name st) (stream_connects st) rest
              (stream_recvs st)).
Proof.
  revert rpc st rooms.
  induction turns as [| turns IH]; intros rpc st rooms Hst Hsends Hrooms Hlt;
    [lia |].
  destruct (rpc_output rpc) as [| buf q] eqn:Hout.
  - apply Forall2_nil_inv_r in Hrooms as ->. simpl in Hsends.
    cbn zeta. rewrite jsonrpc_run_loop_unfold, Hout.
    split_and!; [done .. |]. rewrite Hst. destruct st. simpl in *. by subst.
  - apply Forall2_cons_inv_r in Hrooms
      as (room & rooms' & Hroom & Hrooms' & ->).
    destruct (stream_send st buf) as [retval st'] eqn:Hsend.
    destruct (stream_send_script _ _ _ _ Hsend)
      as [(Hnone & _) | (r & answers & Hanswers & Hsends' & Hretval & Hst')].
    { by rewrite Hsends in Hnone. }
    rewrite Hsends in Hanswers. simpl in Hanswers.
    injection Hanswers as <- <-. subst retval.
    assert ((if 0 <=? room then Z.min room (Z.of_nat (length buf)) else room)
            = Z.of_nat (length buf)) as Hall
      by (destruct (Z.leb_spec 0 room); lia).
    rewrite Hall in Hsend.
    destruct (jsonrpc_run_loop_accept_text turns rpc _ _ _ _ _
                Hout Hst Hsend ltac:(lia))
      as (rpc1 & -> & Hst1 & Hok1 & _ & _ & _ & _ & _ & Hq).
    specialize (Hq ltac:(lia)).
    destruct (IH rpc1 _ rooms' Hst1 Hsends') as (Hout' & Hok' & Hstream');
      [by rewrite Hq | simpl in Hlt; lia |].
    split_and!; [done | congruence |]. rewrite Hstream'. by subst st'.
Qed.

(** X10: a run sends the whole queue when the transport has room.  If
    the answers of the stream begin with one for each buffer of the queue,
    each with room for its buffer, [jsonrpc_run] leaves a healthy endpoint
    with an empty queue, and a backlog of [0] if the backlog counted the
    queue before; the stream has given those answers and no other. *)
Theorem jsonrpc_run_drains (rpc : jsonrpc) (st : stream) (rooms rest : list Z) :
  rpc_status rpc = 0 → rpc_stream rpc = Some st →
  stream_sends st = rooms ++ rest →
  Forall2 (λ room buf, Z.of_nat (length buf) ≤ room) rooms (rpc_output rpc) →
  rpc_output (jsonrpc_run rpc) = []
  ∧ rpc_status (jsonrpc_run rpc) = 0
  ∧ rpc_stream (jsonrpc_run rpc)
    = Some (mk_stream (stream_name st) (stream_connects st) rest
              (stream_recvs st))
  ∧ (backlog_inv rpc → jsonrpc_get_backlog (jsonrpc_run rpc) = 0).
Proof.
  intros Hok Hst Hsends Hrooms.
  assert (jsonrpc_run rpc
          = jsonrpc_run_loop (S (length (stream_sends st)))
              (set_rpc_stream (Some st) rpc)) as Hrun.
  { unfold jsonrpc_run. rewrite bool_decide_eq_false_2 by lia.
    by rewrite Hst. }
  destruct (jsonrpc_run_loop_drain (S (length (stream_sends st)))
              (set_rpc_stream (Some st) rpc) st rooms rest)
    as (Hout & Hstatus & Hstream); [done .. | |].
  { rewrite Hsends, length_app. lia. }
  rewrite Hrun. split_and!; [done | by rewrite Hstatus | done |].
  intros Hinv. rewrite <- Hrun.
  pose proof (backlog_inv_run rpc Hinv) as Hinv'.
  unfold jsonrpc_get_backlog. case_bool_decide; [done |].
  rewrite Hinv'. rewrite Hrun, Hout. done.
Qed.

End RunProperties.

Lemma jsonrpc_run_failure_witness :
  let st := mk_stream "peer" [] [1; -32] [] in
  let rpc := enqueue (H := example_text) (jsonrpc_open st) request_7 in
  ∃ r, r ∈ stream_sends st ∧ r < 0
       ∧ rpc_status (jsonrpc_run rpc) = - r
       ∧ rpc_status (jsonrpc_run rpc) ≠ EAGAIN.
Proof.
  intros st rpc.
  destruct (jsonrpc_run_failure (H := example_text) rpc st)
    as (Hfail & _); [reflexivity .. |].
  destruct Hfail as (r & Hr & Hneg & _ & Hstatus & Hagain); [by vm_compute |].
  by exists r.
Defined.

Lemma jsonrpc_run_drains_witness :
  let st := mk_stream "peer" [] [2; 100; 7] [] in
  let rpc :=
    set_rpc_output (H := example_text)
      [[Byte.x00; newline]; [Byte.x01; newline]]
      (set_rpc_backlog 4 (jsonrpc_open st)) in
  rpc_output (jsonrpc_run rpc) = []
  ∧ rpc_stream (jsonrpc_run rpc) = Some (mk_stream "peer" [] [7] [])
  ∧ jsonrpc_get_backlog (jsonrpc_run rpc) = 0.
Proof.
  intros st rpc.
  destruct (jsonrpc_run_drains (H := example_text) rpc st [2; 100] [7])
    as (Hout & _ & Hstream & Hbacklog); [reflexivity .. | |].
  { repeat constructor; simpl; lia. }
  split_and!; [done .. |]. apply Hbacklog. reflexivity.
Defined.

(** ** The endpoint: receiving *)

Section ReceivingProperties.
Context `{JsonText}.

Lemma stream_recv_stored (st st' : stream) (n : nat) retval stored :
  stream_recv st n = (retval, stored, st') →
  (length stored ≤ n)%nat ∧ (0 ≤ retval → retval = Z.of_nat (length stored)).
Proof.
  unfold stream_recv. destruct (stream_recvs st) as [| [bytes | errno] rest];
    intros [= <- <- <-]; simpl.
  - split; [lia | unfold EAGAIN; lia].
  - rewrite length_take. split; lia.
  - split; lia.
Qed.

Lemma byteq_advance_head_one_piece (q : byteq) (stored : list Byte.byte) :
  byteq_is_empty q = true → byteq_in_one_piece q →
  (length stored ≤ byteq_headroom q)%nat →
  byteq_in_one_piece (byteq_advance_head q stored).
Proof.
  unfold byteq_is_empty, byteq_in_one_piece, byteq_headroom, byteq_avail,
    byteq_used, byteq_advance_head.
  rewrite bool_decide_eq_true. intros Hempty [Htail _] Hstored. simpl.
  rewrite Hempty, Nat.add_0_r, Nat.mod_small in Hstored by done.
  rewrite length_app, Hempty. split; lia.
Qed.

Lemma byteq_advance_tail_one_piece (q : byteq) (n : nat) :
  byteq_in_one_piece q → byteq_in_one_piece (byteq_advance_tail q n).
Proof.
  unfold byteq_in_one_piece, byteq_used, byteq_advance_tail, BYTEQ_SIZE.
  intros [Htail Hsum]. cbn [byteq_tail_offset byteq_data].
  rewrite length_drop.
  pose proof (Nat.mod_upper_bound (byteq_tail_offset q + n) 512 ltac:(lia)).
  split; [done |].
  destruct (decide (byteq_tail_offset q + n < 512)%nat) as [Hsmall | Hbig].
  - rewrite Nat.mod_small by done. lia.
  - lia.
Qed.

Lemma received_valid_received (rpc : jsonrpc) :
  rpc_received rpc = None → received_valid (jsonrpc_received rpc).
Proof.
  intros Hnone msg. unfold jsonrpc_received.
  destruct (rpc_parser rpc) as [parser |]; [| by rewrite Hnone].
  assert (∀ rpc0 : jsonrpc, rpc_received rpc0 = None →
            rpc_received (jsonrpc_error rpc0 EPROTO) = None) as Herror.
  { intros rpc0 Hnone0. unfold jsonrpc_error. by case_bool_decide. }
  case_bool_decide; [by rewrite Herror |].
  destruct (jsonrpc_msg_from_json _) as [reason | msg'] eqn:Hjson;
    [by rewrite Herror |].
  simpl. intros [= <-].
  by apply jsonrpc_msg_from_json_inr in Hjson as (_ & _ & _ & Hvalid & _).
Qed.

Lemma jsonrpc_received_outcome (rpc : jsonrpc) :
  rpc_status rpc = 0 →
  (same_endpoint rpc (jsonrpc_received rpc)
   ∧ rpc_input (jsonrpc_received rpc) = rpc_input rpc)
  ∨ (rpc_status (jsonrpc_received rpc) = EPROTO
     ∧ dead (jsonrpc_received rpc)
     ∧ rpc_name (jsonrpc_received rpc) = rpc_name rpc
     ∧ rpc_input (jsonrpc_received rpc) = rpc_input rpc).
Proof.
  intros Hok. unfold jsonrpc_received.
  destruct (rpc_parser rpc) as [parser |]; [| by left].
  assert (∀ rpc0 : jsonrpc, rpc_status rpc0 = 0 →
            rpc_status (jsonrpc_error rpc0 EPROTO) = EPROTO
            ∧ dead (jsonrpc_error rpc0 EPROTO)
            ∧ rpc_name (jsonrpc_error rpc0 EPROTO) = rpc_name rpc0
            ∧ rpc_input (jsonrpc_error rpc0 EPROTO) = rpc_input rpc0)
    as Herror.
  { intros rpc0 Hok0. rewrite jsonrpc_error_healthy by done.
    by repeat split. }
  case_bool_decide; [right; by apply (Herror (set_rpc_parser None rpc)) |].
  destruct (jsonrpc_msg_from_json _);
    [right; by apply (Herror (set_rpc_parser None rpc)) | by left].
Qed.

(** An outcome of the rest of the loop is one of the whole loop, when the
    turns before have kept the endpoint. *)
Lemma recv_outcome_later (rpc rpc1 rpc' : jsonrpc) retval msg :
  same_endpoint rpc rpc1 →
  (byteq_in_one_piece (rpc_input rpc) → byteq_in_one_piece (rpc_input rpc1)) →
  recv_outcome rpc1 retval msg rpc' → recv_outcome rpc retval msg rpc'.
Proof.
  intros (Hstatus & Hname & Hout & Hbacklog) Hring
    (Hname' & Hreceived & Hring' & Hcases).
  split_and!; [congruence | done | by intros ?%Hring%Hring' |].
  destruct Hcases as [(? & ? & Hsame) | [(? & ? & Hsame & ?) | ?]].
  - left. split_and!; [done .. |]. destruct Hsame as (? & ? & ? & ?).
    split_and!; congruence.
  - right; left. split_and!; [done .. | | done].
    destruct Hsame as (? & ? & ? & ?). split_and!; congruence.
  - by right; right.
Qed.

Lemma recv_outcome_error (rpc rpc1 : jsonrpc) (error : Z) :
  rpc_status rpc1 = 0 → error ≠ 0 → error ≠ EAGAIN →
  rpc_name rpc1 = rpc_name rpc → rpc_input rpc1 = rpc_input rpc →
  recv_outcome rpc error None (jsonrpc_error rpc1 error)
  ∧ rpc_status (jsonrpc_error rpc1 error) = error.
Proof.
  intros Hok Herror Hagain Hname Hinput.
  rewrite jsonrpc_error_healthy by done. split; [| done].
  split_and!; [done | done | by simpl; rewrite Hinput |].
  right; right. by repeat split.
Qed.

Lemma jsonrpc_recv_loop_outcome (turns : nat) (rpc rpc' : jsonrpc) retval msg :
  rpc_status rpc = 0 → received_valid rpc →
  jsonrpc_recv_loop turns rpc = Some (retval, msg, rpc') →
  recv_outcome rpc retval msg rpc'.
Proof.
  assert (∀ (rpc0 : jsonrpc) m,
            rpc_status rpc0 = 0 → received_valid rpc0 →
            rpc_received rpc0 = Some m →
            recv_outcome rpc0 0 (Some m) (set_rpc_received None rpc0))
    as Hbuffered.
  { intros rpc0 m Hok Hvalid Hreceived. split_and!; [done .. |].
    left. split_and!; [done | | done]. exists m. split; [done |].
    by apply Hvalid. }
  revert rpc rpc' retval msg.
  induction turns as [| turns IH]; intros rpc rpc' retval msg Hok Hvalid Hrecv.
  { simpl in Hrecv. destruct (rpc_received rpc) as [m |] eqn:Hreceived;
      [| done]. simplify_eq. by apply Hbuffered. }
  simpl in Hrecv.
  destruct (rpc_received rpc) as [m |] eqn:Hreceived;
    [simplify_eq; by apply Hbuffered |].
  destruct (rpc_stream rpc) as [st |] eqn:Hst; [| done].
  destruct (byteq_is_empty (rpc_input rpc)) eqn:Hempty.
  - destruct (stream_recv st _) as [[r stored] st'] eqn:Hstream.
    destruct (stream_recv_stored _ _ _ _ _ Hstream) as [Hstored _].
    destruct (Z.ltb_spec r 0) as [Hneg | Hnonneg].
    + case_bool_decide as Hagain; simplify_eq.
      * split_and!; [done .. |]. right; left. by repeat split.
      * destruct (recv_outcome_error rpc (set_rpc_stream (Some st') rpc) (- r))
          as [Houtcome ->]; (done || lia).
    + destruct (Z.eqb_spec r 0) as [-> | Hpos].
      * simplify_eq.
        by destruct (recv_outcome_error rpc (set_rpc_stream (Some st') rpc)
                       EOF) as [Houtcome _].
      * apply IH in Hrecv; [| done | by intros ? ?; simplify_eq/=].
        eapply recv_outcome_later; [| | exact Hrecv]; [by repeat split |].
        intros Hring. by apply byteq_advance_head_one_piece.
  - destruct (json_parser_feed _ _) as [used parser].
    set (rpc1 := set_rpc_input _ (set_rpc_parser (Some parser) rpc)) in *.
    assert (same_endpoint rpc rpc1) as Hsame by by repeat split.
    assert (byteq_in_one_piece (rpc_input rpc) →
            byteq_in_one_piece (rpc_input rpc1)) as Hring
      by (intros ?; by apply byteq_advance_tail_one_piece).
    destruct (json_parser_is_done parser).
    + destruct (jsonrpc_received_outcome rpc1 Hok)
        as [[Hsame' Hinput] | (Hstatus & Hdead & Hname & Hinput)].
      * rewrite bool_decide_eq_false_2 in Hrecv
          by (destruct Hsame' as [-> _]; simpl; lia).
        apply IH in Hrecv;
          [| by destruct Hsame' as [-> _] | by apply received_valid_received].
        eapply recv_outcome_later; [exact Hsame | exact Hring |].
        eapply recv_outcome_later; [exact Hsame' | by rewrite Hinput |].
        exact Hrecv.
      * rewrite bool_decide_eq_true_2 in Hrecv
          by (rewrite Hstatus; unfold EPROTO; lia).
        simplify_eq. rewrite Hstatus.
        eapply recv_outcome_later; [exact Hsame | exact Hring |].
        split_and!; [done | apply Hdead | by rewrite Hinput |].
        right; right. unfold EPROTO, EAGAIN in *.
        split_and!; [lia | lia | done | done | exact Hdead].
    + apply IH in Hrecv; [| done | by intros ? ?; simplify_eq/=].
      by eapply recv_outcome_later.
Qed.

(** X11: how [jsonrpc_recv] returns on a healthy endpoint.  With [0], a
    message that passes [jsonrpc_msg_is_valid], and the endpoint healthy;
    or with [EAGAIN], no message, the endpoint healthy and its ring empty;
    or with a value that is neither [0] nor [EAGAIN], no message, and that
    value latched as the status of the endpoint, which has released its
    stream, parser and queue.  In the first two cases the send queue and
    the backlog are as before; in all cases no message stays buffered. *)
Theorem jsonrpc_recv_returns (turns : nat) (rpc rpc' : jsonrpc) retval msg :
  rpc_status rpc = 0 →
  (∀ m, rpc_received rpc = Some m → jsonrpc_msg_is_valid m = None) →
  jsonrpc_recv turns rpc = Some (retval, msg, rpc') →
  rpc_received rpc' = None
  ∧ ((retval = 0
      ∧ (∃ m, msg = Some m ∧ jsonrpc_msg_is_valid m = None)
      ∧ rpc_status rpc' = 0
      ∧ rpc_output rpc' = rpc_output rpc
      ∧ rpc_backlog rpc' = rpc_backlog rpc)
     ∨ (retval = EAGAIN ∧ msg = None
        ∧ rpc_status rpc' = 0
        ∧ rpc_output rpc' = rpc_output rpc
        ∧ rpc_backlog rpc' = rpc_backlog rpc
        ∧ byteq_is_empty (rpc_input rpc') = true)
     ∨ (retval ≠ 0 ∧ retval ≠ EAGAIN ∧ msg = None
        ∧ rpc_status rpc' = retval
        ∧ rpc_stream rpc' = None ∧ rpc_parser rpc' = None
        ∧ rpc_output rpc' = [] ∧ rpc_backlog rpc' = 0)).
Proof.
  intros Hok Hvalid Hrecv. unfold jsonrpc_recv in Hrecv.
  rewrite bool_decide_eq_false_2 in Hrecv by lia.
  apply jsonrpc_recv_loop_outcome in Hrecv
    as (_ & Hreceived & _ & Hcases); [| done ..].
  split; [done |].
  destruct Hcases as [(? & ? & Hsame) | [(? & ? & Hsame & ?) | Herror]].
  - left. destruct Hsame as (? & _ & ? & ?). split_and!; (done || congruence).
  - right; left. destruct Hsame as (? & _ & ? & ?).
    split_and!; (done || congruence).
  - right; right.
    destruct Herror as (? & ? & ? & ? & _ & ? & ? & _ & ? & ?).
    by split_and!.
Qed.

End ReceivingProperties.

(** ** The endpoint: what every call keeps *)

Section KeepingProperties.
Context `{JsonText}.

Lemma jsonrpc_error_keeps (rpc : jsonrpc) (error : Z) :
  rpc_received rpc = None →
  rpc_name (jsonrpc_error rpc error) = rpc_name rpc
  ∧ rpc_received (jsonrpc_error rpc error) = None
  ∧ rpc_input (jsonrpc_error rpc error) = rpc_input rpc.
Proof. intros Hnone. unfold jsonrpc_error. by case_bool_decide. Qed.

Lemma jsonrpc_run_loop_keeps (turns : nat) (rpc : jsonrpc) :
  rpc_received rpc = None →
  rpc_name (jsonrpc_run_loop turns rpc) = rpc_name rpc
  ∧ rpc_received (jsonrpc_run_loop turns rpc) = None
  ∧ rpc_input (jsonrpc_run_loop turns rpc) = rpc_input rpc.
Proof.
  revert rpc. induction turns as [| turns IH]; intros rpc Hnone; [done |].
  destruct (rpc_output rpc) as [| buf rest] eqn:Hout;
    [by rewrite jsonrpc_run_loop_unfold, Hout |].
  destruct (rpc_stream rpc) as [st |] eqn:Hst;
    [| by rewrite jsonrpc_run_loop_unfold, Hout, Hst].
  destruct (stream_send st buf) as [retval st'] eqn:Hsend.
  destruct (Z.leb_spec 0 retval) as [Hretval | Hneg].
  - destruct (jsonrpc_run_loop_accept_text turns rpc _ _ _ _ _
                Hout Hst Hsend Hretval)
      as (rpc1 & -> & _ & _ & Hname & Hinput & Hreceived & _).
    destruct (IH rpc1) as (? & ? & ?); [congruence |].
    split_and!; congruence.
  - rewrite jsonrpc_run_loop_unfold, Hout, Hst, Hsend. cbn zeta.
    destruct (Z.leb_spec 0 retval) as [? | _]; [lia |].
    case_bool_decide; [| done].
    by apply (jsonrpc_error_keeps (set_rpc_stream (Some st') rpc)).
Qed.

Lemma jsonrpc_run_keeps (rpc : jsonrpc) :
  rpc_received rpc = None →
  rpc_name (jsonrpc_run rpc) = rpc_name rpc
  ∧ rpc_received (jsonrpc_run rpc) = None
  ∧ rpc_input (jsonrpc_run rpc) = rpc_input rpc.
Proof.
  intros Hnone. unfold jsonrpc_run. case_bool_decide; [done |].
  destruct (rpc_stream rpc); [| done].
  by apply (jsonrpc_run_loop_keeps _ (set_rpc_stream _ rpc)).
Qed.

Lemma endpoint_step_keeps (rpc rpc' : jsonrpc) :
  endpoint_step rpc rpc' → rpc_received rpc = None →
  rpc_name rpc' = rpc_name rpc
  ∧ rpc_received rpc' = None
  ∧ (byteq_in_one_piece (rpc_input rpc) → byteq_in_one_piece (rpc_input rpc')).
Proof.
  intros [rpc0 msg retval rpc0' destroyed Hsend
         | rpc0 turns retval msg rpc0' Hrecv | rpc0 | rpc0 error _] Hnone.
  - destruct (decide (rpc_status rpc0 = 0)) as [Hok | Hdead].
    + rewrite jsonrpc_send_healthy in Hsend by done. cbn zeta in Hsend.
      injection Hsend as _ <- _.
      case_bool_decide; [| done].
      destruct (jsonrpc_run_keeps (enqueue rpc0 msg)) as (? & ? & Hinput);
        [done |].
      split_and!; [done .. |]. by rewrite Hinput.
    + rewrite jsonrpc_send_dead in Hsend by done. by simplify_eq.
  - unfold jsonrpc_recv in Hrecv. case_bool_decide as Hstatus.
    + by simplify_eq.
    + apply jsonrpc_recv_loop_outcome in Hrecv as (? & ? & ? & _);
        [done | lia |]. intros m. by rewrite Hnone.
  - destruct (jsonrpc_run_keeps rpc0 Hnone) as (? & ? & Hinput).
    split_and!; [done .. |]. by rewrite Hinput.
  - destruct (jsonrpc_error_keeps rpc0 error Hnone) as (? & ? & Hinput).
    split_and!; [done .. |]. by rewrite Hinput.
Qed.

Lemma endpoint_steps_keep (st : stream) (rpc : jsonrpc) :
  rtc endpoint_step (jsonrpc_open st) rpc →
  rpc_name rpc = stream_name st
  ∧ rpc_received rpc = None
  ∧ byteq_in_one_piece (rpc_input rpc).
Proof.
  assert (∀ rpc0 rpc1 : jsonrpc,
            rtc endpoint_step rpc0 rpc1 →
            rpc_received rpc0 = None → byteq_in_one_piece (rpc_input rpc0) →
            rpc_name rpc1 = rpc_name rpc0 ∧ rpc_received rpc1 = None
            ∧ byteq_in_one_piece (rpc_input rpc1)) as Hsteps.
  { induction 1 as [| rpc0 rpc1 rpc2 Hstep _ IH]; [done |].
    intros Hnone Hring.
    destruct (endpoint_step_keeps _ _ Hstep Hnone) as (Hname & Hnone' & Hring').
    destruct (IH Hnone' (Hring' Hring)) as (? & ? & ?).
    split_and!; congruence. }
  intros Hreach. apply (Hsteps _ _ Hreach); [done |].
  unfold byteq_in_one_piece, byteq_used, BYTEQ_SIZE. simpl. lia.
Qed.

(** X12: no message waits in an endpoint between calls.  After any
    sequence of sends, receives, runs and reported errors on a new
    endpoint, the place for a received message is empty: a receive hands
    over the message it has parsed in the same call, so that the next
    receive starts from the ring or from the stream. *)
Theorem no_message_buffered (st : stream) (rpc : jsonrpc) :
  rtc endpoint_step (jsonrpc_open st) rpc → rpc_received rpc = None.
Proof. by intros (_ & ? & _)%endpoint_steps_keep. Qed.

(** X13: the name of an endpoint is that of its stream when it was
    opened, after any sequence of calls and also once the endpoint has
    failed and has closed the stream. *)
Theorem jsonrpc_get_name_stable (st : stream) (rpc : jsonrpc) :
  rtc endpoint_step (jsonrpc_open st) rpc →
  jsonrpc_get_name rpc = stream_get_name st.
Proof. by intros (? & _)%endpoint_steps_keep. Qed.

(** X14: the bytes that wait in the ring of an endpoint are in one piece.
    [jsonrpc_recv] reads from the stream only into an empty ring and only
    as much as fits before the end of the ring, so after any sequence of
    calls the ring holds no more than [BYTEQ_SIZE] bytes, and the span that
    the parser is given is all the bytes that wait. *)
Theorem ring_in_one_piece (st : stream) (rpc : jsonrpc) :
  rtc endpoint_step (jsonrpc_open st) rpc →
  (byteq_used (rpc_input rpc) ≤ BYTEQ_SIZE)%nat
  ∧ byteq_tailroom (rpc_input rpc) = byteq_used (rpc_input rpc)
  ∧ byteq_tail (rpc_input rpc) (byteq_tailroom (rpc_input rpc))
    = byteq_data (rpc_input rpc).
Proof.
  intros (_ & _ & [Htail Hsum])%endpoint_steps_keep.
  assert (byteq_tailroom (rpc_input rpc) = byteq_used (rpc_input rpc)) as Hroom
    by (unfold byteq_tailroom; lia).
  split_and!; [lia | done |].
  unfold byteq_tail. rewrite Hroom. by apply firstn_all.
Qed.

(** X15: what the endpoint waits for after a receive.  After
    [jsonrpc_recv] has returned [EAGAIN] on a healthy endpoint,
    [jsonrpc_recv_wait] waits for the stream to have something to read, and
    does not ask to be woken at once; after it has returned an error, the
    endpoint asks to be woken at once and [jsonrpc_wait] waits for nothing;
    after it has returned a message, the endpoint asks to be woken at once
    exactly when bytes are left in the ring. *)
Theorem jsonrpc_recv_wait_after_recv (turns : nat) (rpc rpc' : jsonrpc)
    retval msg :
  rpc_status rpc = 0 →
  (∀ m, rpc_received rpc = Some m → jsonrpc_msg_is_valid m = None) →
  jsonrpc_recv turns rpc = Some (retval, msg, rpc') →
  (retval = EAGAIN → jsonrpc_recv_wait rpc' = [STREAM_RECV_WAIT])
  ∧ (retval ≠ 0 → retval ≠ EAGAIN →
     jsonrpc_recv_wait rpc' = [POLL_IMMEDIATE_WAKE] ∧ jsonrpc_wait rpc' = [])
  ∧ (retval = 0 →
     jsonrpc_recv_wait rpc'
     = if byteq_is_empty (rpc_input rpc') then [STREAM_RECV_WAIT]
       else [POLL_IMMEDIATE_WAKE]).
Proof.
  intros Hok Hvalid Hrecv. unfold jsonrpc_recv in Hrecv.
  rewrite bool_decide_eq_false_2 in Hrecv by lia.
  apply jsonrpc_recv_loop_outcome in Hrecv
    as (_ & Hreceived & _ & Hcases); [| done ..].
  unfold jsonrpc_recv_wait, jsonrpc_wait. rewrite Hreceived.
  unfold EAGAIN in *.
  destruct Hcases as [(-> & _ & Hstatus & _)
                     | [(-> & _ & (Hstatus & _) & Hempty)
                       | (? & ? & _ & Hstatus & _)]].
  - rewrite Hstatus, Hok. split_and!; [done .. |]. intros _.
    rewrite bool_decide_eq_false_2 by lia.
    by destruct (byteq_is_empty (rpc_input rpc')).
  - rewrite Hstatus, Hok, Hempty. split_and!; [| done ..]. intros _.
    by rewrite bool_decide_eq_false_2 by lia.
  - rewrite Hstatus. split_and!; [done | | done]. intros _ _.
    by rewrite bool_decide_eq_true_2, bool_decide_eq_false_2 by done.
Qed.

End KeepingProperties.

(** ** Blocking helpers and transactions: what they return *)

Section BlockingProperties.
Context `{JsonText}.

Lemma jsonrpc_send_returns (rpc rpc' : jsonrpc) msg error destroyed :
  jsonrpc_send rpc msg = (error, rpc', destroyed) →
  error = rpc_status rpc'
  ∧ destroyed = (if bool_decide (rpc_status rpc ≠ 0) then [msg] else [])
  ∧ (error = 0 → rpc_status rpc = 0)
  ∧ (rpc_received rpc = None → rpc_received rpc' = None)
  ∧ (backlog_inv rpc → backlog_inv rpc').
Proof.
  intros Hsend.
  pose proof (backlog_inv_send rpc msg) as Hinv. rewrite Hsend in Hinv.
  destruct (decide (rpc_status rpc = 0)) as [Hok | Hdead].
  - rewrite bool_decide_eq_false_2 by lia.
    rewrite jsonrpc_send_healthy in Hsend by done. cbn zeta in Hsend.
    injection Hsend as <- <- <-. split_and!; [done .. | | done].
    intros Hnone. case_bool_decide; [| done].
    by apply (jsonrpc_run_keeps (enqueue rpc msg)).
  - rewrite bool_decide_eq_true_2 by done.
    rewrite jsonrpc_send_dead in Hsend by done.
    injection Hsend as <- <- <-. by split_and!.
Qed.

Lemma jsonrpc_send_block_loop_returns (turns : nat) (rpc rpc' : jsonrpc) error :
  jsonrpc_send_block_loop turns rpc = Some (error, rpc') →
  error = rpc_status rpc'
  ∧ (error = 0 → rpc_output rpc' = [])
  ∧ (rpc_received rpc = None → rpc_received rpc' = None)
  ∧ (backlog_inv rpc → backlog_inv rpc').
Proof.
  revert rpc. induction turns as [| turns IH]; intros rpc Hloop; [done |].
  simpl in Hloop.
  destruct (bool_decide (rpc_output (jsonrpc_run rpc) = [])
            || bool_decide (rpc_status (jsonrpc_run rpc) ≠ 0)) eqn:Hstop.
  - injection Hloop as <- <-. split_and!; [done | | |].
    + intros Hok. apply orb_true_iff in Hstop as [Hempty | Hdead].
      * by apply bool_decide_eq_true in Hempty.
      * apply bool_decide_eq_true in Hdead. done.
    + intros Hnone. by apply jsonrpc_run_keeps.
    + apply backlog_inv_run.
  - apply IH in Hloop as (? & ? & Hreceived & Hinv).
    split_and!; [done .. | |].
    + intros Hnone. by apply Hreceived, jsonrpc_run_keeps.
    + intros ?. by apply Hinv, backlog_inv_run.
Qed.

Lemma jsonrpc_send_block_facts (turns : nat) (rpc rpc' : jsonrpc) msg error
    destroyed :
  jsonrpc_send_block turns rpc msg = Some (error, rpc', destroyed) →
  error = rpc_status rpc'
  ∧ destroyed = (if bool_decide (rpc_status rpc ≠ 0) then [msg] else [])
  ∧ (error = 0 → rpc_status rpc = 0 ∧ rpc_output rpc' = [])
  ∧ (rpc_received rpc = None → rpc_received rpc' = None)
  ∧ (backlog_inv rpc → backlog_inv rpc').
Proof.
  unfold jsonrpc_send_block.
  destruct (jsonrpc_send rpc msg) as [[error1 rpc1] destroyed1] eqn:Hsend.
  apply jsonrpc_send_returns in Hsend
    as (Herror1 & Hdestroyed & Hok & Hreceived & Hinv).
  destruct (decide (error1 ≠ 0)) as [Herror | Herror].
  - rewrite (bool_decide_eq_true_2 (error1 ≠ 0)) by done.
    intros [= <- <- <-]. by split_and!.
  - rewrite (bool_decide_eq_false_2 (error1 ≠ 0)) by done.
    destruct (jsonrpc_send_block_loop turns rpc1) as [[error2 rpc2] |] eqn:Hloop;
      [| done].
    intros [= <- <- <-].
    apply jsonrpc_send_block_loop_returns in Hloop
      as (Herror2 & Hempty & Hreceived2 & Hinv2).
    split_and!; [done | done | | by intros ?%Hreceived%Hreceived2
                 | by intros ?%Hinv%Hinv2].
    intros Hzero. split; [apply Hok; lia | by apply Hempty].
Qed.


Lemma jsonrpc_recv_block_outcome (turns : nat) (rpc rpc' : jsonrpc) error msg :
  rpc_received rpc = None →
  jsonrpc_recv_block turns rpc = Some (error, msg, rpc') →
  rpc_received rpc' = None
  ∧ ((error = 0 ∧ (∃ m, msg = Some m ∧ jsonrpc_msg_is_valid m = None)
      ∧ rpc_status rpc' = 0)
     ∨ (error ≠ 0 ∧ error ≠ EAGAIN ∧ msg = None ∧ rpc_status rpc' = error)).
Proof.
  revert rpc. induction turns as [| turns IH]; intros rpc Hnone Hblock;
    [done |].
  cbn [jsonrpc_recv_block] in Hblock.
  destruct (jsonrpc_recv (S turns) rpc) as [[[error1 msg1] rpc1] |] eqn:Hrecv;
    [| done].
  assert (rpc_received rpc1 = None
          ∧ (error1 ≠ EAGAIN →
             (error1 = 0 ∧ (∃ m, msg1 = Some m ∧ jsonrpc_msg_is_valid m = None)
              ∧ rpc_status rpc1 = 0)
             ∨ (error1 ≠ 0 ∧ msg1 = None ∧ rpc_status rpc1 = error1)))
    as [Hnone1 Hcases].
  { unfold jsonrpc_recv in Hrecv.
    destruct (decide (rpc_status rpc ≠ 0)) as [Hstatus | Hstatus].
    - rewrite bool_decide_eq_true_2 in Hrecv by done.
      injection Hrecv as <- <- <-. split; [done |]. intros _. by right.
    - rewrite bool_decide_eq_false_2 in Hrecv by done.
      apply jsonrpc_recv_loop_outcome in Hrecv
        as (_ & ? & _ & Hcases); [| lia | by intros m; rewrite Hnone].
      split; [done |]. intros Hagain.
      destruct Hcases as [(? & ? & Hok & _) | [(? & _) | (? & _ & ? & ? & _)]];
        [left | done | by right].
      split_and!; [done .. |]. rewrite Hok. lia. }
  destruct (decide (error1 ≠ EAGAIN)) as [Hagain | Hagain].
  - rewrite bool_decide_eq_true_2 in Hblock by done.
    injection Hblock as <- <- <-. split; [done |].
    destruct (Hcases Hagain) as [? | (? & ? & ?)]; [by left | by right].
  - rewrite bool_decide_eq_false_2 in Hblock by done.
    apply IH in Hblock; [done |]. by apply jsonrpc_run_keeps.
Qed.

(** X17: what [jsonrpc_recv_block] returns, on an endpoint in which no
    message is buffered.  It never returns [EAGAIN].  It returns [0] with a
    message that passes [jsonrpc_msg_is_valid], from an endpoint that is
    healthy; or a nonzero value without a message, and that value is the
    status of the endpoint. *)
Theorem jsonrpc_recv_block_returns (turns : nat) (rpc rpc' : jsonrpc) error msg :
  rpc_received rpc = None →
  jsonrpc_recv_block turns rpc = Some (error, msg, rpc') →
  error ≠ EAGAIN
  ∧ (error = 0 →
     (∃ m, msg = Some m ∧ jsonrpc_msg_is_valid m = None)
     ∧ rpc_status rpc' = 0)
  ∧ (error ≠ 0 → msg = None ∧ rpc_status rpc' = error).
Proof.
  intros Hnone (_ & Hcases)%jsonrpc_recv_block_outcome; [| done].
  unfold EAGAIN in *.
  destruct Hcases as [(-> & ? & ?) | (? & ? & ? & ?)]; by split_and!.
Qed.

Lemma jsonrpc_transact_loop_returns (turns : nat) (rpc rpc' : jsonrpc)
    (id : option json) (destroyed0 destroyed : list jsonrpc_msg) error reply :
  jsonrpc_transact_loop turns rpc id destroyed0
  = Some (error, reply, rpc', destroyed) →
  (∃ others,
     destroyed = destroyed0 ++ others
     ∧ Forall (λ m, is_matching_reply id m = false) others)
  ∧ (error = 0 → ∃ r, reply = Some r ∧ is_matching_reply id r = true)
  ∧ (error ≠ 0 → reply = None).
Proof.
  revert rpc destroyed0.
  induction turns as [| turns IH]; intros rpc destroyed0 Hloop; [done |].
  cbn [jsonrpc_transact_loop] in Hloop.
  destruct (jsonrpc_recv_block (S turns) rpc) as [[[error1 reply1] rpc1] |];
    [| done].
  case_bool_decide as Herror.
  - injection Hloop as <- <- <- <-. split_and!; [| done ..].
    exists []. by rewrite app_nil_r.
  - destruct reply1 as [r |]; [| done].
    destruct (bool_decide (msg_type r = JSONRPC_REPLY)
              && id_equal id (msg_id r)) eqn:Hmatch.
    + injection Hloop as <- <- <- <-. split_and!.
      * exists []. by rewrite app_nil_r.
      * intros _. by exists r.
      * intros ?. lia.
    + apply IH in Hloop as ((others & -> & Hothers) & ? & ?).
      split_and!; [| done ..].
      exists (r :: others). rewrite <- app_assoc. split; [done |].
      by apply Forall_cons.
Qed.

(** X18: [jsonrpc_transact_block] never returns a message that is not the
    reply to its request.  When it returns [0], the request had an id, the
    message returned has the type of a reply and that same id, and every
    message it has destroyed is one that did not match; when it returns an
    error, it returns no message. *)
Theorem jsonrpc_transact_block_sound (turns : nat) (rpc rpc' : jsonrpc)
    (request : jsonrpc_msg) error reply destroyed :
  jsonrpc_transact_block turns rpc request
  = Some (error, reply, rpc', destroyed) →
  (error = 0 →
   (∃ r id,
      reply = Some r ∧ msg_type r = JSONRPC_REPLY
      ∧ msg_id request = Some id ∧ msg_id r = Some id)
   ∧ Forall (λ m, ¬ (msg_type m = JSONRPC_REPLY ∧ msg_id m = msg_id request))
       destroyed)
  ∧ (error ≠ 0 → reply = None).
Proof.
  unfold jsonrpc_transact_block.
  destruct (jsonrpc_send_block turns rpc request)
    as [[[error1 rpc1] destroyed1] |] eqn:Hsend; [| done].
  apply jsonrpc_send_block_facts in Hsend as (_ & Hdestroyed1 & Hzero & _).
  destruct (decide (error1 = 0)) as [-> | Herror1].
  - rewrite (bool_decide_eq_true_2 (0 = 0)) by done.
    destruct (Hzero eq_refl) as [Hok _].
    rewrite bool_decide_eq_false_2 in Hdestroyed1 by lia. subst destroyed1.
    unfold json_clone. rewrite option_fmap_id.
    intros ((others & -> & Hothers) & Hreply & Hnone)
      %jsonrpc_transact_loop_returns.
    split; [| done]. intros (r & -> & Hr)%Hreply.
    unfold is_matching_reply, id_equal, json_equal in Hr, Hothers.
    apply andb_true_iff in Hr as [Htype%bool_decide_eq_true Hid].
    destruct (msg_id request) as [id |]; [| done].
    destruct (msg_id r) as [id' |] eqn:Hid'; [| done].
    apply bool_decide_eq_true in Hid as ->. split.
    + by exists r, id'.
    + simpl. eapply Forall_impl; [exact Hothers |].
      intros m Hm [Htypem Hidm]. simpl in Hm.
      rewrite Hidm in Hm.
      by rewrite !bool_decide_eq_true_2 in Hm.
  - rewrite (bool_decide_eq_false_2 (error1 = 0)) by done.
    intros [= <- <- <- <-]. split; [done | done].
Qed.

End BlockingProperties.

(** ** Sessions: what they hold, and what the sequence number shows *)

Section SessionConnection.
Context `{JsonText} `{Reconnect}.

Lemma UINT_MOD_pos : 0 < UINT_MOD.
Proof. by rewrite UINT_MOD_value. Qed.

Lemma seqno_bumps (seqno k : Z) :
  0 < k < UINT_MOD → (seqno + k) mod UINT_MOD ≠ seqno.
Proof.
  rewrite UINT_MOD_value. intros Hk Heq.
  pose proof (Z.div_mod (seqno + k) 4294967296 ltac:(lia)) as Hdm.
  rewrite Heq in Hdm. lia.
Qed.

Lemma seqno_bumps_twice (seqno : Z) :
  ((seqno + 1) mod UINT_MOD + 1) mod UINT_MOD ≠ seqno.
Proof.
  rewrite Z.add_mod_idemp_l, <- Z.add_assoc by (rewrite UINT_MOD_value; lia).
  apply seqno_bumps. rewrite UINT_MOD_value. lia.
Qed.

Lemma seqno_bumps_thrice (seqno : Z) :
  (((seqno + 1) mod UINT_MOD + 1) mod UINT_MOD + 1) mod UINT_MOD ≠ seqno.
Proof.
  rewrite Z.add_mod_idemp_l, <- Z.add_assoc, Z.add_mod_idemp_l, <- Z.add_assoc
    by (rewrite UINT_MOD_value; lia).
  apply seqno_bumps. rewrite UINT_MOD_value. lia.
Qed.

Lemma session_inv_incr (r : reconnect) (rpc : option jsonrpc)
    (st : option stream) (seqno : Z) :
  rpc = None ∨ st = None →
  session_inv (mk_jsonrpc_session r rpc st ((seqno + 1) mod UINT_MOD)).
Proof.
  intros Hone. split; [done |]. simpl.
  apply Z.mod_pos_bound, UINT_MOD_pos.
Qed.

Lemma session_inv_disconnect (s : jsonrpc_session) :
  0 ≤ s_seqno s < UINT_MOD →
  session_inv (jsonrpc_session_disconnect s)
  ∧ s_rpc (jsonrpc_session_disconnect s) = None.
Proof.
  intros Hrange. unfold jsonrpc_session_disconnect.
  destruct s as [r [rpc |] [st |] seqno]; simpl in *;
    (split; [| done]);
    try (apply session_inv_incr; by left); by split; [left |].
Qed.

Lemma session_inv_connect stream_open (now : Z) (s : jsonrpc_session) :
  0 ≤ s_seqno s < UINT_MOD →
  session_inv (jsonrpc_session_connect stream_open now s).
Proof.
  intros [_ Hnone]%session_inv_disconnect. unfold jsonrpc_session_connect.
  destruct (jsonrpc_session_disconnect s) as [r rpc st seqno].
  simpl in Hnone. subst rpc. simpl.
  destruct (stream_open (reconnect_get_name r)) as [error st'].
  case_bool_decide; apply session_inv_incr; by left.
Qed.

Lemma session_inv_run_io (now : Z) (s : jsonrpc_session) :
  session_inv s → session_inv (jsonrpc_session_run_io now s).
Proof.
  intros [Hone Hrange]. unfold jsonrpc_session_run_io.
  destruct s as [r [rpc |] st seqno]; simpl in *.
  - case_bool_decide.
    + by apply session_inv_disconnect.
    + split; [| done]. destruct Hone; [done | by right].
  - destruct st as [st |]; [| done].
    destruct (stream_connect (stream_run st)) as [error st'].
    repeat case_bool_decide; split; simpl; auto.
Qed.

Lemma session_inv_run_action stream_open (now next_id : Z)
    (s : jsonrpc_session) :
  session_inv s →
  session_inv (jsonrpc_session_run_action stream_open now next_id s).1.
Proof.
  intros [Hone Hrange]. unfold jsonrpc_session_run_action.
  destruct (reconnect_run (s_reconnect s) now) as [[[| |] |] r].
  - by apply session_inv_connect.
  - by apply session_inv_disconnect.
  - destruct s as [r0 [rpc |] st seqno]; simpl in *; [| done].
    destruct (jsonrpc_send rpc _) as [[error rpc'] destroyed]. simpl.
    split; [| done]. destruct Hone; [done | by right].
  - done.
Qed.

Lemma jsonrpc_session_send_same (s : jsonrpc_session) (msg : jsonrpc_msg) :
  same_connection s (jsonrpc_session_send s msg).1.2.
Proof.
  unfold jsonrpc_session_send.
  destruct s as [r [rpc |] st seqno]; simpl; [| done].
  by destruct (jsonrpc_send rpc msg) as [[error rpc'] destroyed].
Qed.

Lemma jsonrpc_session_recv_same (turns : nat) (now : Z)
    (s s' : jsonrpc_session) msg destroyed :
  jsonrpc_session_recv turns now s = Some (msg, s', destroyed) →
  same_connection s s'.
Proof.
  unfold jsonrpc_session_recv.
  destruct s as [r [rpc |] st seqno]; simpl; [| by intros [= <- <- <-]].
  destruct (jsonrpc_recv turns rpc) as [[[error [m |]] rpc'] |]; simpl;
    [| by intros [= <- <- <-] | done].
  destruct (bool_decide (msg_type m = JSONRPC_REQUEST) && method_is m "echo").
  - destruct (msg_params m) as [params |]; [| done].
    destruct (msg_id m) as [id |]; [| done].
    unfold jsonrpc_session_send. simpl.
    destruct (jsonrpc_send rpc' _) as [[error' rpc''] destroyed'].
    by intros [= <- <- <-].
  - destruct (bool_decide (msg_type m = JSONRPC_REPLY) && id_is_string m "echo");
      by intros [= <- <- <-].
Qed.

Lemma same_connection_inv (s s' : jsonrpc_session) :
  same_connection s s' → session_inv s → session_inv s'.
Proof.
  intros (Hseqno & Hstream & Hconnected) [Hone Hrange].
  split; [| by rewrite Hseqno]. rewrite Hstream.
  destruct Hone as [Hnone |]; [| by right]. left.
  unfold jsonrpc_session_is_connected in Hconnected. rewrite Hnone in Hconnected.
  by destruct (s_rpc s').
Qed.

Lemma session_step_inv (s s' : jsonrpc_session) :
  session_step s s' → session_inv s → session_inv s'.
Proof.
  intros [stream_open now next_id s0 | turns now s0 msg s0' destroyed Hrecv
         | s0 msg | now s0] Hinv.
  - by apply session_inv_run_action, session_inv_run_io.
  - by eapply same_connection_inv; [eapply jsonrpc_session_recv_same |].
  - by eapply same_connection_inv; [apply jsonrpc_session_send_same |].
  - done.
Qed.

Lemma session_steps_inv (s s' : jsonrpc_session) :
  rtc session_step s s' → session_inv s → session_inv s'.
Proof.
  induction 1 as [s | s s1 s2 Hstep _ IH]; [done |].
  intros Hinv. by eapply IH, session_step_inv.
Qed.

(** X19: a session never holds an endpoint and a stream at once.  From
    [jsonrpc_session_open] or [jsonrpc_session_open_unreliably], whatever
    the owner calls, the session holds an endpoint, or the stream of a
    connection in progress, or neither, and its sequence number is a value
    of an [unsigned int]. *)
Theorem session_holds_one_connection (s0 s : jsonrpc_session) :
  (∃ name now, s0 = jsonrpc_session_open name now)
  ∨ (∃ rpc now, s0 = jsonrpc_session_open_unreliably rpc now) →
  rtc session_step s0 s →
  ¬ (is_Some (s_rpc s) ∧ is_Some (s_stream s))
  ∧ 0 ≤ jsonrpc_session_get_seqno s < UINT_MOD.
Proof.
  intros Hopen Hsteps.
  assert (session_inv s) as [Hone Hrange].
  { eapply session_steps_inv; [exact Hsteps |].
    pose proof UINT_MOD_pos.
    destruct Hopen as [(name & now & ->) | (rpc & now & ->)];
      (split; simpl; [by right | lia]). }
  split; [| done].
  intros [[rpc Hrpc] [st Hst]]. destruct Hone; congruence.
Qed.

(** X20: only [jsonrpc_session_run] connects or disconnects.  Sending,
    receiving and forcing a reconnection leave the sequence number, the
    stream of a connection in progress and the presence of an endpoint as
    they were, even when the endpoint fails during the call. *)
Theorem session_io_keeps_connection (s : jsonrpc_session) :
  (∀ msg, same_connection s (jsonrpc_session_send s msg).1.2)
  ∧ (∀ turns now msg s' destroyed,
       jsonrpc_session_recv turns now s = Some (msg, s', destroyed) →
       same_connection s s')
  ∧ (∀ now, same_connection s (jsonrpc_session_force_reconnect now s)).
Proof.
  split_and!.
  - apply jsonrpc_session_send_same.
  - intros turns now msg s' destroyed. apply jsonrpc_session_recv_same.
  - done.
Qed.

(** One call of [jsonrpc_session_run] on a session that holds an
    endpoint: the endpoint is dropped and the sequence number moves, or the
    endpoint, healthy after [jsonrpc_run], is kept. *)
Lemma jsonrpc_session_run_connected stream_open (now next_id : Z)
    (s : jsonrpc_session) (rpc : jsonrpc) :
  s_rpc s = Some rpc →
  let s' := (jsonrpc_session_run stream_open now next_id s).1 in
  (s_rpc s' = None
   ∧ jsonrpc_session_get_seqno s' ≠ jsonrpc_session_get_seqno s)
  ∨ (∃ rpc', s_rpc s' = Some rpc' ∧ rtc endpoint_step rpc rpc'
             ∧ rpc_status (jsonrpc_run rpc) = 0
             ∧ jsonrpc_session_get_seqno s' = jsonrpc_session_get_seqno s
             ∧ s_stream s' = s_stream s).
Proof.
  intros Hrpc s'. subst s'.
  unfold jsonrpc_session_run, jsonrpc_session_run_io, jsonrpc_session_get_seqno.
  destruct s as [r orpc st seqno]. simpl in Hrpc. subst orpc. simpl.
  pose proof (incr_seqno_changes seqno) as Hbump1.
  pose proof (seqno_bumps_twice seqno) as Hbump2.
  pose proof (seqno_bumps_thrice seqno) as Hbump3.
  case_bool_decide as Hstatus; unfold jsonrpc_get_status in Hstatus.
  - left. unfold jsonrpc_session_run_action, jsonrpc_session_disconnect. simpl.
    destruct (reconnect_run _ now) as [[[| |] |] r']; simpl; [| | done ..].
    + unfold jsonrpc_session_connect, jsonrpc_session_disconnect. simpl.
      destruct st as [st |]; simpl;
        destruct (stream_open _) as [error st']; by case_bool_decide.
    + by destruct st.
  - unfold jsonrpc_session_run_action. simpl.
    destruct (reconnect_run r now) as [[[| |] |] r']; simpl.
    + left. unfold jsonrpc_session_connect, jsonrpc_session_disconnect. simpl.
      destruct (stream_open _) as [error st']; by case_bool_decide.
    + by left.
    + right.
      destruct (jsonrpc_send (jsonrpc_run rpc) _)
        as [[error rpc'] destroyed] eqn:Hsend. simpl.
      exists rpc'. split_and!; [done | | lia | done ..].
      eapply rtc_l; [apply step_run |]. by eapply rtc_once, step_send.
    + right. exists (jsonrpc_run rpc). split_and!; [done | | lia | done ..].
      apply rtc_once, step_run.
Qed.



(** X22: a failed endpoint is dropped by the next run, and the session
    does not sleep before it.  While a session holds an endpoint that has
    failed, [jsonrpc_session_recv_wait] asks to be woken at once and
    [jsonrpc_session_wait] waits for the controller only; the next
    [jsonrpc_session_run] leaves the session without an endpoint, with
    another sequence number and no backlog, and a send on it returns
    [ENOTCONN] and does not take the message. *)
Theorem failed_endpoint_is_dropped stream_open (now next_id : Z)
    (s : jsonrpc_session) (rpc : jsonrpc) :
  s_rpc s = Some rpc → jsonrpc_get_status rpc ≠ 0 →
  jsonrpc_session_recv_wait s = [POLL_IMMEDIATE_WAKE]
  ∧ jsonrpc_session_wait now s = [RECONNECT_WAIT now]
  ∧ (let s' := (jsonrpc_session_run stream_open now next_id s).1 in
     jsonrpc_session_is_connected s' = false
     ∧ jsonrpc_session_get_seqno s' ≠ jsonrpc_session_get_seqno s
     ∧ jsonrpc_session_get_backlog s' = 0
     ∧ ∀ msg, jsonrpc_session_send s' msg = (ENOTCONN, s', [])).
Proof.
  intros Hrpc Hdead. unfold jsonrpc_get_status in Hdead. split_and!.
  - unfold jsonrpc_session_recv_wait, jsonrpc_recv_wait. rewrite Hrpc.
    by rewrite bool_decide_eq_true_2.
  - unfold jsonrpc_session_wait, jsonrpc_wait. rewrite Hrpc.
    by rewrite bool_decide_eq_false_2.
  - intros s'.
    destruct (jsonrpc_session_run_connected stream_open now next_id s rpc Hrpc)
      as [[Hlost Hseqno] | (rpc' & _ & _ & Hok & _)].
    + fold s' in Hlost, Hseqno.
      unfold jsonrpc_session_is_connected, jsonrpc_session_get_backlog,
        jsonrpc_session_send.
      by rewrite Hlost.
    + by rewrite jsonrpc_run_dead in Hok.
Qed.

End SessionConnection.

(** ** The ids of requests *)

Lemma issued_ids_elem (count : nat) (next_id : Z) (id : json) :
  id ∈ issued_ids count next_id →
  id = JInteger next_id
  ∨ ∃ k, 0 < k < Z.of_nat count ∧ id = JInteger ((next_id + k) mod UINT_MOD).
Proof.
  revert next_id. induction count as [| count IH]; intros next_id Hin;
    [by apply elem_of_nil in Hin |].
  cbn [issued_ids jsonrpc_create_id] in Hin.
  apply elem_of_cons in Hin as [-> | Hin]; [by left |]. right.
  assert (count ≠ 0%nat) by (intros ->; by apply elem_of_nil in Hin).
  apply IH in Hin as [-> | (k & Hk & ->)].
  - exists 1. split; [lia | done].
  - exists (1 + k). split; [lia |].
    rewrite Z.add_mod_idemp_l, <- Z.add_assoc by (by rewrite UINT_MOD_value).
    done.
Qed.

(** X23: the ids that [jsonrpc_create_id] gives to requests are fresh
    until the counter has gone round: among as many successive ids as an
    [unsigned int] has values, no two are equal. *)
Theorem jsonrpc_create_id_fresh (count : nat) (next_id : Z) :
  Z.of_nat count ≤ UINT_MOD → NoDup (issued_ids count next_id).
Proof.
  revert next_id. induction count as [| count IH]; intros next_id Hcount;
    [apply NoDup_nil_2 |].
  cbn [issued_ids jsonrpc_create_id]. apply NoDup_cons. split; [| apply IH; lia].
  unfold json_integer_create.
  intros [[= Heq] | (k & Hk & [= Heq])]%issued_ids_elem.
  - symmetry in Heq. by apply next_id_changes in Heq.
  - rewrite Z.add_mod_idemp_l, <- Z.add_assoc in Heq
      by (by rewrite UINT_MOD_value).
    symmetry in Heq. revert Heq. apply seqno_bumps. lia.
Qed.

Lemma jsonrpc_create_id_fresh_witness :
  Z.of_nat 3 ≤ UINT_MOD
  ∧ issued_ids 3 4294967295
    = [JInteger 4294967295; JInteger 0; JInteger 1]
  ∧ NoDup (issued_ids 3 4294967295).
Proof.
  assert (Z.of_nat 3 ≤ UINT_MOD) as Hcount by (rewrite UINT_MOD_value; lia).
  split_and!; [exact Hcount | reflexivity |].
  exact (jsonrpc_create_id_fresh 3 4294967295 Hcount).
Defined.

(** ** The further properties on the examples *)

Lemma transact_block_returns_true `{JsonText} turns rpc request error reply
    destroyed :
  transact_block_returns turns rpc request error reply destroyed = true →
  jsonrpc_transact_block turns rpc request
  = Some (error, reply, after_transact_block turns rpc request, destroyed).
Proof.
  unfold transact_block_returns, after_transact_block.
  destruct (jsonrpc_transact_block turns rpc request) as [[[[e r] rpc'] d] |];
    [| done].
  rewrite !andb_true_iff, !bool_decide_eq_true. by intros [[-> ->] ->].
Qed.

Lemma jsonrpc_recv_returns_witness :
  let rpc0 := jsonrpc_open (H := example_text) s3_stream in
  let rpc1 := after_recv 3 rpc0 in
  let rpc2 := after_recv 3 rpc1 in
  jsonrpc_recv 3 rpc1 = Some (EPROTO, None, rpc2)
  ∧ rpc_status rpc2 = EPROTO ∧ rpc_stream rpc2 = None
  ∧ rpc_output rpc2 = [] ∧ rpc_backlog rpc2 = 0.
Proof.
  intros rpc0 rpc1 rpc2.
  assert (jsonrpc_recv 3 rpc1 = Some (EPROTO, None, rpc2)) as Hrecv
    by (apply recv_returns_true; vm_compute; reflexivity).
  assert (rpc_status rpc1 = 0) as Hok by (vm_compute; reflexivity).
  assert (rpc_received rpc1 = None) as Hnone by (vm_compute; reflexivity).
  split; [exact Hrecv |].
  destruct (jsonrpc_recv_returns (H := example_text) 3 rpc1 rpc2 EPROTO None)
    as (_ & [(Hzero & _) | [(Hagain & _) | (_ & _ & _ & ? & ? & _ & ? & ?)]]);
    [exact Hok | by intros m; rewrite Hnone | exact Hrecv | done .. |].
  by split_and!.
Defined.

Lemma no_message_buffered_witness :
  let rpc0 := jsonrpc_open (H := example_text) s5_stream in
  let rpc1 := after_recv 3 rpc0 in
  jsonrpc_recv 3 rpc0 = Some (0, Some notify_x, rpc1)
  ∧ rpc_received rpc1 = None.
Proof.
  intros rpc0 rpc1.
  assert (jsonrpc_recv 3 rpc0 = Some (0, Some notify_x, rpc1)) as Hrecv
    by (apply recv_returns_true; vm_compute; reflexivity).
  split; [exact Hrecv |].
  apply (no_message_buffered (H := example_text) s5_stream rpc1).
  apply rtc_once. exact (step_recv rpc0 3 0 (Some notify_x) rpc1 Hrecv).
Defined.

Lemma jsonrpc_get_name_stable_witness :
  let rpc0 := jsonrpc_open (H := example_text) s3_stream in
  let rpc2 := after_recv 3 (after_recv 3 rpc0) in
  rpc_status rpc2 = EPROTO ∧ jsonrpc_get_name rpc2 = "peer".
Proof.
  intros rpc0 rpc2. split; [vm_compute; reflexivity |].
  apply (jsonrpc_get_name_stable (H := example_text) s3_stream rpc2).
  apply (rtc_l _ _ (after_recv 3 rpc0)).
  - apply (step_recv rpc0 3 EAGAIN None).
    apply recv_returns_true. vm_compute. reflexivity.
  - apply rtc_once. apply (step_recv _ 3 EPROTO None).
    apply recv_returns_true. vm_compute. reflexivity.
Defined.

Lemma ring_in_one_piece_witness :
  let rpc0 := jsonrpc_open (H := example_text) s5_stream in
  let rpc1 := after_recv 3 rpc0 in
  rpc_input rpc1 = mk_byteq [Byte.x02] 2
  ∧ (byteq_used (rpc_input rpc1) ≤ BYTEQ_SIZE)%nat
  ∧ byteq_tailroom (rpc_input rpc1) = byteq_used (rpc_input rpc1)
  ∧ byteq_tail (rpc_input rpc1) (byteq_tailroom (rpc_input rpc1))
    = byteq_data (rpc_input rpc1).
Proof.
  intros rpc0 rpc1. split; [vm_compute; reflexivity |].
  apply (ring_in_one_piece (H := example_text) s5_stream rpc1).
  apply rtc_once. apply (step_recv rpc0 3 0 (Some notify_x)).
  apply recv_returns_true. vm_compute. reflexivity.
Defined.

Lemma jsonrpc_recv_wait_after_recv_witness :
  let rpc0 := jsonrpc_open (H := example_text) s3_stream in
  let rpc1 := after_recv 3 rpc0 in
  jsonrpc_recv 3 rpc0 = Some (EAGAIN, None, rpc1)
  ∧ jsonrpc_recv_wait rpc1 = [STREAM_RECV_WAIT].
Proof.
  intros rpc0 rpc1.
  assert (jsonrpc_recv 3 rpc0 = Some (EAGAIN, None, rpc1)) as Hrecv
    by (apply recv_returns_true; vm_compute; reflexivity).
  split; [exact Hrecv |].
  destruct (jsonrpc_recv_wait_after_recv (H := example_text) 3 rpc0 rpc1
              EAGAIN None) as (Hagain & _);
    [reflexivity | by intros m | exact Hrecv |].
  by apply Hagain.
Defined.


Lemma jsonrpc_recv_block_returns_witness :
  let rpc0 := jsonrpc_open (H := example_text) s3_stream in
  let rpc1 := after_recv_block 4 rpc0 in
  jsonrpc_recv_block 4 rpc0 = Some (EPROTO, None, rpc1)
  ∧ rpc_status rpc1 = EPROTO.
Proof.
  intros rpc0 rpc1.
  assert (jsonrpc_recv_block 4 rpc0 = Some (EPROTO, None, rpc1)) as Hblock
    by (apply recv_block_returns_true; vm_compute; reflexivity).
  split; [exact Hblock |].
  destruct (jsonrpc_recv_block_returns (H := example_text) 4 rpc0 rpc1
              EPROTO None eq_refl Hblock) as (_ & _ & Herror).
  by apply Herror.
Defined.

Lemma jsonrpc_transact_block_sound_witness :
  let rpc0 := jsonrpc_open (H := example_text) s5_stream in
  let rpc1 := after_transact_block 6 rpc0 request_7 in
  jsonrpc_transact_block 6 rpc0 request_7
  = Some (0, Some reply_7, rpc1, [notify_x; reply_6])
  ∧ (∃ r id,
       Some reply_7 = Some r ∧ msg_type r = JSONRPC_REPLY
       ∧ msg_id request_7 = Some id ∧ msg_id r = Some id)
  ∧ Forall (λ m, ¬ (msg_type m = JSONRPC_REPLY ∧ msg_id m = msg_id request_7))
      [notify_x; reply_6].
Proof.
  intros rpc0 rpc1.
  assert (jsonrpc_transact_block 6 rpc0 request_7
          = Some (0, Some reply_7, rpc1, [notify_x; reply_6])) as Htransact
    by (apply transact_block_returns_true; vm_compute; reflexivity).
  split; [exact Htransact |].
  destruct (jsonrpc_transact_block_sound (H := example_text) 6 rpc0 rpc1
              request_7 0 (Some reply_7) [notify_x; reply_6] Htransact)
    as [Hzero _].
  by apply Hzero.
Defined.

Lemma session_holds_one_connection_witness :
  let s0 :=
    jsonrpc_session_open (H := example_text)
      (H0 := scripted [Some RECONNECT_CONNECT]) "peer" 0 in
  let s1 := (jsonrpc_session_run opening 0 0 s0).1 in
  (is_present (s_rpc s1), is_present (s_stream s1), s_seqno s1)
  = (false, true, 1)
  ∧ ¬ (is_Some (s_rpc s1) ∧ is_Some (s_stream s1))
  ∧ 0 ≤ jsonrpc_session_get_seqno s1 < UINT_MOD.
Proof.
  intros s0 s1. split; [vm_compute; reflexivity |].
  apply (session_holds_one_connection (H := example_text)
           (H0 := scripted [Some RECONNECT_CONNECT]) s0 s1).
  - left. by exists "peer", 0.
  - apply rtc_once. apply session_step_run.
Defined.


Lemma failed_endpoint_is_dropped_witness :
  let s1 := (jsonrpc_session_run opening 0 0 s6_session).1 in
  jsonrpc_session_recv_wait s6_session = [POLL_IMMEDIATE_WAKE]
  ∧ jsonrpc_session_is_connected s1 = false
  ∧ jsonrpc_session_get_seqno s1 ≠ jsonrpc_session_get_seqno s6_session
  ∧ jsonrpc_session_send s1 notify_x = (ENOTCONN, s1, []).
Proof.
  intros s1.
  destruct (failed_endpoint_is_dropped (H := example_text) opening 0 0
              s6_session
              (jsonrpc_error (jsonrpc_open (mk_stream "peer" [] [] [])) EOF)
              eq_refl) as (Hwake & _ & Hgone & Hseqno & _ & Hsend).
  { vm_compute. discriminate. }
  split_and!; [exact Hwake | exact Hgone | exact Hseqno | apply Hsend].
Defined.
